(** * n8n-nodes-nkb-map-reducer: token budget, retry policy, hierarchical
      reduction and the map-reduce orchestrator

    A shallow embedding of
      - [src/nodes/map-reducer/utils/helper-functions.ts]
        ([TokenBudgetTracker], [withRetry], [usedTokensFromMessage],
        [hierarchicalReduce]) and
      - [src/nodes/map-reducer/MapReducer.node.summarize.ts]
        ([summarizeWithQueue]).

    Conventions.
      - JavaScript numbers that hold token counts, timestamps and delays
        are integers here ([Z]); counters and array indices are [nat].
        The parameters of the node are read as they are entered: a finite
        number of any sign, whole or not, or no value ([Node.Number]).
      - An [async] function is a state transformer over [World]: [await]
        is sequencing.  A rejected promise is [inl e], a fulfilled one is
        [inr v].
      - The remote model, the prompt templates and the tokenizer are
        external collaborators; they are the fields of [Env].
      - Recursion whose termination depends on its arguments carries a
        fuel counter; running out of fuel is the outcome [Diverged].
      - Where the interleaving of [async] functions matters, the code runs
        on an event loop: every [await] is a point of suspension, and the
        queue of [makeQueue] takes its own turns under its caps. *)

From Stdlib Require Import ZArith List String Ascii Bool Arith Lia.
From Stdlib Require Import DecimalString Sorted QArith.
Import ListNotations.

Local Open Scope string_scope.
Local Open Scope Z_scope.

(* ===================================================================== *)
(** * Part I: definitions                                                 *)
(* ===================================================================== *)

(** ** Errors and outcomes *)

(** A JavaScript [Error] as the code inspects it: [message],
    [error.status], [error.response.status] and the numeric value of
    [error.response.headers['retry-after']] ([None] is [NaN]). *)
Record JsError := mkError {
  message : string;
  status : option Z;
  response_status : option Z;
  retry_after : option Z
}.

(** [new Error(msg)] *)
Definition newError (msg : string) : JsError :=
  {| message := msg; status := None; response_status := None;
     retry_after := None |}.

(** What a promise settles to; [Diverged] stands for a computation that
    never settles. *)
Inductive Outcome (A : Type) : Type :=
| Resolved (a : A)
| Rejected (e : JsError)
| Diverged.

Arguments Resolved {A} a.
Arguments Rejected {A} e.
Arguments Diverged {A}.

Definition of_result {A : Type} (r : JsError + A) : Outcome A :=
  match r with
  | inl e => Rejected e
  | inr a => Resolved a
  end.

(** ** Strings as JavaScript uses them here *)

(** [`${n}`] for an integer. *)
Definition showZ (n : Z) : string := NilZero.string_of_int (Z.to_int n).

(** [s.startsWith(p)] *)
Fixpoint startsWith (p s : string) : bool :=
  match p, s with
  | EmptyString, _ => true
  | String _ _, EmptyString => false
  | String a p', String b s' => Ascii.eqb a b && startsWith p' s'
  end.

(** [s.includes(needle)] *)
Fixpoint includes (needle s : string) : bool :=
  startsWith needle s ||
  match s with
  | EmptyString => false
  | String _ s' => includes needle s'
  end.

(** White space removed by [String.prototype.trim] (the ASCII part). *)
Definition isSpace (c : ascii) : bool :=
  let n := nat_of_ascii c in
  ((9 <=? n) && (n <=? 13))%nat || (n =? 32)%nat.

Fixpoint trimStart (s : string) : string :=
  match s with
  | EmptyString => EmptyString
  | String c s' => if isSpace c then trimStart s' else s
  end.

Fixpoint trimEnd (s : string) : string :=
  match s with
  | EmptyString => EmptyString
  | String c s' =>
      match trimEnd s' with
      | EmptyString => if isSpace c then EmptyString else String c EmptyString
      | t => String c t
      end
  end.

Definition trim (s : string) : string := trimEnd (trimStart s).

(** [a.join(sep)] on an array of strings. *)
Fixpoint join (sep : string) (a : list string) : string :=
  match a with
  | [] => ""
  | [x] => x
  | x :: rest => x ++ sep ++ join sep rest
  end.

(** [a.slice(i, j)] for [0 <= i <= j]. *)
Definition slice {A : Type} (i j : nat) (a : list A) : list A :=
  firstn (j - i) (skipn i a).

(** ** Configuration ([SummarizeCfg], getNodeProperties.ts) *)

Record SummarizeCfg := mkCfg {
  TOKENS_PER_MINUTE : Z;
  TOKEN_BUDGET_TIMEOUT : Z;      (* milliseconds *)
  REQUESTS_PER_MINUTE : Z;
  QUEUE_INTERVAL : Z;            (* milliseconds *)
  QUEUE_CONCURRENCY : Z;
  TOKEN_BUDGET_WINDOWS : Z;      (* milliseconds *)
  MAP_OUT_MAX : Z;
  REDUCE_OUT_MAX : Z;
  HIERARCHY_GROUP_SIZE : nat
}.

(** ** TokenBudgetTracker (helper-functions.ts, lines 49-117) *)

Record TokenBudgetTracker := mkTracker {
  usedTokens : Z;
  windowStart : Z;
  windowMs : Z;
  tokensPerMinute : Z
}.

(** [new TokenBudgetTracker(config)] at time [now]. *)
Definition newTracker (config : SummarizeCfg) (now : Z) : TokenBudgetTracker :=
  {| usedTokens := 0;
     windowStart := now;
     windowMs := TOKEN_BUDGET_WINDOWS config;
     tokensPerMinute := TOKENS_PER_MINUTE config |}.

Definition resetIfNeeded (now : Z) (t : TokenBudgetTracker)
  : TokenBudgetTracker :=
  if now - windowStart t >=? windowMs t
  then {| usedTokens := 0;
          windowStart := now;
          windowMs := windowMs t;
          tokensPerMinute := tokensPerMinute t |}
  else t.

Definition canUseTokens (estimatedTokens now : Z) (t : TokenBudgetTracker)
  : bool * TokenBudgetTracker :=
  let t' := resetIfNeeded now t in
  (usedTokens t' + estimatedTokens <=? tokensPerMinute t', t').

Definition useTokens (actualTokens now : Z) (t : TokenBudgetTracker)
  : TokenBudgetTracker :=
  let t' := resetIfNeeded now t in
  {| usedTokens := usedTokens t' + actualTokens;
     windowStart := windowStart t';
     windowMs := windowMs t';
     tokensPerMinute := tokensPerMinute t' |}.

Definition getRemainingTokens (now : Z) (t : TokenBudgetTracker)
  : Z * TokenBudgetTracker :=
  let t' := resetIfNeeded now t in
  (Z.max 0 (tokensPerMinute t' - usedTokens t'), t').

(** A run of [useTokens] calls, each at its own time. *)
Definition useAll (uses : list (Z * Z)) (t : TokenBudgetTracker)
  : TokenBudgetTracker :=
  fold_left (fun acc u => useTokens (snd u) (fst u) acc) uses t.

Definition sumAmounts (uses : list (Z * Z)) : Z :=
  fold_right (fun u acc => snd u + acc) 0 uses.

(** All calls fall in the window that is open in [t]: none of them
    triggers the lazy reset. *)
Definition withinWindow (t : TokenBudgetTracker) (now : Z) : Prop :=
  now - windowStart t < windowMs t.

(** ** The world an [async] function runs in *)

(** What the run does that an observer can see, oldest first. *)
Inductive Event : Type :=
| MapChunk (i : nat)                        (* the map loop enters iteration i *)
| BudgetPoll (estWeight : Z) (granted : bool) (* tokenTracker.canUseTokens *)
| QueueStart                                (* queue.add starts the job *)
| QueueDone                                 (* ... and the job has settled *)
| Invoke (prompt : string) (maxTokens : Z)  (* model.invoke *)
| Push (partial : string)                   (* partials.push *)
| Reduce (joined : string).                 (* reduceJob is entered *)

Record World := mkWorld {
  now : Z;                          (* Date.now() *)
  tokenTracker : TokenBudgetTracker;
  invocations : nat;                (* calls answered by the environment *)
  trace : list Event
}.

Definition emit (ev : Event) (w : World) : World :=
  {| now := now w; tokenTracker := tokenTracker w;
     invocations := invocations w; trace := trace w ++ [ev] |}.

Definition setTracker (t : TokenBudgetTracker) (w : World) : World :=
  {| now := now w; tokenTracker := t;
     invocations := invocations w; trace := trace w |}.

(** [await new Promise((resolve) => setTimeout(resolve, ms))]: the clock
    moves on by [ms] (a negative delay counts as [0]). *)
Definition sleep (ms : Z) (w : World) : World :=
  {| now := now w + Z.max 0 ms; tokenTracker := tokenTracker w;
     invocations := invocations w; trace := trace w |}.

(** An [async () => T] closure. *)
Definition Thunk (T : Type) : Type := World -> (JsError + T) * World.

(** A closure whose n-th call (counted over the world's lifetime) settles
    as [script n]: the shape of a test double that fails a given number of
    times and then succeeds. *)
Definition scripted {T : Type} (script : nat -> JsError + T) : Thunk T :=
  fun w =>
    (script (invocations w),
     {| now := now w; tokenTracker := tokenTracker w;
        invocations := S (invocations w); trace := trace w |}).

(** ** withRetry (helper-functions.ts, lines 174-202) *)

(** What the retry loop did, oldest first. *)
Inductive RetryStep : Type :=
| Called (attemptNumber : nat)     (* fn was invoked *)
| Delayed (ms : Z).                (* onFailedAttempt slept before a retry *)

(** Modelled from the library's contract: [pRetry] of the p-retry package
    (a dependency, not part of the sources).  [pRetry(fn, {retries,
    onFailedAttempt})] invokes [fn]; when it rejects, [onFailedAttempt] is
    awaited with the error and the 1-based [attemptNumber]; if the
    callback throws, the promise rejects with what it threw; otherwise
    [fn] is invoked again while retries are left, and the promise rejects
    with the error once they are used up. *)
Fixpoint pRetry {T : Type} (fn : Thunk T)
    (onFailedAttempt : JsError -> nat -> World -> (JsError + Z) * World)
    (retriesLeft attemptNumber : nat) (w : World)
  : (JsError + T) * World * list RetryStep :=
  match fn w with
  | (inr v, w1) => (inr v, w1, [Called attemptNumber])
  | (inl e, w1) =>
      match onFailedAttempt e attemptNumber w1 with
      | (inl e', w2) => (inl e', w2, [Called attemptNumber])
      | (inr ms, w2) =>
          match retriesLeft with
          | O => (inl e, w2, [Called attemptNumber; Delayed ms])
          | S r =>
              let '(res, w3, steps) :=
                pRetry fn onFailedAttempt r (S attemptNumber) w2 in
              (res, w3, Called attemptNumber :: Delayed ms :: steps)
          end
      end
  end.

(** [error?.status ?? error?.response?.status] *)
Definition errorStatus (e : JsError) : option Z :=
  match status e with
  | Some s => Some s
  | None => response_status e
  end.

(** [Math.min(2 ** error.attemptNumber * 1000, 8000)] *)
Definition backoff (attemptNumber : nat) : Z :=
  Z.min (2 ^ Z.of_nat attemptNumber * 1000) 8000.

(** The [onFailedAttempt] callback of [withRetry]; a normal return gives
    the delay it slept. *)
Definition onFailedAttempt (e : JsError) (attemptNumber : nat) (w : World)
  : (JsError + Z) * World :=
  match errorStatus e with
  | Some s =>
      if s =? 429 then
        let delay := match retry_after e with
                     | Some r => r * 1000
                     | None => backoff attemptNumber
                     end in
        (inr delay, sleep delay w)
      else if s >=? 500 then
        let delay := backoff attemptNumber in
        (inr delay, sleep delay w)
      else (inl e, w)
  | None => (inl e, w)
  end.

(** The default of the parameter, [maxRetries = 6]. *)
Definition defaultMaxRetries : nat := 6%nat.

(** [withRetry(fn, maxRetries = 6)]; [None] is an omitted argument. *)
Definition withRetry {T : Type} (fn : Thunk T) (maxRetries : option nat)
    (w : World) : (JsError + T) * World * list RetryStep :=
  let retries := match maxRetries with
                 | Some n => n
                 | None => defaultMaxRetries
                 end in
  pRetry fn onFailedAttempt retries 1%nat w.

Definition isCalled (s : RetryStep) : bool :=
  match s with Called _ => true | Delayed _ => false end.

Definition isDelayed (s : RetryStep) : bool :=
  match s with Called _ => false | Delayed _ => true end.

(** How often [fn] ran, and how many delays were slept. *)
Definition callCount (steps : list RetryStep) : nat :=
  List.length (filter isCalled steps).

Definition delayCount (steps : list RetryStep) : nat :=
  List.length (filter isDelayed steps).

(** The steps of [k] delayed failures followed by one more call. *)
Fixpoint retrySteps (delays : list Z) (attemptNumber : nat) : list RetryStep :=
  match delays with
  | [] => [Called attemptNumber]
  | d :: ds => Called attemptNumber :: Delayed d :: retrySteps ds (S attemptNumber)
  end.

(** An error as a provider reports it, carrying an HTTP status. *)
Definition httpError (code : Z) : JsError :=
  {| message := "request failed"; status := Some code;
     response_status := None; retry_after := None |}.

(** A closure that fails with status 429 on its first [k] calls and then
    returns [v]. *)
Definition failsThenSucceeds {T : Type} (k : nat) (v : T) : Thunk T :=
  scripted (fun n => if (n <? k)%nat then inl (httpError 429) else inr v).

(** A closure that always fails with the given status. *)
Definition alwaysFails {T : Type} (code : Z) : Thunk T :=
  scripted (fun _ => inl (httpError code)).

(** ** hierarchicalReduce (helper-functions.ts, lines 264-278) *)

(** ['\n\n---\n\n'] *)
Definition LF : string := String (ascii_of_nat 10) EmptyString.
Definition separator : string := LF ++ LF ++ "---" ++ LF ++ LF.

(** [(joined: string) => Promise<string>] *)
Definition Job : Type := string -> World -> (JsError + string) * World.

(** [for (let i = 0; i < texts.length; i += groupSize)
       groups.push(texts.slice(i, i + groupSize))], started at [i].  The
    loop does not end when [groupSize] is [0]; that is [None]. *)
Fixpoint groupsFrom (fuel : nat) (texts : list string) (groupSize i : nat)
  : option (list (list string)) :=
  if (i <? List.length texts)%nat then
    match fuel with
    | O => None
    | S fuel' =>
        match groupsFrom fuel' texts groupSize (i + groupSize) with
        | Some groups => Some (slice i (i + groupSize) texts :: groups)
        | None => None
        end
    end
  else Some [].

Definition groupsOf (texts : list string) (groupSize : nat)
  : option (list (list string)) :=
  groupsFrom (List.length texts) texts groupSize 0.

(** [Promise.all(groups.map((g) => reduceJob(g.join(sep))))]: every job is
    started, in group order; the result keeps that order, and one rejection
    rejects the whole (the first in group order is reported).  The jobs are
    run one after the other here. *)
Fixpoint promiseAllMap (reduceJob : Job) (groups : list (list string))
    (w : World) : (JsError + list string) * World :=
  match groups with
  | [] => (inr [], w)
  | g :: rest =>
      let '(r, w1) := reduceJob (join separator g) w in
      let '(rs, w2) := promiseAllMap reduceJob rest w1 in
      (match r, rs with
       | inl e, _ => inl e
       | inr _, inl e => inl e
       | inr v, inr vs => inr (v :: vs)
       end, w2)
  end.

(** One round: the groups that were handed to [reduceJob], in call order. *)
Definition Round : Type := list (list string).

(** [hierarchicalReduce(texts, reduceJob, groupSize)]; one unit of fuel per
    level of the recursion.  The third component lists the rounds. *)
Fixpoint hierarchicalReduce (fuel : nat) (texts : list string)
    (reduceJob : Job) (groupSize : nat) (w : World)
  : Outcome string * World * list Round :=
  match fuel with
  | O => (Diverged, w, [])
  | S fuel' =>
      if (List.length texts <=? groupSize)%nat then
        let '(r, w1) := reduceJob (join separator texts) w in
        (of_result r, w1, [[texts]])
      else
        match groupsOf texts groupSize with
        | None => (Diverged, w, [])
        | Some groups =>
            match promiseAllMap reduceJob groups w with
            | (inl e, w1) => (Rejected e, w1, [groups])
            | (inr level, w1) =>
                let '(o, w2, rounds) :=
                  hierarchicalReduce fuel' level reduceJob groupSize w1 in
                (o, w2, groups :: rounds)
            end
        end
  end.

(** Number of [reduceJob] calls in a list of rounds, and the group sizes. *)
Definition combineCalls (rounds : list Round) : nat :=
  fold_right (fun r acc => (List.length r + acc)%nat) 0%nat rounds.

Definition shapes (rounds : list Round) : list (list nat) :=
  map (map (@List.length string)) rounds.

(** [Math.ceil(n / g)] on naturals. *)
Definition ceilDiv (n g : nat) : nat := ((n + g - 1) / g)%nat.

(** The jobs of [groups] ran in order from [w], all fulfilled, and [level]
    holds their values in the same order. *)
Inductive Collected (reduceJob : Job)
  : World -> list (list string) -> list string -> World -> Prop :=
| Collected_nil w : Collected reduceJob w [] [] w
| Collected_cons w g v w1 groups level w2 :
    reduceJob (join separator g) w = (inr v, w1) ->
    Collected reduceJob w1 groups level w2 ->
    Collected reduceJob w (g :: groups) (v :: level) w2.


(** The job never rejects. *)
Definition alwaysFulfils (reduceJob : Job) : Prop :=
  forall joined w, exists v w', reduceJob joined w = (inr v, w').

(** A job that always fulfils, wrapping its input in brackets. *)
Definition bracketJob : Job := fun joined w => (inr ("[" ++ joined ++ "]"), w).

Definition emptyWorld : World :=
  {| now := 0;
     tokenTracker := {| usedTokens := 0; windowStart := 0;
                        windowMs := 60000; tokensPerMinute := 1000 |};
     invocations := 0%nat;
     trace := [] |}.

(** ** External collaborators *)

(** [usage_metadata] of a model response; a field that is not a number is
    [None]. *)
Record UsageMetadata := mkUsage {
  input_tokens : option Z;
  output_tokens : option Z;
  total_tokens : option Z
}.

Record Response := mkResponse {
  content : string;
  usage_metadata : option UsageMetadata
}.

(** How one [model.invoke] call settles, and how long it took (the time
    spent in the queue and between retries included). *)
Record ModelReply := mkReply {
  reply_result : JsError + Response;
  reply_elapsed : Z
}.

Record Env := mkEnv {
  mapPrompt_format : string -> string;       (* mapPrompt.format({text}) *)
  combinePrompt_format : string -> string;   (* combinePrompt.format({text}) *)
  countTokens : string -> Z;                 (* countTokens(_, encodingModel) *)
  model_invoke : nat -> string -> Z -> ModelReply
    (* the n-th call overall, its prompt and maxTokens *)
}.

(** [usedTokensFromMessage] (helper-functions.ts, lines 224-239) *)
Definition usedTokensFromMessage (msg : Response) : option Z :=
  match usage_metadata msg with
  | None => None
  | Some usageMetadata =>
      match input_tokens usageMetadata, output_tokens usageMetadata with
      | Some inputTokens, Some outputTokens => Some (inputTokens + outputTokens)
      | _, _ => total_tokens usageMetadata
      end
  end.

(** [used || estWeight]: [null] and [0] are falsy. *)
Definition orElse (used : option Z) (estWeight : Z) : Z :=
  match used with
  | Some 0 => estWeight
  | Some n => n
  | None => estWeight
  end.

Definition isEmpty (s : string) : bool :=
  match s with
  | EmptyString => true
  | String _ _ => false
  end.

(** ** summarizeWithQueue (MapReducer.node.summarize.ts) *)

Record Doc := mkDoc {
  pageContent : string;
  chunk : Z;                (* metadata.chunk *)
  tokenCount : Z            (* metadata.tokenCount *)
}.

(** [await model.invoke(prompt, { maxTokens, temperature })] *)
Definition invokeModel (env : Env) (prompt : string) (maxTokens : Z)
  : Thunk Response :=
  fun w =>
    let r := model_invoke env (invocations w) prompt maxTokens in
    (reply_result r,
     {| now := now w + Z.max 0 (reply_elapsed r);
        tokenTracker := tokenTracker w;
        invocations := S (invocations w);
        trace := trace w ++ [Invoke prompt maxTokens] |}).

(** [queue.add(async () => withRetry(fn))]: the queue starts the job, the
    job runs [fn] under the retry policy with the default [maxRetries],
    and the queue hands on how it settled. *)
Definition queueAdd {T : Type} (fn : Thunk T) : Thunk T :=
  fun w =>
    let '(r, w1, _) := withRetry fn None (emit QueueStart w) in
    (r, emit QueueDone w1).

Definition timeoutNeedle : string := "Token budget timeout".

(** [`Token budget timeout after ${config.TOKEN_BUDGET_TIMEOUT / 1000}
      seconds: need ${estWeight}, have ${tokenTracker.getRemainingTokens()}`];
    [TOKEN_BUDGET_TIMEOUT] is a whole number of seconds times 1000. *)
Definition timeoutMessage (config : SummarizeCfg) (estWeight remaining : Z)
  : string :=
  "Token budget timeout after " ++ showZ (TOKEN_BUDGET_TIMEOUT config / 1000)
  ++ " seconds: need " ++ showZ estWeight ++ ", have " ++ showZ remaining.

(** The polling loop
    [while (!tokenTracker.canUseTokens(estWeight)) {
       if (Date.now() - startTime > timeoutMs) throw new Error(errorMsg);
       logger.info(...); await sleep(3000) }].
    Both branches read [getRemainingTokens()] once for their message.
    [polls] bounds the number of sleeps; with [pollBudget] of them the last
    branch is never taken (lemma [waitForBudget_polls]). *)
Fixpoint waitForBudget (polls : nat) (config : SummarizeCfg)
    (estWeight startTime : Z) (w : World) : (JsError + unit) * World :=
  let '(granted, t1) := canUseTokens estWeight (now w) (tokenTracker w) in
  let w1 := emit (BudgetPoll estWeight granted) (setTracker t1 w) in
  if granted then (inr tt, w1)
  else
    let '(remaining, t2) := getRemainingTokens (now w1) (tokenTracker w1) in
    let w2 := setTracker t2 w1 in
    let timedOut := newError (timeoutMessage config estWeight remaining) in
    if now w2 - startTime >? TOKEN_BUDGET_TIMEOUT config then (inl timedOut, w2)
    else
      match polls with
      | O => (inl timedOut, w2)
      | S polls' =>
          waitForBudget polls' config estWeight startTime (sleep 3000 w2)
      end.

(** Sleeps of 3000 ms that fit before the timeout check must fire. *)
Definition pollBudget (config : SummarizeCfg) : nat :=
  S (Z.to_nat (TOKEN_BUDGET_TIMEOUT config / 3000)).

(** [const startTime = Date.now(); while (...) {...}] *)
Definition awaitBudget (config : SummarizeCfg) (estWeight : Z)
  : Thunk unit :=
  fun w => waitForBudget (pollBudget config) config estWeight (now w) w.

(** The closure handed to [withRetry] in the map phase (lines 121-146). *)
Definition mapCall (env : Env) (config : SummarizeCfg) (doc : Doc)
    (prompt : string) (estWeight : Z) : Thunk string :=
  fun w =>
    match invokeModel env prompt (MAP_OUT_MAX config) w with
    | (inl e, w1) => (inl e, w1)
    | (inr res, w1) =>
        if isEmpty (content res) then
          (inl (newError ("Empty response from model for document "
                          ++ showZ (chunk doc + 1))), w1)
        else
          let actualTokens := orElse (usedTokensFromMessage res) estWeight in
          (inr (trim (content res)),
           setTracker (useTokens actualTokens (now w1) (tokenTracker w1)) w1)
    end.

(** [`MAP operation token estimate (${estWeight}) exceeds TPM limit
      (${config.TOKENS_PER_MINUTE})`] *)
Definition mapEstimateMessage (config : SummarizeCfg) (estWeight : Z) : string :=
  "MAP operation token estimate (" ++ showZ estWeight
  ++ ") exceeds TPM limit (" ++ showZ (TOKENS_PER_MINUTE config) ++ ")".

(** [promptTokens + config.MAP_OUT_MAX] for a document. *)
Definition mapEstimate (env : Env) (config : SummarizeCfg) (doc : Doc) : Z :=
  countTokens env (mapPrompt_format env (pageContent doc)) + MAP_OUT_MAX config.

(** The body of the inner [try] of the map loop (lines 82-153): [inl] is a
    throw, [inr (Some partial)] a partial to push, [inr None] nothing to
    push (no page content, or an empty result). *)
Definition mapBody (env : Env) (config : SummarizeCfg) (doc : Doc)
  : Thunk (option string) :=
  fun w =>
    if isEmpty (pageContent doc) then (inr None, w)
    else
      let prompt := mapPrompt_format env (pageContent doc) in
      let promptTokens := countTokens env prompt in
      let estWeight := promptTokens + MAP_OUT_MAX config in
      if estWeight >? TOKENS_PER_MINUTE config then
        (inl (newError (mapEstimateMessage config estWeight)), w)
      else
        match awaitBudget config estWeight w with
        | (inl e, w1) => (inl e, w1)
        | (inr _, w1) =>
            match queueAdd (mapCall env config doc prompt estWeight) w1 with
            | (inl e, w2) => (inl e, w2)
            | (inr partial, w2) =>
                if isEmpty partial then (inr None, w2)
                else (inr (Some partial), w2)
            end
        end.

(** One iteration of the map loop: the inner [try] with its [catch]
    (lines 79-164).  [inl] leaves the loop with a throw. *)
Definition mapIteration (env : Env) (config : SummarizeCfg) (i : nat)
    (doc : Doc) (partials : list string) (w : World)
  : (JsError + list string) * World :=
  match mapBody env config doc (emit (MapChunk i) w) with
  | (inr (Some partial), w1) =>
      (inr (partials ++ [partial])%list, emit (Push partial) w1)
  | (inr None, w1) => (inr partials, w1)
  | (inl error, w1) =>
      if includes timeoutNeedle (message error) then (inl error, w1)
      else (inr partials, w1)
  end.

(** [for (let i = 0; i < docs.length; i++) {...}], from index [i] on. *)
Fixpoint mapLoop (env : Env) (config : SummarizeCfg) (i : nat)
    (docs : list Doc) (partials : list string) (w : World)
  : (JsError + list string) * World :=
  match docs with
  | [] => (inr partials, w)
  | doc :: rest =>
      match mapIteration env config i doc partials w with
      | (inl e, w1) => (inl e, w1)
      | (inr partials', w1) => mapLoop env config (S i) rest partials' w1
      end
  end.

Definition noneProcessed : string :=
  "No documents were successfully processed in MAP phase".

(** The outer [try] of the map phase (lines 75-177). *)
Definition mapPhase (env : Env) (config : SummarizeCfg) (docs : list Doc)
    (w : World) : (JsError + list string) * World :=
  match mapLoop env config 0 docs [] w with
  | (inl e, w1) => (inl (newError ("MAP phase failed: " ++ message e)), w1)
  | (inr [], w1) =>
      (inl (newError ("MAP phase failed: " ++ noneProcessed)), w1)
  | (inr partials, w1) => (inr partials, w1)
  end.

(** [`REDUCE operation token estimate (${estWeight}) exceeds TPM limit
      (${config.TOKENS_PER_MINUTE}). Consider reducing REDUCE_OUT_MAX or
      input size.`] *)
Definition reduceEstimateMessage (config : SummarizeCfg) (estWeight : Z)
  : string :=
  "REDUCE operation token estimate (" ++ showZ estWeight
  ++ ") exceeds TPM limit (" ++ showZ (TOKENS_PER_MINUTE config)
  ++ "). Consider reducing REDUCE_OUT_MAX or input size.".

(** The closure handed to [withRetry] in the reduce phase (lines 219-241). *)
Definition reduceCall (env : Env) (config : SummarizeCfg)
    (prompt : string) (estWeight : Z) : Thunk string :=
  fun w =>
    match invokeModel env prompt (REDUCE_OUT_MAX config) w with
    | (inl e, w1) => (inl e, w1)
    | (inr res, w1) =>
        if isEmpty (content res) then
          (inl (newError "Empty response from model during reduce operation"),
           w1)
        else
          let actualTokens := orElse (usedTokensFromMessage res) estWeight in
          (inr (trim (content res)),
           setTracker (useTokens actualTokens (now w1) (tokenTracker w1)) w1)
    end.

(** [reduceJob] (lines 181-249). *)
Definition reduceJob (env : Env) (config : SummarizeCfg) : Job :=
  fun joined w0 =>
    let w := emit (Reduce joined) w0 in
    if isEmpty (trim joined) then
      (inl (newError "Empty text provided for reduce operation"), w)
    else
      let prompt := combinePrompt_format env joined in
      let promptTokens := countTokens env prompt in
      let estWeight := promptTokens + REDUCE_OUT_MAX config in
      if estWeight >? TOKENS_PER_MINUTE config then
        (inl (newError (reduceEstimateMessage config estWeight)), w)
      else
        let wrap (e : JsError) :=
          newError ("Reduce operation failed: " ++ message e) in
        match awaitBudget config estWeight w with
        | (inl e, w1) => (inl (wrap e), w1)
        | (inr _, w1) =>
            match queueAdd (reduceCall env config prompt estWeight) w1 with
            | (inl e, w2) => (inl (wrap e), w2)
            | (inr v, w2) => (inr v, w2)
            end
        end.

(** The [try] of the reduce phase (lines 180-265). *)
Definition reducePhase (env : Env) (config : SummarizeCfg) (fuel : nat)
    (partials : list string) (w : World) : Outcome string * World :=
  let '(o, w1, _) :=
    hierarchicalReduce fuel partials (reduceJob env config)
      (HIERARCHY_GROUP_SIZE config) w in
  let wrap (msg : string) := Rejected (newError ("REDUCE phase failed: " ++ msg)) in
  match o with
  | Resolved final =>
      if isEmpty (trim final)
      then (wrap "Hierarchical reduce returned empty result", w1)
      else (Resolved (trim final), w1)
  | Rejected e => (wrap (message e), w1)
  | Diverged => (Diverged, w1)
  end.

(** [makeQueue(config)] (helper-functions.ts, lines 140-149): a fresh
    tracker whose window starts now.  Here the queue is represented by the
    [QueueStart] and [QueueDone] events of [queueAdd]; the queue itself,
    with its caps, is [newPQueue] in the section on the event loop. *)
Definition makeQueue (config : SummarizeCfg) (w : World) : World :=
  setTracker (newTracker config (now w)) w.

(** [summarizeWithQueue(ctx, docs, model, mapPrompt, combinePrompt)] with
    the configuration [getNodeProperties] returned.  [fuel] bounds the
    rounds of the reduce phase. *)
Definition summarizeWithQueue (env : Env) (config : SummarizeCfg)
    (fuel : nat) (docs : list Doc) (w0 : World) : Outcome string * World :=
  match docs with
  | [] => (Rejected (newError "No documents provided for summarization"), w0)
  | _ :: _ =>
      let w := makeQueue config w0 in
      match mapPhase env config docs w with
      | (inl e, w1) => (Rejected e, w1)
      | (inr partials, w1) => reducePhase env config fuel partials w1
      end
  end.

(** The same function from its first line.  After the check of [docs]
    (line 59) come [getNodeProperties(executeFunctionsContext)] (line 63)
    and [makeQueue(config)] (line 72), both outside the two [try] blocks:
    what they throw is the rejection of the run, with no prefix, before
    anything else has happened.  [properties] is how the first call ends, a
    configuration it returns being the one of the run; [queueThrows
    config] is what the constructor of the queue throws for that
    configuration, if it throws. *)
Definition summarizeWithQueue_call (env : Env)
    (properties : JsError + SummarizeCfg)
    (queueThrows : SummarizeCfg -> option JsError)
    (fuel : nat) (docs : list Doc) (w0 : World) : Outcome string * World :=
  match docs with
  | [] => (Rejected (newError "No documents provided for summarization"), w0)
  | _ :: _ =>
      match properties with
      | inl e => (Rejected e, w0)
      | inr config =>
          match queueThrows config with
          | Some e => (Rejected e, w0)
          | None => summarizeWithQueue env config fuel docs w0
          end
      end
  end.

(** ** Reading a trace *)

Definition isInvoke (ev : Event) : bool :=
  match ev with Invoke _ _ => true | _ => false end.

Definition isPoll (ev : Event) : bool :=
  match ev with BudgetPoll _ _ => true | _ => false end.

(** The partials pushed, each with the index of the loop iteration that
    pushed it; [cur] is the iteration running when the trace starts. *)
Fixpoint pushedBy (cur : nat) (evs : list Event) : list (nat * string) :=
  match evs with
  | [] => []
  | MapChunk i :: rest => pushedBy i rest
  | Push partial :: rest => (cur, partial) :: pushedBy cur rest
  | _ :: rest => pushedBy cur rest
  end.

(** The loop iterations entered, in trace order. *)
Fixpoint chunksOf (evs : list Event) : list nat :=
  match evs with
  | [] => []
  | MapChunk i :: rest => i :: chunksOf rest
  | _ :: rest => chunksOf rest
  end.

(** One job at a time: a queue job starts only when none is running, the
    model is invoked only inside a job, and the loop enters an iteration,
    polls the budget and pushes only while no job is running.  The result
    is whether a job is running at the end, [None] on a violation. *)
Fixpoint serialFrom (running : bool) (evs : list Event) : option bool :=
  match evs with
  | [] => Some running
  | ev :: rest =>
      match ev, running with
      | QueueStart, false => serialFrom true rest
      | QueueDone, true => serialFrom false rest
      | Invoke _ _, true => serialFrom true rest
      | MapChunk _, false => serialFrom false rest
      | BudgetPoll _ _, false => serialFrom false rest
      | Push _, false => serialFrom false rest
      | _, _ => None
      end
  end.

(** ** A small scenario *)

(** A tokenizer that counts 5 tokens, or 1490 for a text marked HUGE; a
    model that answers status 500 to a prompt marked FAIL, reports 990 used
    tokens for one marked COSTLY, and otherwise echoes the prompt. *)
Definition demoEnv : Env :=
  {| mapPrompt_format := fun text => "map: " ++ text;
     combinePrompt_format := fun text => "combine: " ++ text;
     countTokens := fun text => if includes "HUGE" text then 1490 else 5;
     model_invoke := fun _ prompt _ =>
       if includes "FAIL" prompt then
         {| reply_result := inl (httpError 500); reply_elapsed := 10 |}
       else
         {| reply_result :=
              inr {| content := "<" ++ prompt ++ ">";
                     usage_metadata :=
                       if includes "COSTLY" prompt
                       then Some {| input_tokens := None;
                                    output_tokens := None;
                                    total_tokens := Some 990 |}
                       else None |};
            reply_elapsed := 10 |} |}.

(** 1000 tokens per minute, a budget timeout of 6 s, groups of two. *)
Definition demoCfg : SummarizeCfg :=
  {| TOKENS_PER_MINUTE := 1000;
     TOKEN_BUDGET_TIMEOUT := 6000;
     REQUESTS_PER_MINUTE := 60;
     QUEUE_INTERVAL := 60000;
     QUEUE_CONCURRENCY := 4;
     TOKEN_BUDGET_WINDOWS := 60000;
     MAP_OUT_MAX := 10;
     REDUCE_OUT_MAX := 10;
     HIERARCHY_GROUP_SIZE := 2 |}.

Definition demoDoc (i : Z) (text : string) : Doc :=
  {| pageContent := text; chunk := i; tokenCount := 5 |}.

(** [c] is one of the characters of [s]. *)
Fixpoint occursIn (c : ascii) (s : string) : bool :=
  match s with
  | EmptyString => false
  | String a s' => Ascii.eqb c a || occursIn c s'
  end.

(** The map loop ran over [docs] from iteration [i] without leaving by a
    throw, and [new] lists, in order, the partials of the documents whose
    body returned one; a body that returned nothing or threw an error
    other than a budget timeout contributes none. *)
Inductive MapRun (env : Env) (config : SummarizeCfg)
  : nat -> list Doc -> World -> list string -> World -> Prop :=
| MapRun_done i w : MapRun env config i [] w [] w
| MapRun_success i doc rest w partial w1 new w2 :
    mapBody env config doc (emit (MapChunk i) w) = (inr (Some partial), w1) ->
    MapRun env config (S i) rest (emit (Push partial) w1) new w2 ->
    MapRun env config i (doc :: rest) w (partial :: new) w2
| MapRun_nothing i doc rest w w1 new w2 :
    mapBody env config doc (emit (MapChunk i) w) = (inr None, w1) ->
    MapRun env config (S i) rest w1 new w2 ->
    MapRun env config i (doc :: rest) w new w2
| MapRun_skip i doc rest w e w1 new w2 :
    mapBody env config doc (emit (MapChunk i) w) = (inl e, w1) ->
    includes timeoutNeedle (message e) = false ->
    MapRun env config (S i) rest w1 new w2 ->
    MapRun env config i (doc :: rest) w new w2.

(** [new] lists, in the order of [docs], one partial for some of the
    documents: each is the trimmed, non-empty content of the reply the
    model gave to the map prompt of its document, and the replies are those
    to calls number [n] with [lo <= n < hi], taken in increasing order. *)
Inductive PartialsOf (env : Env) (config : SummarizeCfg)
  : nat -> nat -> list Doc -> list string -> Prop :=
| PartialsOf_nil lo hi :
    (lo <= hi)%nat -> PartialsOf env config lo hi [] []
| PartialsOf_skip lo mid hi doc docs new :
    (lo <= mid)%nat ->
    PartialsOf env config mid hi docs new ->
    PartialsOf env config lo hi (doc :: docs) new
| PartialsOf_keep lo n hi doc docs new res :
    (lo <= n)%nat ->
    reply_result (model_invoke env n (mapPrompt_format env (pageContent doc))
                    (MAP_OUT_MAX config)) = inr res ->
    trim (content res) <> "" ->
    PartialsOf env config (S n) hi docs new ->
    PartialsOf env config lo hi (doc :: docs) (trim (content res) :: new).

(** Events that are neither an iteration marker nor a push. *)
Definition plain (ev : Event) : bool :=
  match ev with
  | MapChunk _ | Push _ => false
  | _ => true
  end.

(** What the body of one map iteration can add to the trace: budget polls,
    then possibly one queue job made of model calls. *)
Definition BodyTrace (d : list Event) : Prop :=
  exists polled,
    forallb isPoll polled = true
    /\ (d = polled
        \/ exists invoked,
             forallb isInvoke invoked = true
             /\ d = (polled ++ QueueStart :: invoked ++ [QueueDone])%list).

(** ** getNodeProperties (getNodeProperties.ts) *)

Module Node.

(** A numeric parameter as [context.getNodeParameter(name, 0)] gives it.
    The node declares plain [number] fields without expressions, so any
    finite number can be entered, fractions and negative numbers included;
    a field can also be left without a value ([undefined], which is falsy
    and makes every comparison [false], as [NaN] does). *)
Definition Number : Type := option Q.

(** [!x] *)
Definition falsy (x : Number) : bool :=
  match x with
  | None => true
  | Some q => Qeq_bool q 0
  end.

(** [x <= 0] *)
Definition leZero (x : Number) : bool :=
  match x with
  | None => false
  | Some q => Qle_bool q 0
  end.

(** [x < 0] *)
Definition ltZero (x : Number) : bool :=
  match x with
  | None => false
  | Some q => negb (Qle_bool 0 q)
  end.

(** [x > 2] *)
Definition gtTwo (x : Number) : bool :=
  match x with
  | None => false
  | Some q => negb (Qle_bool q 2)
  end.

(** [x * 1000] *)
Definition times1000 (x : Number) : Number :=
  match x with
  | None => None
  | Some q => Some (q * 1000)%Q
  end.

(** What [context.getNodeParameter] gives for each parameter; a string
    that is missing is the empty string. *)
Record Parameters := mkParameters {
  p_encodingModel : string;
  p_mapPrompt : string;
  p_combinePrompt : string;
  p_TOKENS_PER_MINUTE : Number;
  p_TOKEN_BUDGET_TIMEOUT : Number;     (* seconds *)
  p_REQUESTS_PER_MINUTE : Number;
  p_QUEUE_INTERVAL : Number;           (* seconds *)
  p_QUEUE_CONCURRENCY : Number;
  p_TOKEN_BUDGET_WINDOWS : Number;     (* seconds *)
  p_MAP_OUT_MAX : Number;
  p_REDUCE_OUT_MAX : Number;
  p_CHUNK_TOKENS : Number;
  p_CHUNK_OVERLAP : Number;
  p_HIERARCHY_GROUP_SIZE : Number;
  p_TEMPERATURE : Number
}.

(** The interface [SummarizeCfg], as [getNodeProperties] fills it. *)
Record SummarizeCfg := mkSummarizeCfg {
  TOKENS_PER_MINUTE : Number;
  TOKEN_BUDGET_TIMEOUT : Number;       (* milliseconds *)
  REQUESTS_PER_MINUTE : Number;
  QUEUE_INTERVAL : Number;             (* milliseconds *)
  QUEUE_CONCURRENCY : Number;
  TOKEN_BUDGET_WINDOWS : Number;       (* milliseconds *)
  MAP_OUT_MAX : Number;
  REDUCE_OUT_MAX : Number;
  CHUNK_TOKENS : Number;
  CHUNK_OVERLAP : Number;
  HIERARCHY_GROUP_SIZE : Number;
  TEMPERATURE : Number
}.

(** The value [getNodeProperties] returns. *)
Record Properties := mkProperties {
  encodingModel : string;
  mapPromptProperties : string;
  combinePromptProperties : string;
  summarizeCfg : SummarizeCfg
}.

(** [throw new NodeOperationError(context.getNode(), msg)] *)
Definition nodeOperationError {A : Type} (msg : string) : JsError + A :=
  inl (newError msg).

Definition mustBePositive (name : string) : string :=
  name ++ " is required and must be greater than 0".

(** [!x || x <= 0] *)
Definition missingOrNotPositive (x : Number) : bool := falsy x || leZero x.

(** [getNodeProperties(context)].  [trimsToEmpty s] is
    [s.trim() === ''], with the [trim] of the JavaScript engine. *)
Definition getNodeProperties (trimsToEmpty : string -> bool) (p : Parameters)
  : JsError + Properties :=
  if isEmpty (p_encodingModel p) then
    nodeOperationError "Encoding model is required but not provided"
  else if isEmpty (p_mapPrompt p) || trimsToEmpty (p_mapPrompt p) then
    nodeOperationError "Map prompt is required but not provided"
  else if isEmpty (p_combinePrompt p) || trimsToEmpty (p_combinePrompt p) then
    nodeOperationError "Combine prompt is required but not provided"
  else if missingOrNotPositive (p_TOKENS_PER_MINUTE p) then
    nodeOperationError (mustBePositive "TOKENS_PER_MINUTE")
  else if missingOrNotPositive (p_TOKEN_BUDGET_TIMEOUT p) then
    nodeOperationError (mustBePositive "TOKEN_BUDGET_TIMEOUT")
  else if missingOrNotPositive (p_REQUESTS_PER_MINUTE p) then
    nodeOperationError (mustBePositive "REQUESTS_PER_MINUTE")
  else if missingOrNotPositive (p_QUEUE_INTERVAL p) then
    nodeOperationError (mustBePositive "QUEUE_INTERVAL")
  else if missingOrNotPositive (p_QUEUE_CONCURRENCY p) then
    nodeOperationError (mustBePositive "QUEUE_CONCURRENCY")
  else if missingOrNotPositive (p_TOKEN_BUDGET_WINDOWS p) then
    nodeOperationError (mustBePositive "TOKEN_BUDGET_WINDOWS")
  else if missingOrNotPositive (p_MAP_OUT_MAX p) then
    nodeOperationError (mustBePositive "MAP_OUT_MAX")
  else if missingOrNotPositive (p_REDUCE_OUT_MAX p) then
    nodeOperationError (mustBePositive "REDUCE_OUT_MAX")
  else if missingOrNotPositive (p_CHUNK_TOKENS p) then
    nodeOperationError (mustBePositive "CHUNK_TOKENS")
  else if ltZero (p_CHUNK_OVERLAP p) then
    nodeOperationError "CHUNK_OVERLAP must be greater than or equal to 0"
  else if missingOrNotPositive (p_HIERARCHY_GROUP_SIZE p) then
    nodeOperationError (mustBePositive "HIERARCHY_GROUP_SIZE")
  else if ltZero (p_TEMPERATURE p) || gtTwo (p_TEMPERATURE p) then
    nodeOperationError "TEMPERATURE must be between 0 and 2"
  else
    inr {| encodingModel := p_encodingModel p;
           mapPromptProperties := p_mapPrompt p;
           combinePromptProperties := p_combinePrompt p;
           summarizeCfg :=
             {| TOKENS_PER_MINUTE := p_TOKENS_PER_MINUTE p;
                TOKEN_BUDGET_TIMEOUT := times1000 (p_TOKEN_BUDGET_TIMEOUT p);
                REQUESTS_PER_MINUTE := p_REQUESTS_PER_MINUTE p;
                QUEUE_INTERVAL := times1000 (p_QUEUE_INTERVAL p);
                QUEUE_CONCURRENCY := p_QUEUE_CONCURRENCY p;
                TOKEN_BUDGET_WINDOWS := times1000 (p_TOKEN_BUDGET_WINDOWS p);
                MAP_OUT_MAX := p_MAP_OUT_MAX p;
                REDUCE_OUT_MAX := p_REDUCE_OUT_MAX p;
                CHUNK_TOKENS := p_CHUNK_TOKENS p;
                CHUNK_OVERLAP := p_CHUNK_OVERLAP p;
                HIERARCHY_GROUP_SIZE := p_HIERARCHY_GROUP_SIZE p;
                TEMPERATURE := p_TEMPERATURE p |} |}.

(** A number greater than 0. *)
Definition positive (x : Number) : Prop :=
  exists q, x = Some q /\ (0 < q)%Q.

(** A string with something left after trimming. *)
Definition notBlank (trimsToEmpty : string -> bool) (s : string) : Prop :=
  s <> "" /\ trimsToEmpty s = false.

(** Every parameter passes its check.  The overlap and the temperature
    pass when they have no value. *)
Definition validParameters (trimsToEmpty : string -> bool) (p : Parameters)
  : Prop :=
  p_encodingModel p <> ""
  /\ notBlank trimsToEmpty (p_mapPrompt p)
  /\ notBlank trimsToEmpty (p_combinePrompt p)
  /\ positive (p_TOKENS_PER_MINUTE p)
  /\ positive (p_TOKEN_BUDGET_TIMEOUT p)
  /\ positive (p_REQUESTS_PER_MINUTE p)
  /\ positive (p_QUEUE_INTERVAL p)
  /\ positive (p_QUEUE_CONCURRENCY p)
  /\ positive (p_TOKEN_BUDGET_WINDOWS p)
  /\ positive (p_MAP_OUT_MAX p)
  /\ positive (p_REDUCE_OUT_MAX p)
  /\ positive (p_CHUNK_TOKENS p)
  /\ (forall q, p_CHUNK_OVERLAP p = Some q -> (0 <= q)%Q)
  /\ positive (p_HIERARCHY_GROUP_SIZE p)
  /\ (forall q, p_TEMPERATURE p = Some q -> (0 <= q)%Q /\ (q <= 2)%Q).

(** The whole number [n]. *)
Definition whole (n : Z) : Number := Some (inject_Z n).

(** The whole number a parameter stands for, if it stands for one. *)
Definition toZ (x : Number) : option Z :=
  match x with
  | None => None
  | Some q =>
      if (Qnum q mod Zpos (Qden q) =? 0)%Z
      then Some (Qnum q / Zpos (Qden q))%Z
      else None
  end.

End Node.

(** The configuration the orchestrator runs with, when the numbers it reads
    of the one [getNodeProperties] returned are whole. *)
Definition wholeCfg (c : Node.SummarizeCfg) : option SummarizeCfg :=
  match Node.toZ (Node.TOKENS_PER_MINUTE c),
        Node.toZ (Node.TOKEN_BUDGET_TIMEOUT c),
        Node.toZ (Node.REQUESTS_PER_MINUTE c),
        Node.toZ (Node.QUEUE_INTERVAL c),
        Node.toZ (Node.QUEUE_CONCURRENCY c),
        Node.toZ (Node.TOKEN_BUDGET_WINDOWS c),
        Node.toZ (Node.MAP_OUT_MAX c),
        Node.toZ (Node.REDUCE_OUT_MAX c),
        Node.toZ (Node.HIERARCHY_GROUP_SIZE c) with
  | Some tpm, Some timeout, Some rpm, Some interval, Some concurrency,
    Some window, Some mapOut, Some reduceOut, Some groupSize =>
      Some {| TOKENS_PER_MINUTE := tpm;
              TOKEN_BUDGET_TIMEOUT := timeout;
              REQUESTS_PER_MINUTE := rpm;
              QUEUE_INTERVAL := interval;
              QUEUE_CONCURRENCY := concurrency;
              TOKEN_BUDGET_WINDOWS := window;
              MAP_OUT_MAX := mapOut;
              REDUCE_OUT_MAX := reduceOut;
              HIERARCHY_GROUP_SIZE := Z.to_nat groupSize |}
  | _, _, _, _, _, _, _, _, _ => None
  end.


(** The parameters a new node has, with a given prompt for both phases. *)
Definition defaultParameters (prompt : string) : Node.Parameters :=
  {| Node.p_encodingModel := "o200k";
     Node.p_mapPrompt := prompt;
     Node.p_combinePrompt := prompt;
     Node.p_TOKENS_PER_MINUTE := Node.whole 50000;
     Node.p_TOKEN_BUDGET_TIMEOUT := Node.whole 180;
     Node.p_REQUESTS_PER_MINUTE := Node.whole 50;
     Node.p_QUEUE_INTERVAL := Node.whole 60;
     Node.p_QUEUE_CONCURRENCY := Node.whole 5;
     Node.p_TOKEN_BUDGET_WINDOWS := Node.whole 60;
     Node.p_MAP_OUT_MAX := Node.whole 25000;
     Node.p_REDUCE_OUT_MAX := Node.whole 35000;
     Node.p_CHUNK_TOKENS := Node.whole 18000;
     Node.p_CHUNK_OVERLAP := Node.whole 500;
     Node.p_HIERARCHY_GROUP_SIZE := Node.whole 2;
     Node.p_TEMPERATURE := Some (2 # 10)%Q |}.

(** ** getChatModel (getChatModel.ts) *)

(** [ctx.getInputConnectionData(...)] gives an array of models or one
    value (possibly [undefined]). *)
Definition getChatModel {M : Type} (connectedModels : list M + option M)
    (index : nat) : option M :=
  match connectedModels with
  | inl models =>
      if (List.length models <=? index)%nat then None
      else nth_error (rev models) index
  | inr model => model
  end.

(** ** docsFromPlainText (helper-functions.ts, second version) *)

(** [chunks.map((chunk, index) => ...)] with the index counted from [i]. *)
Fixpoint mapWithIndex {A B : Type} (f : A -> nat -> B) (i : nat)
    (l : list A) : list B :=
  match l with
  | [] => []
  | x :: rest => f x i :: mapWithIndex f (S i) rest
  end.

(** What [docsFromPlainText] reads of the value [getNodeProperties]
    returns.  The two numbers go to the splitter as they are; [Number] is
    what they range over. *)
Record ChunkProperties (Number : Type) := mkChunkProperties {
  CHUNK_TOKENS : Number;        (* SummarizeCfg.CHUNK_TOKENS *)
  CHUNK_OVERLAP : Number;       (* SummarizeCfg.CHUNK_OVERLAP *)
  encodingModel : string
}.

Arguments CHUNK_TOKENS {Number} _.
Arguments CHUNK_OVERLAP {Number} _.
Arguments encodingModel {Number} _.

(** [docsFromPlainText.call(ctx, longText)].  [properties] is how
    [getNodeProperties(this)] ends.  [newSplitter chunkSize chunkOverlap
    lengthFunction] is [new RecursiveCharacterTextSplitter({...})], which
    can throw (it does for an overlap that is not smaller than the chunk
    size); what it returns is the [splitText] of the splitter, which can
    reject.  [count text encodingModel] is the tokenizer.  Nothing is
    caught. *)
Definition docsFromPlainText {Number : Type}
    (properties : JsError + ChunkProperties Number)
    (newSplitter : Number -> Number -> (string -> Z)
                   -> JsError + (string -> JsError + list string))
    (count : string -> string -> Z) (longText : string)
  : JsError + list Doc :=
  match properties with
  | inl e => inl e
  | inr props =>
      match newSplitter (CHUNK_TOKENS props) (CHUNK_OVERLAP props)
              (fun s => count s (encodingModel props)) with
      | inl e => inl e
      | inr splitText =>
          match splitText longText with
          | inl e => inl e
          | inr chunks =>
              inr (mapWithIndex
                     (fun chunk index =>
                        {| pageContent := chunk;
                           chunk := Z.of_nat index;
                           tokenCount := count chunk (encodingModel props) |})
                     0%nat chunks)
          end
      end
  end.

(** ** Invariants and scenarios for the run *)

(** The tracker of the world is the one [makeQueue] made for [config], and
    its window did not start in the future. *)
Definition trackerOf (config : SummarizeCfg) (w : World) : Prop :=
  windowMs (tokenTracker w) = TOKEN_BUDGET_WINDOWS config
  /\ tokensPerMinute (tokenTracker w) = TOKENS_PER_MINUTE config
  /\ windowStart (tokenTracker w) <= now w.

(** No error the model reports has a message that contains the needle of
    the budget timeout. *)
Definition modelErrorsPlain (env : Env) : Prop :=
  forall n prompt maxTokens e,
    reply_result (model_invoke env n prompt maxTokens) = inl e ->
    includes timeoutNeedle (message e) = false.

(** A thunk fails on every call, with a status that is retried. *)
Definition alwaysRetryable {T : Type} (fn : Thunk T) : Prop :=
  forall w, exists e w',
    fn w = (inl e, w')
    /\ (errorStatus e = Some 429
        \/ exists s, errorStatus e = Some s /\ 500 <= s).

(** As [demoCfg], with a budget timeout as long as the budget window. *)
Definition patientCfg : SummarizeCfg :=
  {| TOKENS_PER_MINUTE := 1000;
     TOKEN_BUDGET_TIMEOUT := 60000;
     REQUESTS_PER_MINUTE := 60;
     QUEUE_INTERVAL := 60000;
     QUEUE_CONCURRENCY := 4;
     TOKEN_BUDGET_WINDOWS := 60000;
     MAP_OUT_MAX := 10;
     REDUCE_OUT_MAX := 10;
     HIERARCHY_GROUP_SIZE := 2 |}.

(** [s] has a character that [trim] keeps. *)
Fixpoint hasInk (s : string) : bool :=
  match s with
  | EmptyString => false
  | String c s' => negb (isSpace c) || hasInk s'
  end.

(** As [demoEnv], but the model rejects a prompt marked FAIL with status
    400 and a message that happens to contain the wording of the budget
    timeout. *)
Definition wordyEnv : Env :=
  {| mapPrompt_format := mapPrompt_format demoEnv;
     combinePrompt_format := combinePrompt_format demoEnv;
     countTokens := countTokens demoEnv;
     model_invoke := fun n prompt maxTokens =>
       if includes "FAIL" prompt then
         {| reply_result :=
              inl {| message := "upstream said: Token budget timeout";
                     status := Some 400;
                     response_status := None;
                     retry_after := None |};
            reply_elapsed := 10 |}
       else model_invoke demoEnv n prompt maxTokens |}.

(** As [wordyEnv], but with status 500, which is retried. *)
Definition quotingEnv : Env :=
  {| mapPrompt_format := mapPrompt_format demoEnv;
     combinePrompt_format := combinePrompt_format demoEnv;
     countTokens := countTokens demoEnv;
     model_invoke := fun n prompt maxTokens =>
       if includes "FAIL" prompt then
         {| reply_result :=
              inl {| message := "upstream said: Token budget timeout";
                     status := Some 500;
                     response_status := None;
                     retry_after := None |};
            reply_elapsed := 10 |}
       else model_invoke demoEnv n prompt maxTokens |}.

(** As [demoEnv], but the model rejects every prompt of the reduce phase
    with status 400. *)
Definition combineFailEnv : Env :=
  {| mapPrompt_format := mapPrompt_format demoEnv;
     combinePrompt_format := combinePrompt_format demoEnv;
     countTokens := countTokens demoEnv;
     model_invoke := fun n prompt maxTokens =>
       if includes "combine:" prompt then
         {| reply_result := inl (httpError 400); reply_elapsed := 10 |}
       else model_invoke demoEnv n prompt maxTokens |}.

(** ** The event loop and the queue *)

(** The definitions above run an [async] function from its first line to
    its last, every [await] being sequencing.  Below, the same code runs on
    the event loop: a function runs until its next [await], is suspended
    there, and goes on in a later turn, when what it awaits has settled;
    between two of its turns other functions and the queue take theirs. *)

(** *** The queue of [makeQueue] *)

(** Modelled from the library's contract: [PQueue] of the p-queue package
    (a dependency, not part of the sources).  A queue made by [new
    PQueue({concurrency, interval, intervalCap})] starts the jobs handed to
    [add] in the order they came; it starts a job only while fewer than
    [concurrency] jobs are running and fewer than [intervalCap] jobs have
    been started in the current interval of [interval] milliseconds. *)
Record PQueue (J : Type) := mkPQueue {
  concurrency : Z;
  interval : Z;
  intervalCap : Z;
  waitingJobs : list J;      (* added and not started, oldest first *)
  runningJobs : list J;      (* started and not settled *)
  intervalCount : Z;         (* jobs started in the current interval *)
  intervalEnd : Z            (* when the current interval ends *)
}.

Arguments mkPQueue {J} _ _ _ _ _ _ _.
Arguments concurrency {J} _.
Arguments interval {J} _.
Arguments intervalCap {J} _.
Arguments waitingJobs {J} _.
Arguments runningJobs {J} _.
Arguments intervalCount {J} _.
Arguments intervalEnd {J} _.

(** The queue of [makeQueue(config)] (helper-functions.ts, lines 140-149):
    [new PQueue({concurrency: config.QUEUE_CONCURRENCY, interval:
    config.QUEUE_INTERVAL, intervalCap: config.REQUESTS_PER_MINUTE})], made
    at time [now].  (The constructor throws for a [concurrency] or an
    [intervalCap] below 1; a queue with such a cap starts no job here.) *)
Definition newPQueue {J : Type} (config : SummarizeCfg) (now : Z) : PQueue J :=
  {| concurrency := QUEUE_CONCURRENCY config;
     interval := QUEUE_INTERVAL config;
     intervalCap := REQUESTS_PER_MINUTE config;
     waitingJobs := [];
     runningJobs := [];
     intervalCount := 0;
     intervalEnd := now + QUEUE_INTERVAL config |}.

(** [queue.add(job)]: the job joins the end of the line. *)
Definition addJob {J : Type} (job : J) (q : PQueue J) : PQueue J :=
  {| concurrency := concurrency q;
     interval := interval q;
     intervalCap := intervalCap q;
     waitingJobs := (waitingJobs q ++ [job])%list;
     runningJobs := runningJobs q;
     intervalCount := intervalCount q;
     intervalEnd := intervalEnd q |}.

(** Both caps leave room for one more job. *)
Definition hasRoom {J : Type} (q : PQueue J) : bool :=
  (Z.of_nat (List.length (runningJobs q)) <? concurrency q)
  && (intervalCount q <? intervalCap q).

(** The queue starts the oldest waiting job, if there is one and there is
    room for it. *)
Definition startJob {J : Type} (q : PQueue J) : option (J * PQueue J) :=
  match waitingJobs q with
  | [] => None
  | job :: rest =>
      if hasRoom q then
        Some (job,
              {| concurrency := concurrency q;
                 interval := interval q;
                 intervalCap := intervalCap q;
                 waitingJobs := rest;
                 runningJobs := (runningJobs q ++ [job])%list;
                 intervalCount := intervalCount q + 1;
                 intervalEnd := intervalEnd q |})
      else None
  end.

(** The k-th element of a list, and the list without it. *)
Fixpoint takeNth {A : Type} (k : nat) (l : list A) : option (A * list A) :=
  match l, k with
  | [], _ => None
  | a :: rest, O => Some (a, rest)
  | a :: rest, S k' =>
      match takeNth k' rest with
      | Some (x, rest') => Some (x, a :: rest')
      | None => None
      end
  end.

(** The k-th running job has settled and leaves the queue. *)
Definition settleJob {J : Type} (k : nat) (q : PQueue J)
  : option (J * PQueue J) :=
  match takeNth k (runningJobs q) with
  | None => None
  | Some (job, rest) =>
      Some (job,
            {| concurrency := concurrency q;
               interval := interval q;
               intervalCap := intervalCap q;
               waitingJobs := waitingJobs q;
               runningJobs := rest;
               intervalCount := intervalCount q;
               intervalEnd := intervalEnd q |})
  end.

(** The current interval ends at time [now]: the count of started jobs
    starts again. *)
Definition onInterval {J : Type} (now : Z) (q : PQueue J) : PQueue J :=
  {| concurrency := concurrency q;
     interval := interval q;
     intervalCap := intervalCap q;
     waitingJobs := waitingJobs q;
     runningJobs := runningJobs q;
     intervalCount := 0;
     intervalEnd := now + interval q |}.

(** *** Suspended functions and the turns of the loop *)

(** [l] with [x] at position [n]. *)
Fixpoint setNth {A : Type} (n : nat) (x : A) (l : list A) : list A :=
  match l, n with
  | [], _ => []
  | _ :: rest, O => x :: rest
  | a :: rest, S n' => a :: setNth n' x rest
  end.

(** Time passes until [t], if it has not yet. *)
Definition passTo (t : Z) (w : World) : World :=
  {| now := Z.max (now w) t; tokenTracker := tokenTracker w;
     invocations := invocations w; trace := trace w |}.

Section EventLoop.

(** [WakeFrame] and [QueueFrame] say where a function goes on after an
    [await] that yields no value, and after [await queue.add(job)]; [R] is
    what the function returns. *)
Variables WakeFrame QueueFrame R : Type.

(** An [async] function between two turns: settled, or suspended at an
    [await]. *)
Inductive Susp : Type :=
| Done (r : JsError + R)                        (* it has settled *)
| Tick (k : WakeFrame)                          (* await of a settled promise *)
| Timer (ms : Z) (k : WakeFrame)                (* await ... setTimeout(resolve, ms) *)
| Queued (job : Thunk string) (k : QueueFrame). (* await queue.add(job) *)

(** How the functions go on: each runs to its next [await]. *)
Variable wake : WakeFrame -> World -> Susp * World.
Variable settled : QueueFrame -> JsError + string -> World -> Susp * World.

(** The functions in flight (each can have one job in the queue, which
    carries the function's position in [tasks]), the queue and the
    world. *)
Record Loop := mkLoop {
  world : World;
  queue : PQueue (nat * Thunk string);
  tasks : list Susp
}.

(** A function that reaches [await queue.add(job)] has called
    [queue.add(job)]. *)
Definition enqueue (n : nat) (s : Susp) (q : PQueue (nat * Thunk string))
  : PQueue (nat * Thunk string) :=
  match s with
  | Queued job _ => addJob (n, job) q
  | _ => q
  end.

(** A function is called: it has run to [s] and left the world [w]. *)
Definition spawn (sw : Susp * World) (l : Loop) : Loop :=
  {| world := snd sw;
     queue := enqueue (List.length (tasks l)) (fst sw) (queue l);
     tasks := (tasks l ++ [fst sw])%list |}.

(** Function [n] has gone on: it has run to [s] and left the world [w]. *)
Definition suspend (n : nat) (sw : Susp * World) (l : Loop) : Loop :=
  {| world := snd sw;
     queue := enqueue n (fst sw) (queue l);
     tasks := setNth n (fst sw) (tasks l) |}.

(** What can happen next. *)
Inductive Turn : Type :=
| Wake (n : nat)      (* what function n awaits (no queue job) has settled *)
| Start               (* the queue starts its oldest waiting job *)
| Settle (k : nat)    (* the k-th running job settles, its function goes on *)
| Interval.           (* the interval of the queue ends *)

(** One turn; [None] when it cannot be taken.  A job runs under the retry
    policy, as [queueAdd] runs it; what it does to the world is done when
    it settles.  The clock moves on by each delay that is awaited, and to
    the end of the interval when the queue waits for it. *)
Definition turn (t : Turn) (l : Loop) : option Loop :=
  match t with
  | Wake n =>
      match nth_error (tasks l) n with
      | Some (Tick k) => Some (suspend n (wake k (world l)) l)
      | Some (Timer ms k) => Some (suspend n (wake k (sleep ms (world l))) l)
      | _ => None
      end
  | Start =>
      match startJob (queue l) with
      | Some (_, q) =>
          Some {| world := emit QueueStart (world l);
                  queue := q;
                  tasks := tasks l |}
      | None => None
      end
  | Settle k =>
      match settleJob k (queue l) with
      | Some ((n, job), q) =>
          match nth_error (tasks l) n with
          | Some (Queued _ kq) =>
              let '(r, w1, _) := withRetry job None (world l) in
              Some (suspend n (settled kq r (emit QueueDone w1))
                      {| world := world l; queue := q; tasks := tasks l |})
          | _ => None
          end
      | None => None
      end
  | Interval =>
      let w := passTo (intervalEnd (queue l)) (world l) in
      Some {| world := w;
              queue := onInterval (now w) (queue l);
              tasks := tasks l |}
  end.

(** A schedule: the turns taken, in order. *)
Fixpoint run (turns : list Turn) (l : Loop) : option Loop :=
  match turns with
  | [] => Some l
  | t :: rest =>
      match turn t l with
      | Some l' => run rest l'
      | None => None
      end
  end.

(** No function is in flight yet. *)
Definition idle (config : SummarizeCfg) (w : World) : Loop :=
  {| world := w; queue := newPQueue config (now w); tasks := [] |}.

End EventLoop.

Arguments Done {WakeFrame QueueFrame R} r.
Arguments Tick {WakeFrame QueueFrame R} k.
Arguments Timer {WakeFrame QueueFrame R} ms k.
Arguments Queued {WakeFrame QueueFrame R} job k.
Arguments mkLoop {WakeFrame QueueFrame R} _ _ _.
Arguments world {WakeFrame QueueFrame R} _.
Arguments queue {WakeFrame QueueFrame R} _.
Arguments tasks {WakeFrame QueueFrame R} _.
Arguments enqueue {WakeFrame QueueFrame R} n s q.
Arguments spawn {WakeFrame QueueFrame R} sw l.
Arguments suspend {WakeFrame QueueFrame R} n sw l.
Arguments turn {WakeFrame QueueFrame R} wake settled t l.
Arguments run {WakeFrame QueueFrame R} wake settled turns l.
Arguments idle {WakeFrame QueueFrame R} config w.

(** *** The budget wait, one evaluation of the loop condition at a time *)

(** How one pass through
    [while (!tokenTracker.canUseTokens(estWeight)) {...}] ends. *)
Inductive Polled : Type :=
| Granted                  (* the condition is false: the loop is left *)
| TimedOut (e : JsError)   (* the timeout check throws *)
| Sleeps.                  (* await sleep(3000), then the condition again *)

(** Lines 105-115 (and 206-216), up to the [await]. *)
Definition pollOnce (config : SummarizeCfg) (estWeight startTime : Z)
    (w : World) : Polled * World :=
  let '(granted, t1) := canUseTokens estWeight (now w) (tokenTracker w) in
  let w1 := emit (BudgetPoll estWeight granted) (setTracker t1 w) in
  if granted then (Granted, w1)
  else
    let '(remaining, t2) := getRemainingTokens (now w1) (tokenTracker w1) in
    let w2 := setTracker t2 w1 in
    if now w2 - startTime >? TOKEN_BUDGET_TIMEOUT config
    then (TimedOut (newError (timeoutMessage config estWeight remaining)), w2)
    else (Sleeps, w2).

(** *** The map phase on the event loop (lines 75-177) *)

(** Where the map loop is suspended: at [await mapPrompt.format(...)]
    (line 87) or at the [await] of the budget wait (line 114), in
    iteration [i], on document [doc], with [rest] still to come and the
    partials pushed so far ... *)
Inductive MapWake : Type :=
| MapFormatting (i : nat) (doc : Doc) (rest : list Doc)
    (partials : list string)
| MapWaiting (i : nat) (doc : Doc) (rest : list Doc)
    (partials : list string) (prompt : string) (estWeight startTime : Z).

(** ... or at [await queue.add(...)] (line 120). *)
Inductive MapQueue : Type :=
| MapQueued (i : nat) (doc : Doc) (rest : list Doc) (partials : list string).

Definition MapSusp : Type := Susp MapWake MapQueue (list string).

Section MapTask.

Variable env : Env.
Variable config : SummarizeCfg.

(** After the loop (lines 167-171). *)
Definition mapEnd (partials : list string) : JsError + list string :=
  match partials with
  | [] => inl (newError ("MAP phase failed: " ++ noneProcessed))
  | _ :: _ => inr partials
  end.

(** The loop from the head of iteration [i] (lines 78-87): documents
    without page content are passed over, the first one with content
    suspends the loop at line 87. *)
Fixpoint mapFrom (i : nat) (docs : list Doc) (partials : list string)
    (w : World) : MapSusp * World :=
  match docs with
  | [] => (Done (mapEnd partials), w)
  | doc :: rest =>
      let w1 := emit (MapChunk i) w in
      if isEmpty (pageContent doc) then mapFrom (S i) rest partials w1
      else (Tick (MapFormatting i doc rest partials), w1)
  end.

(** The [catch] of the iteration (lines 154-164): a budget timeout leaves
    the loop, and the outer [catch] (lines 172-177) wraps it; anything else
    is passed over. *)
Definition mapCatch (i : nat) (rest : list Doc) (partials : list string)
    (error : JsError) (w : World) : MapSusp * World :=
  if includes timeoutNeedle (message error)
  then (Done (inl (newError ("MAP phase failed: " ++ message error))), w)
  else mapFrom (S i) rest partials w.

(** The budget wait of iteration [i], from the loop condition on
    (lines 105-120). *)
Definition mapPoll (i : nat) (doc : Doc) (rest : list Doc)
    (partials : list string) (prompt : string) (estWeight startTime : Z)
    (w : World) : MapSusp * World :=
  match pollOnce config estWeight startTime w with
  | (Granted, w1) =>
      (Queued (mapCall env config doc prompt estWeight)
         (MapQueued i doc rest partials), w1)
  | (TimedOut e, w1) => mapCatch i rest partials e w1
  | (Sleeps, w1) =>
      (Timer 3000 (MapWaiting i doc rest partials prompt estWeight startTime),
       w1)
  end.

(** The loop goes on after line 87 (lines 88-105) or after line 114. *)
Definition mapWake (k : MapWake) (w : World) : MapSusp * World :=
  match k with
  | MapFormatting i doc rest partials =>
      let prompt := mapPrompt_format env (pageContent doc) in
      let promptTokens := countTokens env prompt in
      let estWeight := promptTokens + MAP_OUT_MAX config in
      if estWeight >? TOKENS_PER_MINUTE config then
        mapCatch i rest partials (newError (mapEstimateMessage config estWeight)) w
      else mapPoll i doc rest partials prompt estWeight (now w) w
  | MapWaiting i doc rest partials prompt estWeight startTime =>
      mapPoll i doc rest partials prompt estWeight startTime w
  end.

(** The loop goes on after line 120 (lines 149-165). *)
Definition mapSettled (k : MapQueue) (r : JsError + string) (w : World)
  : MapSusp * World :=
  match k with
  | MapQueued i doc rest partials =>
      match r with
      | inl error => mapCatch i rest partials error w
      | inr partial =>
          if isEmpty partial then mapFrom (S i) rest partials w
          else mapFrom (S i) rest (partials ++ [partial])%list
                 (emit (Push partial) w)
      end
  end.

(** The map phase is called: [makeQueue(config)], then the loop from its
    first iteration, as the one function in flight. *)
Definition mapPhaseLoop (docs : list Doc) (w0 : World)
  : Loop MapWake MapQueue (list string) :=
  let w := makeQueue config w0 in
  spawn (mapFrom 0 docs [] w) (idle config w).

End MapTask.

(** The partials list as it is while the map phase stands at [s]. *)
Definition partialsAt (s : MapSusp) : option (list string) :=
  match s with
  | Done (inl _) => None
  | Done (inr partials) => Some partials
  | Tick (MapFormatting _ _ _ partials) => Some partials
  | Tick (MapWaiting _ _ _ partials _ _ _) => Some partials
  | Timer _ (MapFormatting _ _ _ partials) => Some partials
  | Timer _ (MapWaiting _ _ _ partials _ _ _) => Some partials
  | Queued _ (MapQueued _ _ _ partials) => Some partials
  end.

(** The map phase awaits a job of the queue. *)
Definition awaitsQueue {W Q R : Type} (s : Susp W Q R) : bool :=
  match s with
  | Queued _ _ => true
  | _ => false
  end.

(** *** One round of the reduce phase on the event loop *)

(** Where [reduceJob] is suspended: at [await combinePrompt.format(...)]
    (line 187), at the [await] of the budget wait (line 215) ... *)
Inductive ReduceWake : Type :=
| ReduceFormatting (joined : string)
| ReduceWaiting (joined prompt : string) (estWeight startTime : Z).

(** ... or at [await queue.add(...)] (line 218). *)
Inductive ReduceQueue : Type :=
| ReduceQueued (joined : string).

Definition ReduceSusp : Type := Susp ReduceWake ReduceQueue string.

Section ReduceTask.

Variable env : Env.
Variable config : SummarizeCfg.

(** [reduceJob(joined)] up to line 187. *)
Definition reduceStart (joined : string) (w0 : World) : ReduceSusp * World :=
  let w := emit (Reduce joined) w0 in
  if isEmpty (trim joined) then
    (Done (inl (newError "Empty text provided for reduce operation")), w)
  else (Tick (ReduceFormatting joined), w).

(** The [catch] of lines 243-248. *)
Definition reduceCatch (error : JsError) : JsError :=
  newError ("Reduce operation failed: " ++ message error).

(** The budget wait, from the loop condition on (lines 206-218). *)
Definition reducePoll (joined prompt : string) (estWeight startTime : Z)
    (w : World) : ReduceSusp * World :=
  match pollOnce config estWeight startTime w with
  | (Granted, w1) =>
      (Queued (reduceCall env config prompt estWeight) (ReduceQueued joined), w1)
  | (TimedOut e, w1) => (Done (inl (reduceCatch e)), w1)
  | (Sleeps, w1) =>
      (Timer 3000 (ReduceWaiting joined prompt estWeight startTime), w1)
  end.

(** [reduceJob] goes on after line 187 (lines 188-206) or after line 215. *)
Definition reduceWake (k : ReduceWake) (w : World) : ReduceSusp * World :=
  match k with
  | ReduceFormatting joined =>
      let prompt := combinePrompt_format env joined in
      let promptTokens := countTokens env prompt in
      let estWeight := promptTokens + REDUCE_OUT_MAX config in
      if estWeight >? TOKENS_PER_MINUTE config then
        (Done (inl (newError (reduceEstimateMessage config estWeight))), w)
      else reducePoll joined prompt estWeight (now w) w
  | ReduceWaiting joined prompt estWeight startTime =>
      reducePoll joined prompt estWeight startTime w
  end.

(** [reduceJob] goes on after line 218. *)
Definition reduceSettled (k : ReduceQueue) (r : JsError + string) (w : World)
  : ReduceSusp * World :=
  match r with
  | inl error => (Done (inl (reduceCatch error)), w)
  | inr v => (Done (inr v), w)
  end.

(** [groups.map((g) => reduceJob(g.join(sep)))]: [reduceJob] is called for
    every group, in group order; each call runs to its first [await]. *)
Fixpoint reduceRound (groups : list (list string))
    (l : Loop ReduceWake ReduceQueue string)
  : Loop ReduceWake ReduceQueue string :=
  match groups with
  | [] => l
  | g :: rest =>
      reduceRound rest (spawn (reduceStart (join separator g) (world l)) l)
  end.

End ReduceTask.

(** *** What holds while the map phase runs on the event loop *)

(** The trace [delta] of a map phase that has entered the iterations
    [0 .. entered - 1], in this order, and whose pushes, all made by
    iterations below [below], in increasing order of iteration, make up
    [partials]. *)
Definition MapTrace (entered below : nat) (partials : list string)
    (delta : list Event) : Prop :=
  chunksOf delta = seq 0 entered
  /\ map snd (pushedBy 0 delta) = partials
  /\ StronglySorted lt (map fst (pushedBy 0 delta))
  /\ Forall (fun k => (k < below)%nat) (map fst (pushedBy 0 delta)).

(** The iteration a suspended map loop is in, and its document. *)
Definition iterationAt (s : MapSusp) : option (nat * Doc) :=
  match s with
  | Done _ => None
  | Tick (MapFormatting i doc _ _) | Tick (MapWaiting i doc _ _ _ _ _)
  | Timer _ (MapFormatting i doc _ _) | Timer _ (MapWaiting i doc _ _ _ _ _)
  | Queued _ (MapQueued i doc _ _) => Some (i, doc)
  end.

(** The map phase over [docs] stands at [s] with the trace [delta]: a
    suspended loop is in an iteration [i] it has entered, on the document
    [docs[i]], which has page content, with the documents after it to come
    and the pushes of earlier iterations as its partials; once it is past
    line 100 its prompt and estimate are those of the document and the
    estimate fits the budget; a job it awaits is the map call of that
    document. *)
Definition MapStands (env : Env) (config : SummarizeCfg) (docs : list Doc)
    (s : MapSusp) (delta : list Event) : Prop :=
  let inIteration i doc rest partials :=
    skipn i docs = doc :: rest
    /\ isEmpty (pageContent doc) = false
    /\ MapTrace (S i) i partials delta in
  let pastEstimate doc prompt estWeight :=
    prompt = mapPrompt_format env (pageContent doc)
    /\ estWeight = mapEstimate env config doc
    /\ estWeight <= TOKENS_PER_MINUTE config in
  let inFrame k :=
    match k with
    | MapFormatting i doc rest partials => inIteration i doc rest partials
    | MapWaiting i doc rest partials prompt estWeight _ =>
        inIteration i doc rest partials /\ pastEstimate doc prompt estWeight
    end in
  match s with
  | Done r =>
      exists entered below partials,
        (entered <= List.length docs)%nat
        /\ (below <= List.length docs)%nat
        /\ MapTrace entered below partials delta
        /\ (forall ps, r = inr ps ->
              ps = partials /\ entered = List.length docs)
  | Tick k => inFrame k
  | Timer _ k => inFrame k
  | Queued job (MapQueued i doc rest partials) =>
      inIteration i doc rest partials
      /\ exists prompt estWeight,
           pastEstimate doc prompt estWeight
           /\ job = mapCall env config doc prompt estWeight
  end.

(** A budget wait the loop is in did not start in the future. *)
Definition startedBefore (s : MapSusp) (w : World) : Prop :=
  match s with
  | Tick (MapWaiting _ _ _ _ _ _ startTime)
  | Timer _ (MapWaiting _ _ _ _ _ _ startTime) => startTime <= now w
  | _ => True
  end.

(** The loop has run to [fst sw] and left the world [snd sw]: the trace
    since [w0] shows no job running, and the map phase stands there. *)
Definition MapLands (env : Env) (config : SummarizeCfg) (docs : list Doc)
    (w0 : World) (sw : MapSusp * World) : Prop :=
  exists delta,
    trace (snd sw) = (trace w0 ++ delta)%list
    /\ serialFrom false delta = Some false
    /\ MapStands env config docs (fst sw) delta
    /\ startedBefore (fst sw) (snd sw).

(** The invariant of the map phase on the event loop: the loop is the one
    function in flight; the queue is the one [makeQueue] configured; it
    holds a job only while the loop awaits it, and then this job alone,
    waiting or running. *)
Definition MapInv (env : Env) (config : SummarizeCfg) (docs : list Doc)
    (w0 : World) (l : Loop MapWake MapQueue (list string)) : Prop :=
  exists s delta,
    tasks l = [s]
    /\ trace (world l) = (trace w0 ++ delta)%list
    /\ MapStands env config docs s delta
    /\ startedBefore s (world l)
    /\ concurrency (queue l) = QUEUE_CONCURRENCY config
    /\ intervalCap (queue l) = REQUESTS_PER_MINUTE config
    /\ interval (queue l) = QUEUE_INTERVAL config
    /\ match s with
       | Queued job _ =>
           (waitingJobs (queue l) = [(0%nat, job)]
            /\ runningJobs (queue l) = []
            /\ serialFrom false delta = Some false)
           \/ (waitingJobs (queue l) = []
               /\ runningJobs (queue l) = [(0%nat, job)]
               /\ serialFrom false delta = Some true)
       | _ =>
           waitingJobs (queue l) = []
           /\ runningJobs (queue l) = []
           /\ serialFrom false delta = Some false
       end.

(** *** The rest of a map phase, run as [mapPhase] runs it *)

Section MapRest.

Variable env : Env.
Variable config : SummarizeCfg.

(** From the head of iteration [i]. *)
Definition mapPhaseFrom (i : nat) (docs : list Doc) (partials : list string)
    (w : World) : (JsError + list string) * World :=
  match mapLoop env config i docs partials w with
  | (inl e, w1) => (inl (newError ("MAP phase failed: " ++ message e)), w1)
  | (inr ps, w1) => (mapEnd ps, w1)
  end.

(** From the end of the body of iteration [i]. *)
Definition mapAfterBody (i : nat) (rest : list Doc) (partials : list string)
    (rw : (JsError + option string) * World)
  : (JsError + list string) * World :=
  match rw with
  | (inr (Some partial), w1) =>
      mapPhaseFrom (S i) rest (partials ++ [partial])%list
        (emit (Push partial) w1)
  | (inr None, w1) => mapPhaseFrom (S i) rest partials w1
  | (inl error, w1) =>
      if includes timeoutNeedle (message error)
      then (inl (newError ("MAP phase failed: " ++ message error)), w1)
      else mapPhaseFrom (S i) rest partials w1
  end.

(** The body of an iteration from the point where its queued call has
    settled, and from the point where its budget wait has ended. *)
Definition mapAfterCall (rw : (JsError + string) * World)
  : (JsError + option string) * World :=
  match rw with
  | (inl e, w2) => (inl e, w2)
  | (inr partial, w2) =>
      if isEmpty partial then (inr None, w2) else (inr (Some partial), w2)
  end.

Definition mapAfterWait (doc : Doc) (rw : (JsError + unit) * World)
  : (JsError + option string) * World :=
  match rw with
  | (inl e, w1) => (inl e, w1)
  | (inr _, w1) =>
      mapAfterCall
        (queueAdd (mapCall env config doc
                     (mapPrompt_format env (pageContent doc))
                     (mapEstimate env config doc)) w1)
  end.

(** From the point where the loop goes on after line 87 or line 114. *)
Definition mapRestWake (k : MapWake) (w : World)
  : (JsError + list string) * World :=
  match k with
  | MapFormatting i doc rest partials =>
      mapAfterBody i rest partials (mapBody env config doc w)
  | MapWaiting i doc rest partials _ _ startTime =>
      mapAfterBody i rest partials
        (mapAfterWait doc
           (waitForBudget (pollBudget config) config
              (mapEstimate env config doc) startTime w))
  end.

(** From the point where the map phase stands at [s] in the world [w];
    [started] says whether the job it awaits, if any, has been started. *)
Definition mapRestAt (s : MapSusp) (started : bool) (w : World)
  : (JsError + list string) * World :=
  match s with
  | Done r => (r, w)
  | Tick k => mapRestWake k w
  | Timer ms k => mapRestWake k (sleep ms w)
  | Queued job (MapQueued i doc rest partials) =>
      mapAfterBody i rest partials
        (mapAfterCall
           (if started then
              let '(r, w1, _) := withRetry job None w in (r, emit QueueDone w1)
            else queueAdd job w))
  end.

(** From a state of the event loop in which the map loop is the one
    function in flight. *)
Definition mapRest (l : Loop MapWake MapQueue (list string))
  : option ((JsError + list string) * World) :=
  match tasks l with
  | [s] =>
      Some (mapRestAt s
              match runningJobs (queue l) with
              | [] => false
              | _ :: _ => true
              end (world l))
  | _ => None
  end.

End MapRest.

(** Is this turn the end of the queue's interval? *)
Definition isInterval (t : Turn) : bool :=
  match t with
  | Interval => true
  | _ => false
  end.

(** As [demoCfg], with a queue that runs one job at a time. *)
Definition oneAtATimeCfg : SummarizeCfg :=
  {| TOKENS_PER_MINUTE := 1000;
     TOKEN_BUDGET_TIMEOUT := 6000;
     REQUESTS_PER_MINUTE := 60;
     QUEUE_INTERVAL := 60000;
     QUEUE_CONCURRENCY := 1;
     TOKEN_BUDGET_WINDOWS := 60000;
     MAP_OUT_MAX := 10;
     REDUCE_OUT_MAX := 10;
     HIERARCHY_GROUP_SIZE := 2 |}.

(** The queue is within its two caps. *)
Definition WithinCaps {J : Type} (q : PQueue J) : Prop :=
  Z.of_nat (List.length (runningJobs q)) <= Z.max 0 (concurrency q)
  /\ intervalCount q <= Z.max 0 (intervalCap q).

(* ===================================================================== *)
(** * Part II: theorems                                                   *)
(* ===================================================================== *)

Lemma resetIfNeeded_within t now :
  withinWindow t now -> resetIfNeeded now t = t.
Proof.
  unfold withinWindow, resetIfNeeded; intros H.
  destruct (Z.geb_spec (now - windowStart t) (windowMs t)); [lia | reflexivity].
Qed.

Lemma resetIfNeeded_capacity t now :
  tokensPerMinute (resetIfNeeded now t) = tokensPerMinute t.
Proof. unfold resetIfNeeded; destruct (_ >=? _); reflexivity. Qed.

Lemma useAll_within uses : forall t,
  Forall (fun u => withinWindow t (fst u)) uses ->
  usedTokens (useAll uses t) = usedTokens t + sumAmounts uses
  /\ windowStart (useAll uses t) = windowStart t
  /\ windowMs (useAll uses t) = windowMs t
  /\ tokensPerMinute (useAll uses t) = tokensPerMinute t.
Proof.
  induction uses as [|[ti ai] uses IH]; intros t HF;
    unfold useAll, sumAmounts; cbn [fold_left fold_right fst snd].
  - repeat split; lia.
  - inversion HF as [|? ? Hh Ht]; subst; cbn in Hh.
    unfold useAll, sumAmounts in IH.
    destruct (IH (useTokens ai ti t)) as (Hu & Hs & Hm & Hc).
    + unfold useTokens; rewrite (resetIfNeeded_within _ _ Hh).
      eapply Forall_impl; [|exact Ht]; intros u; unfold withinWindow; cbn; auto.
    + rewrite Hu, Hs, Hm, Hc.
      unfold useTokens; rewrite (resetIfNeeded_within _ _ Hh); cbn.
      repeat split; lia.
Qed.

(** C5. The tracker's contract.  For every state [t] and time [now]:
    [canUseTokens e] answers true exactly when, after the lazy reset,
    [usedTokens + e <= tokensPerMinute]; [getRemainingTokens] is
    [max 0 (tokensPerMinute - usedTokens)] after the lazy reset and is never
    negative; [useTokens a] adds [a] to the counter without rejecting or
    clamping.  For a fresh tracker of capacity [C] and every sequence of
    uses with non-negative amounts inside the first window, the counter is
    the sum of the amounts, and one more use of [C + 1] tokens leaves the
    counter above [C]. *)
Theorem C5_tracker_contract :
  forall (config : SummarizeCfg) (start : Z) (uses : list (Z * Z)) (e now : Z),
    let C := TOKENS_PER_MINUTE config in
    let t0 := newTracker config start in
    Forall (fun u => withinWindow t0 (fst u) /\ 0 <= snd u) uses ->
    withinWindow t0 now ->
    0 <= e ->
    let t := useAll uses t0 in
    (* the state after the uses *)
    usedTokens t = sumAmounts uses
    /\ 0 <= usedTokens t
    (* canUse *)
    /\ (fst (canUseTokens e now t) = true <-> usedTokens t + e <= C)
    /\ (forall t' now', fst (canUseTokens e now' t') = true
          <-> usedTokens (resetIfNeeded now' t') + e <= tokensPerMinute t')
    (* remaining *)
    /\ fst (getRemainingTokens now t) = Z.max 0 (C - usedTokens t)
    /\ (forall t' now', fst (getRemainingTokens now' t')
          = Z.max 0 (tokensPerMinute t' - usedTokens (resetIfNeeded now' t'))
          /\ 0 <= fst (getRemainingTokens now' t'))
    (* use never rejects and never clamps *)
    /\ (forall a t' now', usedTokens (useTokens a now' t')
          = usedTokens (resetIfNeeded now' t') + a)
    /\ usedTokens (useTokens (C + 1) now t) > C.
Proof.
  intros config start uses e now C t0 HF Hnow He t.
  assert (HF' : Forall (fun u => withinWindow t0 (fst u)) uses)
    by (eapply Forall_impl; [|exact HF]; cbn; tauto).
  destruct (useAll_within uses t0 HF') as (Hu & Hs & Hm & Hc).
  fold t in Hu, Hs, Hm, Hc. cbn in Hu, Hs, Hm, Hc.
  assert (Hsum : 0 <= sumAmounts uses).
  { clear -HF. induction HF as [|u uses [_ Hu] _ IH]; [cbn; lia|].
    change (sumAmounts (u :: uses)) with (snd u + sumAmounts uses). lia. }
  assert (Hw : withinWindow t now).
  { unfold withinWindow in *. rewrite Hs, Hm. exact Hnow. }
  assert (Hgen : forall t' now', fst (canUseTokens e now' t') = true
          <-> usedTokens (resetIfNeeded now' t') + e <= tokensPerMinute t').
  { intros t' now'. unfold canUseTokens; cbn.
    rewrite resetIfNeeded_capacity. apply Z.leb_le. }
  repeat split.
  - lia.
  - lia.
  - intros H. apply Hgen in H. rewrite (resetIfNeeded_within _ _ Hw), Hc in H. exact H.
  - intros H. apply Hgen. rewrite (resetIfNeeded_within _ _ Hw), Hc. exact H.
  - apply Hgen.
  - apply Hgen.
  - unfold getRemainingTokens; cbn.
    rewrite (resetIfNeeded_within _ _ Hw), Hc. reflexivity.
  - unfold getRemainingTokens; cbn. rewrite resetIfNeeded_capacity. reflexivity.
  - unfold getRemainingTokens; cbn. lia.
  - unfold useTokens; cbn.
    rewrite (resetIfNeeded_within _ _ Hw). lia.
Qed.

(** ** hierarchicalReduce: the grouping loop *)

Lemma C5_tracker_contract_witness :
  Forall (fun u => withinWindow (newTracker demoCfg 0) (fst u) /\ 0 <= snd u)
    [(10, 300); (20, 500)]
  /\ withinWindow (newTracker demoCfg 0) 30
  /\ 0 <= 400
  /\ usedTokens (useAll [(10, 300); (20, 500)] (newTracker demoCfg 0)) = 800
  /\ (fst (canUseTokens 400 30
             (useAll [(10, 300); (20, 500)] (newTracker demoCfg 0))) = true
      <-> 800 + 400 <= 1000).
Proof.
  assert (H1 : Forall (fun u => withinWindow (newTracker demoCfg 0) (fst u)
                               /\ 0 <= snd u) [(10, 300); (20, 500)])
    by (repeat constructor; cbn; lia).
  assert (H2 : withinWindow (newTracker demoCfg 0) 30)
    by (unfold withinWindow; cbn; lia).
  assert (H3 : 0 <= 400) by lia.
  destruct (C5_tracker_contract demoCfg 0 [(10, 300); (20, 500)] 400 30
              H1 H2 H3) as (Hu & _ & Hc & _).
  repeat split; try assumption; apply Hc.
Defined.

Lemma ceilDiv_zero g : (1 <= g)%nat -> ceilDiv 0 g = 0%nat.
Proof. intros Hg. unfold ceilDiv. apply Nat.div_small. lia. Qed.

Lemma ceilDiv_step g n :
  (1 <= g)%nat -> (1 <= n)%nat -> ceilDiv n g = S (ceilDiv (n - g) g).
Proof.
  intros Hg Hn. unfold ceilDiv.
  destruct (Nat.le_gt_cases n g) as [Hle|Hgt].
  - replace (n - g)%nat with 0%nat by lia.
    rewrite (Nat.div_small (0 + g - 1)) by lia.
    symmetry. apply (Nat.div_unique _ _ 1 (n - 1)); lia.
  - replace (n + g - 1)%nat with ((n - g + g - 1) + 1 * g)%nat by lia.
    rewrite Nat.div_add by lia. lia.
Qed.

Lemma ceilDiv_lt g n : (2 <= g)%nat -> (2 <= n)%nat -> (ceilDiv n g < n)%nat.
Proof.
  intros HG Hn. unfold ceilDiv.
  apply Nat.Div0.div_lt_upper_bound. nia.
Qed.

Lemma ceilDiv_one n : ceilDiv n 1 = n.
Proof. unfold ceilDiv. rewrite Nat.div_1_r. lia. Qed.

Section Grouping.
Local Open Scope nat_scope.
Local Open Scope list_scope.

Variable texts : list string.
Variable groupSize : nat.
Hypothesis groupSize_pos : 1 <= groupSize.

Let N := List.length texts.

Lemma slice_length i :
  List.length (slice i (i + groupSize) texts) = Nat.min groupSize (N - i).
Proof.
  unfold slice. rewrite length_firstn, length_skipn.
  replace (i + groupSize - i) with groupSize by lia. reflexivity.
Qed.

Lemma slice_app_skipn i :
  slice i (i + groupSize) texts ++ skipn (i + groupSize) texts = skipn i texts.
Proof.
  unfold slice. replace (i + groupSize - i) with groupSize by lia.
  rewrite Nat.add_comm, <- skipn_skipn. apply firstn_skipn.
Qed.

Lemma groupsFrom_total fuel : forall i,
  N - i <= fuel -> exists groups, groupsFrom fuel texts groupSize i = Some groups.
Proof.
  induction fuel as [|fuel IH]; intros i Hf; cbn [groupsFrom]; fold N.
  - destruct (Nat.ltb_spec i N); [lia | eauto].
  - destruct (Nat.ltb_spec i N); [|eauto].
    destruct (IH (i + groupSize)) as [gs ->]; [lia | eauto].
Qed.

Lemma groupsFrom_spec fuel : forall i groups,
  groupsFrom fuel texts groupSize i = Some groups ->
  List.length groups = ceilDiv (N - i) groupSize
  /\ List.concat groups = skipn i texts
  /\ (forall k, k < List.length groups ->
        nth k groups [] = slice (i + k * groupSize) (i + k * groupSize + groupSize) texts)
  /\ (forall k, k < List.length groups ->
        1 <= List.length (nth k groups []) <= groupSize)
  /\ (forall k, S k < List.length groups ->
        List.length (nth k groups []) = groupSize).
Proof.
  induction fuel as [|fuel IH]; intros i groups; cbn [groupsFrom]; fold N.
  - destruct (Nat.ltb_spec i N); [discriminate|].
    intros [= <-]. replace (N - i) with 0 by lia. rewrite ceilDiv_zero by exact groupSize_pos.
    rewrite skipn_all2 by (fold N; lia). cbn.
    repeat split; intros; lia.
  - destruct (Nat.ltb_spec i N) as [Hlt|Hge].
    + destruct (groupsFrom fuel texts groupSize (i + groupSize)) as [gs|] eqn:E;
        [|discriminate].
      intros [= <-]. destruct (IH _ _ E) as (Hlen & Hcat & Hnth & Hsz & Hfull).
      split; [|split; [|split; [|split]]].
      * cbn. rewrite Hlen, (ceilDiv_step groupSize (N - i)) by lia.
        f_equal. f_equal. lia.
      * cbn. rewrite Hcat. apply slice_app_skipn.
      * intros [|k] Hk; cbn in *.
        -- rewrite Nat.add_0_r. reflexivity.
        -- rewrite Hnth by lia. f_equal; lia.
      * intros [|k] Hk; cbn in *.
        -- rewrite slice_length. lia.
        -- apply Hsz. lia.
      * intros [|k] Hk; cbn in *.
        -- rewrite slice_length.
           assert (1 <= ceilDiv (N - (i + groupSize)) groupSize) by lia.
           destruct (Nat.le_gt_cases (N - i) groupSize); [|lia].
           replace (N - (i + groupSize)) with 0 in H by lia.
           rewrite ceilDiv_zero in H by exact groupSize_pos. lia.
        -- apply Hfull. lia.
    + intros [= <-]. replace (N - i) with 0 by lia. rewrite ceilDiv_zero by exact groupSize_pos.
      rewrite skipn_all2 by (fold N; lia). cbn.
      repeat split; intros; lia.
Qed.

End Grouping.

(** ** hierarchicalReduce: rounds *)

Section Rounds.
Local Open Scope nat_scope.
Local Open Scope list_scope.

Lemma groupsOf_total texts groupSize :
  1 <= groupSize -> exists groups, groupsOf texts groupSize = Some groups.
Proof. intros HG. apply groupsFrom_total; [exact HG | lia]. Qed.

Lemma promiseAllMap_Collected reduceJob groups : forall w level w',
  promiseAllMap reduceJob groups w = (inr level, w') <->
  Collected reduceJob w groups level w'.
Proof.
  induction groups as [|g groups IH]; intros w level w'; cbn [promiseAllMap].
  - split.
    + intros [= <- <-]. constructor.
    + intros H; inversion H; subst; reflexivity.
  - destruct (reduceJob (join separator g) w) as [r w1] eqn:Er.
    destruct (promiseAllMap reduceJob groups w1) as [rs w2] eqn:Ers.
    split.
    + destruct r as [e|v]; [discriminate|].
      destruct rs as [e|vs]; [discriminate|].
      intros [= <- <-]. econstructor; [exact Er | apply IH; exact Ers].
    + intros H; inversion H as [|? ? ? ? ? ? ? Hj Hc]; subst.
      rewrite Hj in Er. inversion Er; subst.
      apply IH in Hc. rewrite Hc in Ers. inversion Ers; subst. reflexivity.
Qed.

Lemma Collected_length reduceJob w groups level w' :
  Collected reduceJob w groups level w' -> List.length level = List.length groups.
Proof. induction 1; cbn; congruence. Qed.

Lemma promiseAllMap_fulfils reduceJob :
  alwaysFulfils reduceJob ->
  forall groups w, exists level w', promiseAllMap reduceJob groups w = (inr level, w').
Proof.
  intros Hj groups; induction groups as [|g groups IH]; intros w; cbn [promiseAllMap].
  - eauto.
  - destruct (Hj (join separator g) w) as (v & w1 & ->).
    destruct (IH w1) as (vs & w2 & ->). eauto.
Qed.

Lemma hierarchicalReduce_base fuel texts reduceJob groupSize w :
  List.length texts <= groupSize ->
  hierarchicalReduce (S fuel) texts reduceJob groupSize w =
    (of_result (fst (reduceJob (join separator texts) w)),
     snd (reduceJob (join separator texts) w), [[texts]]).
Proof.
  intros H. cbn [hierarchicalReduce].
  destruct (Nat.leb_spec (List.length texts) groupSize); [|lia].
  destruct (reduceJob (join separator texts) w); reflexivity.
Qed.

Lemma hierarchicalReduce_step fuel texts reduceJob groupSize w groups :
  groupSize < List.length texts ->
  groupsOf texts groupSize = Some groups ->
  hierarchicalReduce (S fuel) texts reduceJob groupSize w =
    match promiseAllMap reduceJob groups w with
    | (inl e, w1) => (Rejected e, w1, [groups])
    | (inr level, w1) =>
        let '(o, w2, rounds) :=
          hierarchicalReduce fuel level reduceJob groupSize w1 in
        (o, w2, groups :: rounds)
    end.
Proof.
  intros H Hg. cbn [hierarchicalReduce].
  destruct (Nat.leb_spec (List.length texts) groupSize); [lia|].
  rewrite Hg. reflexivity.
Qed.

(** With groups of two or more the recursion settles: the number of items
    shrinks every round, and as many units of fuel as there are items are
    enough. *)
Lemma hierarchicalReduce_settles groupSize reduceJob :
  2 <= groupSize ->
  forall fuel texts w,
    List.length texts <= fuel -> 1 <= fuel ->
    fst (fst (hierarchicalReduce fuel texts reduceJob groupSize w)) <> Diverged.
Proof.
  intros HG. induction fuel as [|fuel IH]; intros texts w Hlen Hpos; [lia|].
  destruct (Nat.le_gt_cases (List.length texts) groupSize) as [Hle|Hgt].
  - rewrite hierarchicalReduce_base by exact Hle. cbn.
    destruct (fst (reduceJob _ w)); discriminate.
  - destruct (groupsOf_total texts groupSize) as [groups Hg]; [lia|].
    rewrite (hierarchicalReduce_step _ _ _ _ _ groups) by assumption.
    destruct (promiseAllMap reduceJob groups w) as [[e|level] w1] eqn:E.
    + cbn. discriminate.
    + assert (Hl : List.length level = ceilDiv (List.length texts) groupSize).
      { apply promiseAllMap_Collected, Collected_length in E. rewrite E.
        destruct (groupsFrom_spec texts groupSize ltac:(lia) _ _ _ Hg) as (-> & _).
        f_equal. lia. }
      pose proof (ceilDiv_lt groupSize (List.length texts) HG ltac:(lia)).
      specialize (IH level w1 ltac:(lia) ltac:(lia)).
      destruct (hierarchicalReduce fuel level reduceJob groupSize w1) as [[o w2] rounds].
      exact IH.
Qed.

(** With groups of one, two or more items are never combined into fewer:
    every round hands on as many items as it got. *)
Lemma groupSize_one_never_settles reduceJob :
  alwaysFulfils reduceJob ->
  forall fuel texts w,
    2 <= List.length texts ->
    fst (fst (hierarchicalReduce fuel texts reduceJob 1 w)) = Diverged.
Proof.
  intros Hj. induction fuel as [|fuel IH]; intros texts w Hlen; [reflexivity|].
  destruct (groupsOf_total texts 1) as [groups Hg]; [lia|].
  rewrite (hierarchicalReduce_step _ _ _ _ _ groups) by (assumption || lia).
  destruct (promiseAllMap_fulfils _ Hj groups w) as (level & w1 & E).
  rewrite E.
  assert (Hl : List.length level = List.length texts).
  { apply promiseAllMap_Collected, Collected_length in E. rewrite E.
    destruct (groupsFrom_spec texts 1 ltac:(lia) _ _ _ Hg) as (-> & _).
    rewrite ceilDiv_one. lia. }
  specialize (IH level w1 ltac:(lia)).
  destruct (hierarchicalReduce fuel level reduceJob 1 w1) as [[o w2] rounds].
  exact IH.
Qed.

Lemma bracketJob_fulfils : alwaysFulfils bracketJob.
Proof. intros joined w. unfold bracketJob. eauto. Qed.

(** C1. On the two items ["a"; "b"] with [groupSize = 1] and a job that
    always fulfils, [hierarchicalReduce] settles for no amount of fuel:
    every round regroups two items into two groups of one and recurses on
    two items again. *)
Theorem C1_groupSize_one_diverges :
  forall fuel : nat,
    fst (fst (hierarchicalReduce fuel ["a"; "b"] bracketJob 1 emptyWorld))
    = Diverged.
Proof.
  intros fuel. apply groupSize_one_never_settles.
  - exact bracketJob_fulfils.
  - cbn. lia.
Qed.





(** C2 as stated fails: five items with [groupSize = 2] take six calls of
    [reduceJob], and the last round is one group of two items. *)
Lemma C2_five_items_counterexample :
  let rounds :=
    snd (hierarchicalReduce 10 ["a"; "b"; "c"; "d"; "e"] bracketJob 2 emptyWorld) in
  combineCalls rounds = 6
  /\ shapes rounds = [[2; 2; 1]; [2; 1]; [2]]
  /\ ~ (combineCalls rounds = 3 /\ shapes rounds = [[2; 2; 1]; [2; 1]; [1]]).
Proof.
  cbv zeta. repeat split; try reflexivity.
  intros [H _]. vm_compute in H. discriminate.
Qed.

(** C2, amended.  For five items, [groupSize = 2] and a job that always
    fulfils, [hierarchicalReduce] settles after three rounds of shapes
    [[2;2;1]], [[2;1]] and [[2]], six calls of [reduceJob] in all, and its
    value is what the last call, on the two items of the third round,
    returned. *)
Theorem C2_five_items_amended :
  forall (a b c d e : string) (reduceJob : Job) (fuel : nat) (w : World),
    alwaysFulfils reduceJob ->
    3 <= fuel ->
    exists final w' rounds x y wl,
      hierarchicalReduce fuel [a; b; c; d; e] reduceJob 2 w
        = (Resolved final, w', rounds)
      /\ combineCalls rounds = 6
      /\ shapes rounds = [[2; 2; 1]; [2; 1]; [2]]
      /\ List.length rounds = 3
      /\ last rounds [] = [[x; y]]
      /\ reduceJob (join separator [x; y]) wl = (inr final, w').
Proof.
  intros a b c d e reduceJob fuel w Hj Hfuel.
  destruct fuel as [|[|[|fuel]]]; try lia.
  cbn [hierarchicalReduce List.length Nat.leb groupsOf groupsFrom Nat.ltb
       Nat.add slice Nat.sub skipn firstn promiseAllMap].
  destruct (Hj (join separator [a; b]) w) as (v1 & w1 & ->).
  destruct (Hj (join separator [c; d]) w1) as (v2 & w2 & ->).
  destruct (Hj (join separator [e]) w2) as (v3 & w3 & ->).
  cbn [hierarchicalReduce List.length Nat.leb groupsOf groupsFrom Nat.ltb
       Nat.add slice Nat.sub skipn firstn promiseAllMap].
  destruct (Hj (join separator [v1; v2]) w3) as (u1 & w4 & ->).
  destruct (Hj (join separator [v3]) w4) as (u2 & w5 & ->).
  cbn [hierarchicalReduce List.length Nat.leb groupsOf groupsFrom Nat.ltb
       Nat.add slice Nat.sub skipn firstn promiseAllMap].
  destruct (Hj (join separator [u1; u2]) w5) as (final & w6 & E).
  rewrite E. cbn [of_result].
  exists final, w6, [[[a; b]; [c; d]; [e]]; [[v1; v2]; [v3]]; [[u1; u2]]],
         u1, u2, w5.
  repeat split; try reflexivity. exact E.
Qed.

Lemma C2_five_items_amended_witness :
  alwaysFulfils bracketJob
  /\ 3 <= 3
  /\ exists final w' rounds,
       hierarchicalReduce 3 ["a"; "b"; "c"; "d"; "e"] bracketJob 2 emptyWorld
         = (Resolved final, w', rounds)
       /\ combineCalls rounds = 6.
Proof.
  split; [exact bracketJob_fulfils|]. split; [lia|].
  destruct (C2_five_items_amended "a" "b" "c" "d" "e" bracketJob 3 emptyWorld
              bracketJob_fulfils ltac:(lia))
    as (final & w' & rounds & _ & _ & _ & H & Hc & _).
  exists final, w', rounds. split; assumption.
Defined.

End Rounds.

(** ** withRetry *)

Section RetryFacts.
Local Open Scope nat_scope.
Local Open Scope list_scope.

Context {T : Type}.

Lemma retrySteps_counts delays : forall n,
  callCount (retrySteps delays n) = S (List.length delays)
  /\ delayCount (retrySteps delays n) = List.length delays.
Proof.
  unfold callCount, delayCount.
  induction delays as [|d ds IH]; intros n; cbn; [split; reflexivity|].
  destruct (IH (S n)) as [-> ->]. split; reflexivity.
Qed.

Lemma pRetry_callCount (fn : Thunk T) onFailed retries : forall n w,
  callCount (snd (pRetry fn onFailed retries n w)) <= retries + 1.
Proof.
  unfold callCount.
  induction retries as [|r IH]; intros n w; cbn [pRetry];
    destruct (fn w) as [[e|v] w1]; cbn; try lia;
    destruct (onFailed e n w1) as [[e'|ms] w2]; cbn; try lia.
  specialize (IH (S n) w2).
  destruct (pRetry fn onFailed r (S n) w2) as [[res w3] steps]. cbn in *. lia.
Qed.

Lemma pRetry_scripted (script : nat -> JsError + T) (v : T) :
  forall k retries n w,
    (forall i, i < k ->
       exists e, script (invocations w + i) = inl e /\ errorStatus e = Some 429%Z) ->
    script (invocations w + k) = inr v ->
    k <= retries ->
    exists w' delays,
      pRetry (scripted script) onFailedAttempt retries n w
        = (inr v, w', retrySteps delays n)
      /\ List.length delays = k
      /\ invocations w' = invocations w + k + 1.
Proof.
  induction k as [|k IH]; intros retries n w Hfail Hok Hk.
  - rewrite Nat.add_0_r in Hok.
    destruct retries; cbn [pRetry]; unfold scripted; rewrite Hok;
      eexists _, []; (split; [reflexivity | split; [reflexivity | cbn; lia]]).
  - destruct retries as [|r]; [lia|].
    destruct (Hfail 0 ltac:(lia)) as (e & He & Hs).
    rewrite Nat.add_0_r in He.
    assert (Hfn : scripted script w =
                  (inl e, {| now := now w; tokenTracker := tokenTracker w;
                             invocations := S (invocations w);
                             trace := trace w |}))
      by (unfold scripted; rewrite He; reflexivity).
    cbn [pRetry]. rewrite Hfn.
    match goal with
    | |- context [onFailedAttempt e n ?w1] =>
        assert (Hcb : exists ms, onFailedAttempt e n w1 = (inr ms, sleep ms w1))
          by (unfold onFailedAttempt; rewrite Hs; cbn [Z.eqb Pos.eqb]; eauto)
    end.
    destruct Hcb as [ms ->].
    match goal with
    | |- context [pRetry _ _ r (S n) ?w2] =>
        destruct (IH r (S n) w2) as (w' & delays & E & Hl & Hi)
    end.
    + intros i Hi. cbn [invocations sleep].
      destruct (Hfail (S i) ltac:(lia)) as (e' & He' & Hs').
      exists e'. split; [|exact Hs'].
      rewrite <- He'. f_equal. lia.
    + cbn [invocations sleep]. rewrite <- Hok. f_equal. lia.
    + lia.
    + rewrite E. eexists w', (_ :: delays). cbn [retrySteps List.length].
      split; [reflexivity|]. split; [lia|].
      cbn [invocations sleep] in Hi. lia.
Qed.

End RetryFacts.

(** C4 as stated fails: an omitted [maxRetries] is six, not seven, and a
    closure that always fails with status 429 is run seven times, not
    eight. *)
Lemma C4_default_counterexample :
  defaultMaxRetries <> 7%nat
  /\ callCount (snd (withRetry (@alwaysFails unit 429) None emptyWorld)) = 7%nat
  /\ ~ (callCount (snd (withRetry (@alwaysFails unit 429) None emptyWorld))
        = (7 + 1)%nat).
Proof.
  split; [discriminate|]. split; [reflexivity|].
  intros H. vm_compute in H. discriminate.
Qed.

(** C4, amended.  [withRetry(fn, maxRetries)] runs [fn] at most
    [maxRetries + 1] times, where an omitted [maxRetries] is six.  A
    closure that fails with status 429 on its first [k] calls, with
    [k <= maxRetries] (so in particular [k < maxRetries]), and then returns
    [v] makes [withRetry] return [v] after [k + 1] calls, each but the
    first preceded by one delay: [k] delayed re-invocations. *)
Theorem C4_retry_budget :
  forall (T : Type) (script : nat -> JsError + T) (v : T)
         (maxRetries : option nat) (k : nat) (w : World),
    let retries := match maxRetries with
                   | Some n => n
                   | None => 6%nat
                   end in
    (forall i, (i < k)%nat ->
       exists e, script (invocations w + i)%nat = inl e
                 /\ errorStatus e = Some 429) ->
    script (invocations w + k)%nat = inr v ->
    (k <= retries)%nat ->
    (forall (fn : Thunk T) (w0 : World),
       (callCount (snd (withRetry fn maxRetries w0)) <= retries + 1)%nat)
    /\ exists w' delays,
         withRetry (scripted script) maxRetries w
           = (inr v, w', retrySteps delays 1)
         /\ List.length delays = k
         /\ callCount (retrySteps delays 1) = (k + 1)%nat
         /\ delayCount (retrySteps delays 1) = k
         /\ invocations w' = (invocations w + k + 1)%nat.
Proof.
  intros T script v maxRetries k w retries Hfail Hok Hk. split.
  - intros fn w0. unfold withRetry.
    replace retries with
      (match maxRetries with Some n => n | None => defaultMaxRetries end)
      by reflexivity.
    apply pRetry_callCount.
  - destruct (pRetry_scripted script v k retries 1%nat w Hfail Hok Hk)
      as (w' & delays & E & Hl & Hi).
    exists w', delays. unfold withRetry.
    replace (match maxRetries with Some n => n | None => defaultMaxRetries end)
      with retries by reflexivity.
    destruct (retrySteps_counts delays 1) as [Hc Hd].
    repeat split; try assumption; lia.
Qed.

Lemma C4_retry_budget_witness :
  (2 <= 6)%nat
  /\ exists w' delays,
       withRetry (failsThenSucceeds 2 "ok") None emptyWorld
         = (inr "ok", w', retrySteps delays 1)
       /\ List.length delays = 2%nat.
Proof.
  split; [lia|].
  destruct (C4_retry_budget string
              (fun n => if (n <? 2)%nat then inl (httpError 429) else inr "ok")
              "ok" None 2%nat emptyWorld) as [_ (w' & delays & E & Hl & _)].
  - intros i Hi. exists (httpError 429). cbn [invocations emptyWorld Nat.add].
    destruct (Nat.ltb_spec i 2); [split; reflexivity | lia].
  - reflexivity.
  - lia.
  - exists w', delays. split; [exact E | exact Hl].
Defined.

(** C6. When [fn] fails with an error whose status is neither 429 nor 500
    or more (which includes an error without any status), [withRetry] has
    run [fn] once, slept no delay, and rejects with that very error in the
    world [fn] left. *)
Theorem C6_fatal_error_not_retried :
  forall (T : Type) (fn : Thunk T) (maxRetries : option nat)
         (w w1 : World) (e : JsError),
    fn w = (inl e, w1) ->
    errorStatus e <> Some 429 ->
    (forall s, errorStatus e = Some s -> s < 500) ->
    withRetry fn maxRetries w = (inl e, w1, [Called 1])
    /\ callCount (snd (withRetry fn maxRetries w)) = 1%nat
    /\ delayCount (snd (withRetry fn maxRetries w)) = 0%nat.
Proof.
  intros T fn maxRetries w w1 e Hfn H429 H500.
  assert (Hcb : onFailedAttempt e 1 w1 = (inl e, w1)).
  { unfold onFailedAttempt. destruct (errorStatus e) as [s|]; [|reflexivity].
    destruct (Z.eqb_spec s 429); [congruence|].
    specialize (H500 s eq_refl).
    destruct (Z.geb_spec s 500); [lia | reflexivity]. }
  assert (E : withRetry fn maxRetries w = (inl e, w1, [Called 1%nat])).
  { unfold withRetry.
    destruct (match maxRetries with Some n => n | None => defaultMaxRetries end);
      cbn [pRetry]; rewrite Hfn, Hcb; reflexivity. }
  rewrite E. repeat split.
Qed.

Lemma C6_fatal_error_not_retried_witness :
  errorStatus (httpError 400) <> Some 429
  /\ withRetry (@alwaysFails string 400) None emptyWorld
     = (inl (httpError 400), snd (@alwaysFails string 400 emptyWorld), [Called 1]).
Proof.
  split; [discriminate|].
  apply (C6_fatal_error_not_retried string (alwaysFails 400) None emptyWorld
           (snd (@alwaysFails string 400 emptyWorld)) (httpError 400)).
  - reflexivity.
  - discriminate.
  - intros s [= <-]. reflexivity.
Defined.

(** ** Messages *)

Section Messages.
Local Open Scope string_scope.

Lemma occursIn_app c a b :
  occursIn c (a ++ b) = occursIn c a || occursIn c b.
Proof.
  induction a as [|x a IH]; cbn; [reflexivity|].
  rewrite IH. apply orb_assoc.
Qed.

Lemma startsWith_occursIn c : forall p s,
  startsWith p s = true -> occursIn c p = true -> occursIn c s = true.
Proof.
  induction p as [|a p IH]; intros [|b s]; cbn; try discriminate.
  intros H Hc. apply andb_true_iff in H as [Hab Hp].
  apply Ascii.eqb_eq in Hab. subst b.
  apply orb_true_iff in Hc as [Hc|Hc]; [rewrite Hc; reflexivity|].
  rewrite (IH _ Hp Hc). apply orb_true_r.
Qed.

Lemma includes_occursIn c p : forall s,
  includes p s = true -> occursIn c p = true -> occursIn c s = true.
Proof.
  induction s as [|b s IH]; cbn [includes]; intros H Hc.
  - rewrite orb_false_r in H. exact (startsWith_occursIn c _ _ H Hc).
  - apply orb_true_iff in H as [H|H].
    + exact (startsWith_occursIn c _ _ H Hc).
    + cbn. rewrite (IH H Hc). apply orb_true_r.
Qed.

(** A string without the letter b does not contain the needle. *)
Lemma includes_needle_b s :
  occursIn "b" s = false -> includes timeoutNeedle s = false.
Proof.
  intros H. destruct (includes timeoutNeedle s) eqn:E; [|reflexivity].
  rewrite (includes_occursIn "b" _ _ E) in H by reflexivity. discriminate.
Qed.

Lemma string_of_uint_b d : occursIn "b" (NilEmpty.string_of_uint d) = false.
Proof. induction d; cbn; auto. Qed.

Lemma showZ_b n : occursIn "b" (showZ n) = false.
Proof.
  unfold showZ, NilZero.string_of_int.
  destruct (Z.to_int n) as [d|d]; unfold NilZero.string_of_uint.
  - destruct d; try reflexivity; apply string_of_uint_b.
  - destruct d; try reflexivity; cbn; apply string_of_uint_b.
Qed.

Lemma mapEstimateMessage_no_needle config estWeight :
  includes timeoutNeedle (mapEstimateMessage config estWeight) = false.
Proof.
  apply includes_needle_b. unfold mapEstimateMessage.
  repeat rewrite occursIn_app. rewrite !showZ_b. reflexivity.
Qed.

Lemma emptyResponseMessage_no_needle n :
  includes timeoutNeedle
    ("Empty response from model for document " ++ showZ n) = false.
Proof.
  apply includes_needle_b. rewrite occursIn_app, showZ_b. reflexivity.
Qed.

Lemma timeoutMessage_needle config estWeight remaining :
  includes timeoutNeedle (timeoutMessage config estWeight remaining) = true.
Proof. reflexivity. Qed.

End Messages.

(** ** The map loop *)

Section MapLoop.
Local Open Scope list_scope.

Variable env : Env.
Variable config : SummarizeCfg.

Lemma mapLoop_app pre : forall post i partials w,
  mapLoop env config i (pre ++ post) partials w =
  match mapLoop env config i pre partials w with
  | (inl e, w1) => (inl e, w1)
  | (inr partials', w1) =>
      mapLoop env config (i + List.length pre) post partials' w1
  end.
Proof.
  induction pre as [|doc pre IH]; intros post i partials w; cbn [mapLoop app].
  - rewrite Nat.add_0_r. reflexivity.
  - destruct (mapIteration env config i doc partials w) as [[e|ps] w1];
      [reflexivity|].
    rewrite IH. cbn [List.length]. rewrite Nat.add_succ_r. reflexivity.
Qed.

Lemma mapLoop_MapRun docs : forall i partials w partials' w',
  mapLoop env config i docs partials w = (inr partials', w') <->
  exists new, partials' = partials ++ new /\ MapRun env config i docs w new w'.
Proof.
  induction docs as [|doc rest IH]; intros i partials w partials' w';
    cbn [mapLoop].
  - split.
    + intros [= <- <-]. exists []. rewrite app_nil_r. split; [reflexivity|constructor].
    + intros (new & -> & H). inversion H; subst. rewrite app_nil_r. reflexivity.
  - unfold mapIteration.
    destruct (mapBody env config doc (emit (MapChunk i) w)) as [[e|[p|]] w1] eqn:Eb.
    + destruct (includes timeoutNeedle (message e)) eqn:En.
      * split; [discriminate|].
        intros (new & _ & H). inversion H; subst; congruence.
      * rewrite IH. split; intros (new & -> & H); exists new; (split; [reflexivity|]).
        -- eapply MapRun_skip; eassumption.
        -- inversion H; subst; congruence.
    + rewrite IH. split.
      * intros (new & -> & H). exists (p :: new). rewrite <- app_assoc.
        split; [reflexivity|]. eapply MapRun_success; eassumption.
      * intros (new & -> & H). inversion H; subst; try congruence.
        match goal with
        | Hb : mapBody _ _ _ _ = (inr (Some _), _) |- _ =>
            rewrite Eb in Hb; inversion Hb; subst
        end.
        eexists. rewrite <- app_assoc. split; [reflexivity|]. assumption.
    + rewrite IH. split; intros (new & -> & H); exists new; (split; [reflexivity|]).
      * eapply MapRun_nothing; eassumption.
      * inversion H; subst; congruence.
Qed.

Lemma waitForBudget_rejects polls estWeight startTime : forall w e w',
  waitForBudget polls config estWeight startTime w = (inl e, w') ->
  exists remaining, e = newError (timeoutMessage config estWeight remaining).
Proof.
  induction polls as [|polls IH]; intros w e w'; cbn [waitForBudget];
    unfold canUseTokens, getRemainingTokens; cbv zeta;
    destruct (_ <=? _); try discriminate;
    destruct (_ >? _); try (intros [= <- <-]; eauto; fail).
  apply IH.
Qed.

End MapLoop.

Section BudgetWait.
Local Open Scope list_scope.

Variable config : SummarizeCfg.

Lemma waitForBudget_trace polls estWeight startTime : forall w,
  exists polled,
    trace (snd (waitForBudget polls config estWeight startTime w))
      = trace w ++ polled
    /\ forallb isPoll polled = true
    /\ invocations (snd (waitForBudget polls config estWeight startTime w))
       = invocations w.
Proof.
  induction polls as [|polls IH]; intros w; cbn [waitForBudget];
    unfold canUseTokens, getRemainingTokens; cbv zeta;
    destruct (_ <=? _);
    try (eexists [_]; repeat split; fail);
    destruct (_ >? _);
    try (eexists [_]; repeat split; fail).
  match goal with
  | |- context [waitForBudget polls config estWeight startTime ?w2] =>
      destruct (IH w2) as (polled & Ht & Hp & Hi)
  end.
  rewrite Ht, Hi. cbn [trace sleep setTracker emit invocations].
  eexists (_ :: polled). rewrite <- app_assoc. repeat split. exact Hp.
Qed.

(** With [pollBudget] sleeps the loop has left by its own timeout check:
    more sleeps change nothing. *)
Lemma waitForBudget_polls estWeight startTime : forall polls extra w,
  TOKEN_BUDGET_TIMEOUT config - (now w - startTime) < 3000 * Z.of_nat polls ->
  waitForBudget (polls + extra) config estWeight startTime w
  = waitForBudget polls config estWeight startTime w.
Proof.
  induction polls as [|polls IH]; intros extra w Hlt.
  - destruct extra as [|extra]; [reflexivity|].
    cbn [Nat.add waitForBudget].
    unfold canUseTokens, getRemainingTokens; cbv zeta.
    destruct (_ <=? _); [reflexivity|].
    cbn [now setTracker emit].
    destruct (Z.gtb_spec (now w - startTime) (TOKEN_BUDGET_TIMEOUT config));
      [reflexivity | lia].
  - cbn [Nat.add waitForBudget].
    unfold canUseTokens, getRemainingTokens; cbv zeta.
    destruct (_ <=? _); [reflexivity|].
    destruct (_ >? _); [reflexivity|].
    apply IH. cbn [now sleep setTracker emit]. lia.
Qed.

Lemma awaitBudget_polls estWeight extra w :
  waitForBudget (pollBudget config + extra) config estWeight (now w) w
  = awaitBudget config estWeight w.
Proof.
  unfold awaitBudget. apply waitForBudget_polls.
  unfold pollBudget. rewrite Nat2Z.inj_succ.
  destruct (Z.le_gt_cases 0 (TOKEN_BUDGET_TIMEOUT config)) as [Hge|Hlt].
  - rewrite Z2Nat.id by (apply Z.div_pos; lia).
    pose proof (Z.mod_pos_bound (TOKEN_BUDGET_TIMEOUT config) 3000 ltac:(lia)).
    pose proof (Z.div_mod (TOKEN_BUDGET_TIMEOUT config) 3000 ltac:(lia)).
    lia.
  - lia.
Qed.

End BudgetWait.

(** C3 as stated fails: with 1000 tokens per minute, a first segment whose
    estimate is 1500 is skipped and the run goes on to summarise the second
    one; when it is the only segment the run does fail, but with the
    nothing-processed error of the map phase. *)
Lemma C3_oversized_counterexample :
  mapEstimate demoEnv demoCfg (demoDoc 0 "HUGE one") = 1500
  /\ TOKENS_PER_MINUTE demoCfg = 1000
  /\ fst (summarizeWithQueue demoEnv demoCfg 5
            [demoDoc 0 "HUGE one"; demoDoc 1 "two"] emptyWorld)
     = Resolved "<combine: <map: two>>"
  /\ fst (summarizeWithQueue demoEnv demoCfg 5
            [demoDoc 0 "HUGE one"] emptyWorld)
     = Rejected (newError ("MAP phase failed: " ++ noneProcessed)).
Proof. repeat split; vm_compute; reflexivity. Qed.

(** C3, amended.  A segment with page content whose estimate (prompt
    tokens plus [MAP_OUT_MAX]) exceeds [TOKENS_PER_MINUTE] is skipped: the
    iteration ends without a budget poll, without a model call and without
    touching the tracker, the partials are unchanged, and the loop goes on
    with the remaining segments.  When it is the only segment, the run
    rejects with the nothing-processed error of the map phase, no model
    call having been made. *)
Theorem C3_oversized_segment_skipped :
  forall (env : Env) (config : SummarizeCfg) (i : nat) (doc : Doc)
         (rest : list Doc) (partials : list string) (w : World),
    isEmpty (pageContent doc) = false ->
    mapEstimate env config doc > TOKENS_PER_MINUTE config ->
    mapIteration env config i doc partials w
      = (inr partials, emit (MapChunk i) w)
    /\ mapLoop env config i (doc :: rest) partials w
       = mapLoop env config (S i) rest partials (emit (MapChunk i) w)
    /\ forall (fuel : nat) (w0 : World),
         summarizeWithQueue env config fuel [doc] w0
         = (Rejected (newError ("MAP phase failed: " ++ noneProcessed)),
            emit (MapChunk 0) (makeQueue config w0)).
Proof.
  intros env config i doc rest partials w Hcontent Hest.
  assert (Hit : forall j ps v, mapIteration env config j doc ps v
                               = (inr ps, emit (MapChunk j) v)).
  { intros j ps v. unfold mapIteration, mapBody. rewrite Hcontent.
    unfold mapEstimate in Hest.
    destruct (Z.gtb_spec
                (countTokens env (mapPrompt_format env (pageContent doc))
                 + MAP_OUT_MAX config) (TOKENS_PER_MINUTE config)); [|lia].
    cbn [message newError]. rewrite mapEstimateMessage_no_needle. reflexivity. }
  split; [apply Hit|]. split.
  - cbn [mapLoop]. rewrite Hit. reflexivity.
  - intros fuel w0. unfold summarizeWithQueue, mapPhase. cbn [mapLoop].
    rewrite Hit. reflexivity.
Qed.

Lemma C3_oversized_segment_skipped_witness :
  isEmpty (pageContent (demoDoc 0 "HUGE one")) = false
  /\ mapEstimate demoEnv demoCfg (demoDoc 0 "HUGE one")
     > TOKENS_PER_MINUTE demoCfg
  /\ mapIteration demoEnv demoCfg 0 (demoDoc 0 "HUGE one") [] emptyWorld
     = (inr [], emit (MapChunk 0) emptyWorld).
Proof.
  split; [reflexivity|]. split; [reflexivity|].
  apply (C3_oversized_segment_skipped demoEnv demoCfg 0 (demoDoc 0 "HUGE one")
           [] [] emptyWorld); reflexivity.
Defined.



(** C9 as stated fails, in two ways.  First, a segment whose call fails
    for good is not always skipped.  The budget wait of the second segment
    is granted and its call is made seven times (the call and the six
    retries), each time answered with status 500: the retries are
    exhausted and no budget wait has timed out.  But the message of the
    provider's error contains the words "Token budget timeout", so the
    handler re-throws it: the run rejects, the third segment is never
    entered and the partial of the first is dropped.  Second, the run does
    not fail only when no segment succeeds: here the only segment succeeds
    and the run still rejects, in the reduce phase. *)
Lemma C9_failed_segment_counterexample :
  (exists w w1 w2 e,
     mapLoop quotingEnv demoCfg 0 [demoDoc 0 "one"] []
       (makeQueue demoCfg emptyWorld) = (inr ["<map: one>"], w)
     /\ awaitBudget demoCfg (mapEstimate quotingEnv demoCfg (demoDoc 1 "FAIL two"))
          (emit (MapChunk 1) w) = (inr tt, w1)
     /\ queueAdd (mapCall quotingEnv demoCfg (demoDoc 1 "FAIL two")
                    (mapPrompt_format quotingEnv "FAIL two")
                    (mapEstimate quotingEnv demoCfg (demoDoc 1 "FAIL two"))) w1
        = (inl e, w2)
     /\ status e = Some 500
     /\ message e = "upstream said: Token budget timeout"
     /\ invocations w2 = (invocations w1 + 7)%nat
     /\ summarizeWithQueue quotingEnv demoCfg 5
          [demoDoc 0 "one"; demoDoc 1 "FAIL two"; demoDoc 2 "three"] emptyWorld
        = (Rejected (newError ("MAP phase failed: " ++ message e)), w2)
     /\ chunksOf (trace w2) = [0%nat; 1%nat])
  /\ fst (mapPhase combineFailEnv demoCfg [demoDoc 0 "one"]
            (makeQueue demoCfg emptyWorld))
     = inr ["<map: one>"]
  /\ fst (summarizeWithQueue combineFailEnv demoCfg 5 [demoDoc 0 "one"] emptyWorld)
     = Rejected (newError ("REDUCE phase failed: "
                           ++ "Reduce operation failed: request failed")).
Proof.
  split; [|split; vm_compute; reflexivity].
  eexists _, _, _, _.
  split; [vm_compute; reflexivity|].
  split; [vm_compute; reflexivity|].
  split; [vm_compute; reflexivity|].
  split; [reflexivity|]. split; [reflexivity|].
  split; vm_compute; try reflexivity. split; reflexivity.
Qed.

(** C9, amended.  Take a segment whose budget wait is granted and whose
    queued call is rejected for good (retries exhausted, an error that is
    not retried, or an empty response).  When the message of the error
    does not contain "Token budget timeout" the segment is skipped: the
    iteration leaves the partials as they were and the loop goes on with
    the remaining segments.  When it does, the error leaves the loop, as a
    timeout of the budget wait would, and the remaining segments are not
    processed.  Whenever the map loop runs to its end, the partials are
    those of the segments whose body returned one, in order ([MapRun]);
    the map phase fails exactly when there is none, with the
    nothing-processed error; otherwise the run is the reduce phase on
    exactly these partials, which can still reject.  A run that resolves
    has run the loop to its end with at least one partial. *)
Theorem C9_failed_segment_skipped :
  forall (env : Env) (config : SummarizeCfg) (fuel i : nat) (doc : Doc)
         (partials : list string) (w w1 w2 : World) (e : JsError),
    let prompt := mapPrompt_format env (pageContent doc) in
    let estWeight := mapEstimate env config doc in
    isEmpty (pageContent doc) = false ->
    estWeight <= TOKENS_PER_MINUTE config ->
    awaitBudget config estWeight (emit (MapChunk i) w) = (inr tt, w1) ->
    queueAdd (mapCall env config doc prompt estWeight) w1 = (inl e, w2) ->
    (includes timeoutNeedle (message e) = false ->
     mapIteration env config i doc partials w = (inr partials, w2)
     /\ forall rest,
          mapLoop env config i (doc :: rest) partials w
          = mapLoop env config (S i) rest partials w2)
    /\ (includes timeoutNeedle (message e) = true ->
        mapIteration env config i doc partials w = (inl e, w2)
        /\ forall rest,
             mapLoop env config i (doc :: rest) partials w = (inl e, w2))
    /\ (forall (docs : list Doc) (w0 w' : World) (ps : list string),
          docs <> [] ->
          let start := makeQueue config w0 in
          mapLoop env config 0 docs [] start = (inr ps, w') ->
          MapRun env config 0 docs start ps w'
          /\ ((exists err, fst (mapPhase env config docs start) = inl err)
              <-> ps = [])
          /\ (ps = [] ->
              summarizeWithQueue env config fuel docs w0
              = (Rejected (newError ("MAP phase failed: " ++ noneProcessed)),
                 w'))
          /\ (ps <> [] ->
              summarizeWithQueue env config fuel docs w0
              = reducePhase env config fuel ps w'))
    /\ (forall (docs : list Doc) (w0 w' : World) (v : string),
          summarizeWithQueue env config fuel docs w0 = (Resolved v, w') ->
          exists p ps wl,
            mapLoop env config 0 docs [] (makeQueue config w0)
            = (inr (p :: ps), wl)
            /\ MapRun env config 0 docs (makeQueue config w0) (p :: ps) wl
            /\ reducePhase env config fuel (p :: ps) wl = (Resolved v, w')).
Proof.
  intros env config fuel i doc partials w w1 w2 e prompt estWeight
         Hcontent Hest Hwait Hcall.
  assert (Hit : mapIteration env config i doc partials w
                = if includes timeoutNeedle (message e)
                  then (inl e, w2) else (inr partials, w2)).
  { unfold mapIteration, mapBody. rewrite Hcontent.
    unfold estWeight, mapEstimate in Hest, Hwait, Hcall.
    destruct (Z.gtb_spec
                (countTokens env (mapPrompt_format env (pageContent doc))
                 + MAP_OUT_MAX config) (TOKENS_PER_MINUTE config)); [lia|].
    rewrite Hwait. unfold prompt in Hcall. rewrite Hcall. reflexivity. }
  split; [|split; [|split]].
  - intros Hneedle. rewrite Hneedle in Hit. split; [exact Hit|].
    intros rest. cbn [mapLoop]. rewrite Hit. reflexivity.
  - intros Hneedle. rewrite Hneedle in Hit. split; [exact Hit|].
    intros rest. cbn [mapLoop]. rewrite Hit. reflexivity.
  - intros docs w0 w' ps Hdocs start Hloop.
    destruct (proj1 (mapLoop_MapRun env config docs 0 [] start ps w') Hloop)
      as (new & Hps & Hrun).
    cbn [app] in Hps. subst new.
    split; [exact Hrun|].
    unfold summarizeWithQueue, mapPhase. fold start. rewrite Hloop.
    destruct docs as [|d ds]; [congruence|].
    destruct ps as [|p ps]; cbn [fst]; repeat split; try congruence; eauto.
    intros [err Herr]. discriminate.
  - intros docs w0 w' v. unfold summarizeWithQueue, mapPhase.
    destruct docs as [|d ds]; [discriminate|].
    destruct (mapLoop env config 0 (d :: ds) [] (makeQueue config w0))
      as [[err|[|p ps]] wl] eqn:Hloop; try discriminate.
    intros Hred. exists p, ps, wl. split; [reflexivity|]. split; [|exact Hred].
    destruct (proj1 (mapLoop_MapRun env config (d :: ds) 0 []
                       (makeQueue config w0) (p :: ps) wl) Hloop)
      as (new & Hps & Hrun).
    cbn [app] in Hps. subst new. exact Hrun.
Qed.

Lemma C9_failed_segment_skipped_witness :
  exists w w1 w2,
    mapLoop demoEnv demoCfg 0 [demoDoc 0 "one"] []
      (makeQueue demoCfg emptyWorld)
      = (inr ["<map: one>"], w)
    /\ awaitBudget demoCfg (mapEstimate demoEnv demoCfg (demoDoc 1 "FAIL two"))
         (emit (MapChunk 1) w) = (inr tt, w1)
    /\ queueAdd (mapCall demoEnv demoCfg (demoDoc 1 "FAIL two")
                   (mapPrompt_format demoEnv "FAIL two")
                   (mapEstimate demoEnv demoCfg (demoDoc 1 "FAIL two"))) w1
       = (inl (httpError 500), w2)
    /\ mapLoop demoEnv demoCfg 1 [demoDoc 1 "FAIL two"; demoDoc 2 "three"]
         ["<map: one>"] w
       = mapLoop demoEnv demoCfg 2 [demoDoc 2 "three"] ["<map: one>"] w2.
Proof.
  edestruct (C9_failed_segment_skipped demoEnv demoCfg 5 1
               (demoDoc 1 "FAIL two") ["<map: one>"]
               (snd (mapLoop demoEnv demoCfg 0 [demoDoc 0 "one"] []
                       (makeQueue demoCfg emptyWorld))))
    as (Hskip & _).
  - reflexivity.
  - vm_compute; discriminate.
  - vm_compute; reflexivity.
  - vm_compute; reflexivity.
  - eexists _, _, _.
    split; [vm_compute; reflexivity|].
    split; [vm_compute; reflexivity|].
    split; [vm_compute; reflexivity|].
    exact (proj2 (Hskip eq_refl) [demoDoc 2 "three"]).
Defined.

(** ** Traces of the map phase *)

Section Traces.
Local Open Scope list_scope.

Lemma serialFrom_app a : forall running b,
  serialFrom running (a ++ b) =
  match serialFrom running a with
  | Some running' => serialFrom running' b
  | None => None
  end.
Proof.
  induction a as [|ev a IH]; intros running b; cbn [app serialFrom];
    [reflexivity|].
  destruct ev, running; try reflexivity; apply IH.
Qed.

Lemma serialFrom_polls polled :
  forallb isPoll polled = true -> serialFrom false polled = Some false.
Proof.
  induction polled as [|ev polled IH]; cbn; [reflexivity|].
  destruct ev; cbn; try discriminate. exact IH.
Qed.

Lemma serialFrom_invokes invoked :
  forallb isInvoke invoked = true -> serialFrom true invoked = Some true.
Proof.
  induction invoked as [|ev invoked IH]; cbn; [reflexivity|].
  destruct ev; cbn; try discriminate. exact IH.
Qed.

Lemma chunksOf_app a b : chunksOf (a ++ b) = chunksOf a ++ chunksOf b.
Proof.
  induction a as [|ev a IH]; cbn; [reflexivity|].
  destruct ev; cbn; rewrite IH; reflexivity.
Qed.

Lemma last_cons {A : Type} (x d : A) l : last (x :: l) d = last l x.
Proof.
  revert x d. induction l as [|y l IH]; intros x d; [reflexivity|].
  change (last (x :: y :: l) d) with (last (y :: l) d).
  rewrite (IH y d), (IH y x). reflexivity.
Qed.

Lemma pushedBy_app a : forall cur b,
  pushedBy cur (a ++ b) = pushedBy cur a ++ pushedBy (last (chunksOf a) cur) b.
Proof.
  induction a as [|ev a IH]; intros cur b; [reflexivity|].
  destruct ev; cbn [app pushedBy chunksOf]; rewrite IH;
    try rewrite last_cons; reflexivity.
Qed.

Lemma plain_chunksOf d : forallb plain d = true -> chunksOf d = [].
Proof.
  induction d as [|ev d IH]; cbn; [reflexivity|].
  destruct ev; cbn; try discriminate; exact IH.
Qed.

Lemma plain_pushedBy d cur : forallb plain d = true -> pushedBy cur d = [].
Proof.
  induction d as [|ev d IH]; cbn; [reflexivity|].
  destruct ev; cbn; try discriminate; exact IH.
Qed.

Lemma forallb_weaken (P Q : Event -> bool) d :
  (forall ev, P ev = true -> Q ev = true) ->
  forallb P d = true -> forallb Q d = true.
Proof.
  intros HPQ. induction d as [|ev d IH]; cbn; [reflexivity|].
  intros H. apply andb_true_iff in H as [H1 H2].
  rewrite (HPQ _ H1), (IH H2). reflexivity.
Qed.

Lemma BodyTrace_serial d : BodyTrace d -> serialFrom false d = Some false.
Proof.
  intros (polled & Hp & [->|(invoked & Hi & ->)]).
  - apply serialFrom_polls, Hp.
  - rewrite serialFrom_app, (serialFrom_polls _ Hp). cbn [serialFrom].
    rewrite serialFrom_app, (serialFrom_invokes _ Hi). reflexivity.
Qed.

Lemma BodyTrace_plain d : BodyTrace d -> forallb plain d = true.
Proof.
  intros (polled & Hp & [->|(invoked & Hi & ->)]).
  - eapply forallb_weaken; [|exact Hp]. intros []; cbn; congruence.
  - rewrite forallb_app. cbn [forallb plain]. rewrite forallb_app.
    rewrite (forallb_weaken isPoll plain polled), (forallb_weaken isInvoke plain invoked);
      try assumption; try reflexivity; intros []; cbn; congruence.
Qed.

End Traces.

Section BodyTraces.
Local Open Scope list_scope.

Variable env : Env.
Variable config : SummarizeCfg.

Lemma onFailedAttempt_trace e n w :
  trace (snd (onFailedAttempt e n w)) = trace w.
Proof.
  unfold onFailedAttempt.
  destruct (errorStatus e) as [s|]; [|reflexivity].
  destruct (s =? 429); [reflexivity|].
  destruct (s >=? 500); reflexivity.
Qed.

Lemma pRetry_trace {T : Type} (fn : Thunk T) :
  (forall w, exists d, trace (snd (fn w)) = trace w ++ d
                       /\ forallb isInvoke d = true) ->
  forall retries n w,
    exists d,
      trace (snd (fst (pRetry fn onFailedAttempt retries n w))) = trace w ++ d
      /\ forallb isInvoke d = true.
Proof.
  intros Hfn. induction retries as [|r IH]; intros n w; cbn [pRetry];
    destruct (Hfn w) as (d & Hd & Hi);
    destruct (fn w) as [[e|v] w1]; cbn [snd] in Hd;
    try (exists d; split; assumption);
    pose proof (onFailedAttempt_trace e n w1) as Hcb;
    destruct (onFailedAttempt e n w1) as [[e'|ms] w2]; cbn [snd fst] in *;
    try (exists d; split; [congruence | assumption]).
  destruct (IH (S n) w2) as (d' & Hd' & Hi').
  destruct (pRetry fn onFailedAttempt r (S n) w2) as [[res w3] steps].
  cbn [snd fst] in *. exists (d ++ d'). split.
  - rewrite Hd', Hcb, Hd, app_assoc. reflexivity.
  - rewrite forallb_app, Hi, Hi'. reflexivity.
Qed.

Lemma mapCall_trace doc prompt estWeight w :
  exists d,
    trace (snd (mapCall env config doc prompt estWeight w)) = trace w ++ d
    /\ forallb isInvoke d = true.
Proof.
  exists [Invoke prompt (MAP_OUT_MAX config)]. split; [|reflexivity].
  unfold mapCall, invokeModel.
  destruct (reply_result _) as [e|res]; [reflexivity|].
  destruct (isEmpty (content res)); reflexivity.
Qed.

Lemma queueAdd_trace {T : Type} (fn : Thunk T) :
  (forall w, exists d, trace (snd (fn w)) = trace w ++ d
                       /\ forallb isInvoke d = true) ->
  forall w,
    exists invoked,
      trace (snd (queueAdd fn w))
        = trace w ++ QueueStart :: invoked ++ [QueueDone]
      /\ forallb isInvoke invoked = true.
Proof.
  intros Hfn w. unfold queueAdd, withRetry.
  destruct (pRetry_trace fn Hfn defaultMaxRetries 1%nat (emit QueueStart w))
    as (d & Hd & Hi).
  destruct (pRetry fn onFailedAttempt defaultMaxRetries 1%nat (emit QueueStart w))
    as [[r w1] steps].
  cbn [snd fst trace emit] in *. exists d. split; [|exact Hi].
  rewrite Hd, <- !app_assoc. reflexivity.
Qed.

Lemma mapBody_trace doc w :
  exists d,
    trace (snd (mapBody env config doc w)) = trace w ++ d /\ BodyTrace d.
Proof.
  unfold mapBody.
  destruct (isEmpty (pageContent doc)).
  { exists []. rewrite app_nil_r. split; [reflexivity|].
    exists []. split; [reflexivity | left; reflexivity]. }
  destruct (_ >? _).
  { exists []. rewrite app_nil_r. split; [reflexivity|].
    exists []. split; [reflexivity | left; reflexivity]. }
  unfold awaitBudget.
  match goal with
  | |- context [waitForBudget ?p config ?est ?st w] =>
      destruct (waitForBudget_trace config p est st w) as (polled & Ht & Hp & _);
      destruct (waitForBudget p config est st w) as [[e|u] w1]
  end; cbn [snd] in Ht.
  { exists polled. split; [exact Ht|].
    exists polled. split; [exact Hp | left; reflexivity]. }
  match goal with
  | |- context [queueAdd ?fn w1] =>
      destruct (queueAdd_trace fn (mapCall_trace _ _ _) w1) as (invoked & Hq & Hi);
      destruct (queueAdd fn w1) as [[e|partial] w2]
  end; cbn [snd] in Hq;
    try destruct (isEmpty partial); cbn [snd];
    (exists (polled ++ QueueStart :: invoked ++ [QueueDone]);
     split; [rewrite Hq, Ht, <- app_assoc; reflexivity|];
     exists polled; split; [exact Hp|]; right; exists invoked;
     split; [exact Hi | reflexivity]).
Qed.

(** One iteration adds its marker, what the body did, and at most one
    push, which comes last. *)
Lemma mapIteration_trace i doc partials w :
  exists d pushed,
    BodyTrace d
    /\ trace (snd (mapIteration env config i doc partials w))
       = trace w ++ MapChunk i :: d ++ map Push pushed
    /\ (List.length pushed <= 1)%nat
    /\ (forall ps, fst (mapIteration env config i doc partials w) = inr ps ->
          ps = partials ++ pushed)
    /\ (forall e, fst (mapIteration env config i doc partials w) = inl e ->
          pushed = []).
Proof.
  unfold mapIteration.
  destruct (mapBody_trace doc (emit (MapChunk i) w)) as (d & Ht & Hb).
  destruct (mapBody env config doc (emit (MapChunk i) w)) as [[e|[p|]] w1];
    cbn [snd trace emit] in Ht.
  - exists d, []. split; [exact Hb|].
    destruct (includes timeoutNeedle (message e)); cbn [fst snd map];
      rewrite Ht, app_nil_r, <- app_assoc;
      repeat split; try reflexivity; try (cbn; lia);
      try (intros ps [= <-]; rewrite app_nil_r; reflexivity);
      try discriminate.
  - exists d, [p]. split; [exact Hb|]. cbn [fst snd map trace emit].
    rewrite Ht, <- !app_assoc. repeat split; try (cbn; lia).
    + intros ps [= <-]. reflexivity.
    + discriminate.
  - exists d, []. split; [exact Hb|]. cbn [fst snd map].
    rewrite Ht, app_nil_r, <- app_assoc.
    repeat split; try (cbn; lia).
    intros ps [= <-]. rewrite app_nil_r. reflexivity.
Qed.

End BodyTraces.

Section LoopTrace.
Local Open Scope nat_scope.
Local Open Scope list_scope.

Variable env : Env.
Variable config : SummarizeCfg.

Lemma pushedBy_pushes cur pushed :
  pushedBy cur (map Push pushed) = map (pair cur) pushed.
Proof. induction pushed as [|p ps IH]; cbn; [|rewrite IH]; reflexivity. Qed.

Lemma serialFrom_pushes pushed :
  serialFrom false (map Push pushed) = Some false.
Proof. induction pushed as [|p ps IH]; cbn; [reflexivity | exact IH]. Qed.

Lemma chunksOf_pushes pushed : chunksOf (map Push pushed) = [].
Proof. induction pushed as [|p ps IH]; cbn; [reflexivity | exact IH]. Qed.

Lemma iteration_trace_facts i d pushed :
  BodyTrace d ->
  serialFrom false (MapChunk i :: d ++ map Push pushed) = Some false
  /\ chunksOf (MapChunk i :: d ++ map Push pushed) = [i]
  /\ forall cur,
       pushedBy cur (MapChunk i :: d ++ map Push pushed) = map (pair i) pushed.
Proof.
  intros Hb. pose proof (BodyTrace_plain d Hb) as Hplain.
  split; [|split].
  - cbn [serialFrom]. rewrite serialFrom_app, (BodyTrace_serial d Hb).
    apply serialFrom_pushes.
  - cbn [chunksOf]. rewrite chunksOf_app, (plain_chunksOf d Hplain),
      chunksOf_pushes. reflexivity.
  - intros cur. cbn [pushedBy].
    rewrite pushedBy_app, (plain_pushedBy d i Hplain),
      (plain_chunksOf d Hplain). cbn [last app]. apply pushedBy_pushes.
Qed.

Lemma mapLoop_trace docs : forall i partials w,
  exists delta,
    trace (snd (mapLoop env config i docs partials w)) = trace w ++ delta
    /\ serialFrom false delta = Some false
    /\ (exists m, m <= List.length docs
                  /\ chunksOf delta = seq i m
                  /\ (forall ps, fst (mapLoop env config i docs partials w) = inr ps ->
                        m = List.length docs))
    /\ (forall cur, pushedBy cur delta = pushedBy i delta)
    /\ StronglySorted lt (map fst (pushedBy i delta))
    /\ Forall (fun k => i <= k < i + List.length docs) (map fst (pushedBy i delta))
    /\ (forall ps, fst (mapLoop env config i docs partials w) = inr ps ->
          ps = partials ++ map snd (pushedBy i delta)).
Proof.
  induction docs as [|doc rest IH]; intros i partials w; cbn [mapLoop].
  - exists []. cbn. rewrite !app_nil_r. repeat split; try constructor.
    + exists 0. repeat split; auto.
    + intros ps [= <-]. reflexivity.
  - destruct (mapIteration_trace env config i doc partials w)
      as (d & pushed & Hb & Ht & Hlen & Hok & Herr).
    destruct (iteration_trace_facts i d pushed Hb) as (Hser & Hch & Hpb).
    destruct (mapIteration env config i doc partials w) as [[e|ps'] w1];
      cbn [fst snd] in *.
    + (* the iteration re-threw *)
      rewrite (Herr e eq_refl) in *. cbn [map] in *.
      exists (MapChunk i :: d ++ []). rewrite Hpb. cbn [map].
      repeat split; try assumption; try constructor; try discriminate.
      exists 1. cbn [List.length seq]. repeat split; [lia | exact Hch |].
      intros ps; discriminate.
    + (* the loop goes on *)
      specialize (Hok ps' eq_refl). subst ps'.
      destruct (IH (S i) (partials ++ pushed) w1)
        as (delta' & Ht' & Hser' & (m & Hm & Hch' & Hfull) & Hcur' & Hsort' & Hbound' & Hps').
      exists ((MapChunk i :: d ++ map Push pushed) ++ delta').
      assert (Hpushed : forall cur,
                 pushedBy cur ((MapChunk i :: d ++ map Push pushed) ++ delta')
                 = map (pair i) pushed ++ pushedBy (S i) delta').
      { intros cur. rewrite pushedBy_app, Hpb, Hch. cbn [last].
        rewrite (Hcur' i). reflexivity. }
      split; [rewrite Ht', Ht, <- app_assoc; reflexivity|].
      split; [rewrite serialFrom_app, Hser; exact Hser'|].
      split.
      { exists (S m). cbn [List.length seq]. repeat split; [lia | |].
        - rewrite chunksOf_app, Hch, Hch'. reflexivity.
        - intros ps Hps. rewrite (Hfull ps Hps). reflexivity. }
      split; [intros cur; rewrite !Hpushed; reflexivity|].
      rewrite Hpushed, !map_app, !map_map. cbn [fst snd].
      rewrite map_id.
      split; [|split].
      * destruct pushed as [|p [|p' pushed]]; cbn in Hlen; try lia; cbn [map app].
        -- exact Hsort'.
        -- constructor; [exact Hsort'|].
           eapply Forall_impl; [|exact Hbound']. cbn. intros k Hk. lia.
      * apply Forall_app. split.
        -- apply Forall_forall. intros k Hk. apply in_map_iff in Hk as (p & <- & _).
           cbn [List.length]. lia.
        -- eapply Forall_impl; [|exact Hbound']. cbn [List.length]. intros k Hk. lia.
      * intros ps Hps. rewrite (Hps' ps Hps), <- app_assoc. reflexivity.
Qed.

End LoopTrace.

(** ** The map phase on the event loop *)

Section MapTraces.
Local Open Scope nat_scope.
Local Open Scope list_scope.

Lemma MapTrace_plain entered below partials delta d :
  forallb plain d = true ->
  MapTrace entered below partials delta ->
  MapTrace entered below partials (delta ++ d).
Proof.
  intros Hd (Hc & Hp & Hs & Hb). unfold MapTrace.
  rewrite chunksOf_app, pushedBy_app, (plain_chunksOf d Hd),
    (plain_pushedBy d _ Hd), !app_nil_r.
  repeat split; assumption.
Qed.

Lemma MapTrace_weaken entered below below' partials delta :
  below <= below' ->
  MapTrace entered below partials delta ->
  MapTrace entered below' partials delta.
Proof.
  intros Hle (Hc & Hp & Hs & Hb). repeat split; try assumption.
  eapply Forall_impl; [|exact Hb]. cbn. intros k Hk. lia.
Qed.

Lemma MapTrace_chunk n partials delta :
  MapTrace n n partials delta ->
  MapTrace (S n) n partials (delta ++ [MapChunk n]).
Proof.
  intros (Hc & Hp & Hs & Hb). unfold MapTrace.
  rewrite chunksOf_app, pushedBy_app, Hc. cbn [chunksOf pushedBy].
  rewrite app_nil_r, seq_S. repeat split; assumption.
Qed.

Lemma last_seq n d : last (seq 0 (S n)) d = n.
Proof. rewrite seq_S. apply last_last. Qed.

Lemma StronglySorted_snoc (l : list nat) (x : nat) :
  StronglySorted lt l -> Forall (fun k => k < x) l ->
  StronglySorted lt (l ++ [x]).
Proof.
  induction 1 as [|a l Hs IH Ha]; intros Hx; cbn [app].
  - repeat constructor.
  - inversion Hx; subst. constructor; [apply IH; assumption|].
    apply Forall_app. split; [assumption | repeat constructor; assumption].
Qed.

Lemma MapTrace_push i partials delta p :
  MapTrace (S i) i partials delta ->
  MapTrace (S i) (S i) (partials ++ [p]) (delta ++ [Push p]).
Proof.
  intros (Hc & Hp & Hs & Hb). unfold MapTrace.
  rewrite chunksOf_app, pushedBy_app, Hc, last_seq. cbn [chunksOf pushedBy].
  rewrite app_nil_r, !map_app, Hp. cbn [map fst snd].
  repeat split; try reflexivity.
  - apply StronglySorted_snoc; assumption.
  - apply Forall_app. split.
    + eapply Forall_impl; [|exact Hb]. cbn. intros k Hk. lia.
    + repeat constructor.
Qed.

Lemma skipn_cons_lt {A : Type} i (l : list A) x rest :
  skipn i l = x :: rest ->
  i < List.length l /\ skipn (S i) l = rest /\ nth_error l i = Some x.
Proof.
  revert l. induction i as [|i IH]; intros [|a l]; cbn [skipn List.length];
    try discriminate.
  - intros [= -> ->]. repeat split. lia.
  - intros H. destruct (IH l H) as (Hlt & Hs & Hn).
    split; [lia|]. split; [exact Hs | exact Hn].
Qed.

Lemma serial_plain_false delta ev :
  serialFrom false delta = Some false ->
  serialFrom false [ev] = Some false ->
  serialFrom false (delta ++ [ev]) = Some false.
Proof. intros H1 H2. rewrite serialFrom_app, H1. exact H2. Qed.

Lemma takeNth_one {A : Type} k (x y : A) rest :
  takeNth k [x] = Some (y, rest) -> k = 0 /\ y = x /\ rest = [].
Proof.
  destruct k as [|k]; cbn [takeNth].
  - intros [= <- <-]. repeat split.
  - destruct k; discriminate.
Qed.

End MapTraces.

Section MapOnLoop.
Local Open Scope nat_scope.
Local Open Scope list_scope.

Variable env : Env.
Variable config : SummarizeCfg.
Variable docs : list Doc.
Variable w0 : World.

Lemma mapFrom_lands rest : forall i partials w delta,
  trace w = trace w0 ++ delta ->
  serialFrom false delta = Some false ->
  skipn i docs = rest ->
  i <= List.length docs ->
  MapTrace i i partials delta ->
  MapLands env config docs w0 (mapFrom i rest partials w).
Proof.
  induction rest as [|doc rest IH]; intros i partials w delta Ht Hs Hk Hi Hm;
    cbn [mapFrom].
  - exists delta. split; [exact Ht|]. split; [exact Hs|].
    split; [|exact I]. cbn [fst MapStands].
    exists i, i, partials. split; [exact Hi|]. split; [exact Hi|].
    split; [exact Hm|].
    intros ps Hps.
    assert (Hlen : List.length (skipn i docs) = 0) by (rewrite Hk; reflexivity).
    rewrite length_skipn in Hlen.
    unfold mapEnd in Hps. destruct partials; [discriminate|].
    injection Hps as <-. split; [reflexivity | lia].
  - destruct (skipn_cons_lt _ _ _ _ Hk) as (Hlt & Hrest & _).
    assert (Ht' : trace (emit (MapChunk i) w) = trace w0 ++ (delta ++ [MapChunk i]))
      by (cbn [trace emit]; rewrite Ht, app_assoc; reflexivity).
    assert (Hs' : serialFrom false (delta ++ [MapChunk i]) = Some false)
      by (apply serial_plain_false; [exact Hs | reflexivity]).
    pose proof (MapTrace_chunk _ _ _ Hm) as Hm'.
    destruct (isEmpty (pageContent doc)) eqn:Hcontent.
    + apply (IH (S i) partials _ _ Ht' Hs' Hrest); [lia|].
      apply (MapTrace_weaken _ i); [lia | exact Hm'].
    + exists (delta ++ [MapChunk i]). split; [exact Ht'|]. split; [exact Hs'|].
      split; [|exact I]. cbn [fst MapStands].
      split; [exact Hk|]. split; [exact Hcontent | exact Hm'].
Qed.

Lemma mapCatch_lands i doc rest partials error w delta :
  trace w = trace w0 ++ delta ->
  serialFrom false delta = Some false ->
  skipn i docs = doc :: rest ->
  MapTrace (S i) i partials delta ->
  MapLands env config docs w0 (mapCatch i rest partials error w).
Proof.
  intros Ht Hs Hk Hm. unfold mapCatch.
  destruct (skipn_cons_lt _ _ _ _ Hk) as (Hlt & Hrest & _).
  destruct (includes timeoutNeedle (message error)).
  - exists delta. split; [exact Ht|]. split; [exact Hs|].
    split; [|exact I]. cbn [fst MapStands].
    exists (S i), i, partials.
    split; [lia|]. split; [lia|]. split; [exact Hm|]. discriminate.
  - apply (mapFrom_lands rest (S i) partials w delta Ht Hs Hrest); [lia|].
    apply (MapTrace_weaken _ i); [lia | exact Hm].
Qed.

Lemma pollOnce_world estWeight startTime w :
  exists granted,
    trace (snd (pollOnce config estWeight startTime w))
    = trace w ++ [BudgetPoll estWeight granted]
    /\ now (snd (pollOnce config estWeight startTime w)) = now w
    /\ invocations (snd (pollOnce config estWeight startTime w))
       = invocations w.
Proof.
  unfold pollOnce, canUseTokens, getRemainingTokens. cbv zeta.
  destruct (_ <=? _)%Z; [eexists; repeat split|].
  destruct (_ >? _)%Z; eexists; repeat split.
Qed.

Lemma mapPoll_lands i doc rest partials prompt estWeight startTime w delta :
  trace w = trace w0 ++ delta ->
  serialFrom false delta = Some false ->
  MapStands env config docs
    (Tick (MapWaiting i doc rest partials prompt estWeight startTime)) delta ->
  (startTime <= now w)%Z ->
  MapLands env config docs w0
    (mapPoll env config i doc rest partials prompt estWeight startTime w).
Proof.
  intros Ht Hs [(Hk & Hcontent & Hm) Hpast] Hstart. unfold mapPoll.
  destruct (pollOnce_world estWeight startTime w) as (granted & Hp & Hnow & _).
  destruct (pollOnce config estWeight startTime w) as [polled w1].
  cbn [snd] in Hp, Hnow.
  assert (Ht' : trace w1 = trace w0 ++ (delta ++ [BudgetPoll estWeight granted]))
    by (rewrite Hp, Ht, app_assoc; reflexivity).
  assert (Hs' : serialFrom false (delta ++ [BudgetPoll estWeight granted])
                = Some false)
    by (apply serial_plain_false; [exact Hs | reflexivity]).
  assert (Hm' : MapTrace (S i) i partials
                  (delta ++ [BudgetPoll estWeight granted]))
    by (apply MapTrace_plain; [reflexivity | exact Hm]).
  destruct polled as [|e|].
  - exists (delta ++ [BudgetPoll estWeight granted]).
    split; [exact Ht'|]. split; [exact Hs'|]. split; [|exact I].
    cbn [fst MapStands].
    split; [split; [exact Hk|]; split; [exact Hcontent | exact Hm']|].
    exists prompt, estWeight. split; [exact Hpast | reflexivity].
  - eapply mapCatch_lands; eassumption.
  - exists (delta ++ [BudgetPoll estWeight granted]).
    split; [exact Ht'|]. split; [exact Hs'|].
    split; [|cbn [fst snd startedBefore]; lia].
    cbn [fst MapStands].
    split; [split; [exact Hk|]; split; [exact Hcontent | exact Hm'] | exact Hpast].
Qed.

Lemma mapWake_lands k w delta :
  trace w = trace w0 ++ delta ->
  serialFrom false delta = Some false ->
  MapStands env config docs (Tick k) delta ->
  startedBefore (Tick k) w ->
  MapLands env config docs w0 (mapWake env config k w).
Proof.
  intros Ht Hs Hst Hstart.
  destruct k as [i doc rest partials
                | i doc rest partials prompt estWeight startTime];
    cbn [mapWake].
  - destruct Hst as (Hk & Hcontent & Hm).
    destruct (Z.gtb_spec
                (countTokens env (mapPrompt_format env (pageContent doc))
                 + MAP_OUT_MAX config) (TOKENS_PER_MINUTE config)).
    + eapply mapCatch_lands; eassumption.
    + eapply mapPoll_lands; try eassumption; [|lia].
      cbn [MapStands].
      split; [split; [exact Hk|]; split; [exact Hcontent | exact Hm]|].
      split; [reflexivity|]. split; [reflexivity | exact H].
  - eapply mapPoll_lands; eassumption.
Qed.

Lemma mapSettled_lands job k r w delta :
  trace w = trace w0 ++ delta ->
  serialFrom false delta = Some false ->
  MapStands env config docs (Queued job k) delta ->
  MapLands env config docs w0 (mapSettled k r w).
Proof.
  intros Ht Hs Hst. destruct k as [i doc rest partials].
  destruct Hst as [(Hk & Hcontent & Hm) _]. cbn [mapSettled].
  destruct (skipn_cons_lt _ _ _ _ Hk) as (Hlt & Hrest & _).
  destruct r as [error|partial].
  - eapply mapCatch_lands; eassumption.
  - destruct (isEmpty partial).
    + apply (mapFrom_lands rest (S i) partials w delta Ht Hs Hrest); [lia|].
      apply (MapTrace_weaken _ i); [lia | exact Hm].
    + apply (mapFrom_lands rest (S i) (partials ++ [partial])
               (emit (Push partial) w) (delta ++ [Push partial])).
      * cbn [trace emit]. rewrite Ht, app_assoc. reflexivity.
      * apply serial_plain_false; [exact Hs | reflexivity].
      * exact Hrest.
      * lia.
      * apply MapTrace_push. exact Hm.
Qed.

Lemma MapStands_plain s delta d :
  forallb plain d = true ->
  MapStands env config docs s delta ->
  MapStands env config docs s (delta ++ d).
Proof.
  intros Hd.
  destruct s as [r | [i doc rest ps | i doc rest ps prompt est start]
                 | ms [i doc rest ps | i doc rest ps prompt est start]
                 | job [i doc rest ps]]; cbn [MapStands].
  - intros (entered & below & partials & H1 & H2 & Hm & Hr).
    exists entered, below, partials.
    split; [exact H1|]. split; [exact H2|].
    split; [apply MapTrace_plain; assumption | exact Hr].
  - intros (Hk & Hc & Hm). split; [exact Hk|].
    split; [exact Hc | apply MapTrace_plain; assumption].
  - intros [(Hk & Hc & Hm) Hp]. split; [|exact Hp].
    split; [exact Hk|]. split; [exact Hc | apply MapTrace_plain; assumption].
  - intros (Hk & Hc & Hm). split; [exact Hk|].
    split; [exact Hc | apply MapTrace_plain; assumption].
  - intros [(Hk & Hc & Hm) Hp]. split; [|exact Hp].
    split; [exact Hk|]. split; [exact Hc | apply MapTrace_plain; assumption].
  - intros [(Hk & Hc & Hm) Hj]. split; [|exact Hj].
    split; [exact Hk|]. split; [exact Hc | apply MapTrace_plain; assumption].
Qed.

(** The loop, alone in flight and with an empty queue, has gone on to
    [sw]. *)
Lemma suspend_MapInv sw (l : Loop MapWake MapQueue (list string)) s :
  MapLands env config docs w0 sw ->
  tasks l = [s] ->
  waitingJobs (queue l) = [] ->
  runningJobs (queue l) = [] ->
  concurrency (queue l) = QUEUE_CONCURRENCY config ->
  intervalCap (queue l) = REQUESTS_PER_MINUTE config ->
  interval (queue l) = QUEUE_INTERVAL config ->
  MapInv env config docs w0 (suspend 0 sw l).
Proof.
  intros (delta & Ht & Hs & Hst & Hsb) Htasks Hw Hr Hc Hcap Hint.
  destruct sw as [s' w']. cbn [fst snd] in *.
  exists s', delta. unfold suspend. cbn [tasks world queue fst snd].
  rewrite Htasks. cbn [setNth].
  split; [reflexivity|]. split; [exact Ht|]. split; [exact Hst|].
  split; [exact Hsb|].
  destruct s' as [r | k | ms k | job k]; cbn [enqueue];
    try (repeat split; assumption).
  cbn [addJob concurrency intervalCap interval waitingJobs runningJobs].
  rewrite Hw, Hr. cbn [app].
  split; [exact Hc|]. split; [exact Hcap|]. split; [exact Hint|].
  left. repeat split. exact Hs.
Qed.

Lemma MapInv_start : MapInv env config docs w0 (mapPhaseLoop config docs w0).
Proof.
  unfold mapPhaseLoop.
  assert (Hl : MapLands env config docs w0
                 (mapFrom 0 docs [] (makeQueue config w0))).
  { apply (mapFrom_lands docs 0 [] _ []).
    - cbn [trace makeQueue setTracker]. rewrite app_nil_r. reflexivity.
    - reflexivity.
    - reflexivity.
    - lia.
    - repeat split; constructor. }
  destruct Hl as (delta & Ht & Hs & Hst & Hsb).
  destruct (mapFrom 0 docs [] (makeQueue config w0)) as [s w'].
  cbn [fst snd] in *.
  exists s, delta. unfold spawn, idle.
  cbn [tasks world queue fst snd List.length app].
  split; [reflexivity|]. split; [exact Ht|]. split; [exact Hst|].
  split; [exact Hsb|].
  destruct s as [r | k | ms k | job k]; cbn [enqueue newPQueue addJob
    concurrency intervalCap interval waitingJobs runningJobs app];
    repeat split; try assumption.
  left. repeat split. exact Hs.
Qed.

Lemma mapJob_trace s delta job k w :
  MapStands env config docs s delta ->
  s = Queued job k ->
  exists d,
    trace (snd (fst (withRetry job None w))) = trace w ++ d
    /\ forallb isInvoke d = true.
Proof.
  intros Hst ->. destruct k as [i doc rest ps].
  destruct Hst as [_ (prompt & estWeight & _ & ->)].
  unfold withRetry. apply pRetry_trace. apply mapCall_trace.
Qed.

Lemma MapInv_turn t l l' :
  MapInv env config docs w0 l ->
  turn (mapWake env config) mapSettled t l = Some l' ->
  MapInv env config docs w0 l'.
Proof.
  intros (s & delta & Htasks & Ht & Hst & Hsb & Hc & Hcap & Hint & Hq) Hturn.
  destruct t as [n | | k |]; cbn [turn] in Hturn.
  - (* a wake-up *)
    rewrite Htasks in Hturn.
    destruct n as [|n]; [|destruct n; discriminate].
    cbn [nth_error] in Hturn.
    destruct s as [r | kf | ms kf | job kf]; try discriminate;
      destruct Hq as (Hw & Hr & Hs); injection Hturn as <-.
    + eapply suspend_MapInv; try eassumption.
      apply (mapWake_lands kf (world l) delta); assumption.
    + eapply suspend_MapInv; try eassumption.
      apply (mapWake_lands kf (sleep ms (world l)) delta);
        [exact Ht | exact Hs | exact Hst|].
      destruct kf; cbn [startedBefore now sleep] in *; [exact I | lia].
  - (* the queue starts a job *)
    unfold startJob in Hturn.
    destruct (waitingJobs (queue l)) as [|j rest] eqn:Ew; [discriminate|].
    destruct (hasRoom (queue l)); [|discriminate].
    injection Hturn as <-.
    destruct s as [r | kf | ms kf | job kf];
      try (destruct Hq as (Hw & _); discriminate).
    destruct Hq as [(Hw & Hr & Hs) | (Hw & _)]; [|discriminate].
    injection Hw as -> ->.
    exists (Queued job kf), (delta ++ [QueueStart]).
    cbn [tasks world queue trace emit concurrency intervalCap interval
         waitingJobs runningJobs].
    split; [exact Htasks|]. split; [rewrite Ht, app_assoc; reflexivity|].
    split; [apply MapStands_plain; [reflexivity | exact Hst]|].
    split; [exact I|].
    split; [exact Hc|]. split; [exact Hcap|]. split; [exact Hint|].
    right. rewrite Hr. repeat split.
    rewrite serialFrom_app, Hs. reflexivity.
  - (* a job settles *)
    unfold settleJob in Hturn.
    destruct (takeNth k (runningJobs (queue l))) as [[[n job] rest]|] eqn:Etake;
      [|discriminate].
    destruct s as [r | kf | ms kf | job' kf];
      try (destruct Hq as (_ & Hr & _); rewrite Hr in Etake;
           destruct k; discriminate).
    destruct Hq as [(_ & Hr & _) | (Hw & Hr & Hs)];
      [rewrite Hr in Etake; destruct k; discriminate|].
    rewrite Hr in Etake.
    destruct (takeNth_one _ _ _ _ Etake) as (-> & [= -> ->] & ->).
    rewrite Htasks in Hturn. cbn [nth_error] in Hturn.
    destruct (mapJob_trace _ _ job' kf (world l) Hst eq_refl) as (d & Hd & Hi).
    destruct (withRetry job' None (world l)) as [[r w1] steps].
    cbn [fst snd] in Hd. injection Hturn as <-.
    assert (Hplain : forallb plain (d ++ [QueueDone]) = true).
    { rewrite forallb_app, (forallb_weaken isInvoke plain d);
        [reflexivity | | exact Hi].
      intros []; cbn; congruence. }
    eapply suspend_MapInv; cbn [tasks queue waitingJobs runningJobs concurrency
                                 intervalCap interval]; try eassumption;
      try reflexivity.
    eapply (mapSettled_lands job' kf r _ (delta ++ d ++ [QueueDone])).
    + cbn [trace emit]. rewrite Hd, Ht, <- !app_assoc. reflexivity.
    + rewrite serialFrom_app, Hs, serialFrom_app,
        (serialFrom_invokes d Hi). reflexivity.
    + apply MapStands_plain; [exact Hplain | exact Hst].
  - (* the interval ends *)
    injection Hturn as <-.
    exists s, delta.
    cbn [tasks world queue trace passTo onInterval concurrency intervalCap
         interval waitingJobs runningJobs].
    split; [exact Htasks|]. split; [exact Ht|]. split; [exact Hst|].
    split.
    { destruct s as [r | [] | ms [] | job kf];
        cbn [startedBefore now passTo] in *; try exact I; lia. }
    split; [exact Hc|]. split; [exact Hcap|]. split; [exact Hint|]. exact Hq.
Qed.

Lemma MapInv_run turns : forall l l',
  MapInv env config docs w0 l ->
  run (mapWake env config) mapSettled turns l = Some l' ->
  MapInv env config docs w0 l'.
Proof.
  induction turns as [|t turns IH]; intros l l' Hinv; cbn [run].
  - intros [= <-]. exact Hinv.
  - destruct (turn (mapWake env config) mapSettled t l) as [l1|] eqn:Et;
      [|discriminate].
    apply IH. eapply MapInv_turn; eassumption.
Qed.

End MapOnLoop.

(** ** The event loop and [mapPhase] agree *)

Section MapAdequacy.
Local Open Scope nat_scope.
Local Open Scope list_scope.

Variable env : Env.
Variable config : SummarizeCfg.

Lemma mapPhaseFrom_nil i partials w :
  mapPhaseFrom env config i [] partials w = (mapEnd partials, w).
Proof. reflexivity. Qed.

Lemma mapPhaseFrom_cons i doc rest partials w :
  mapPhaseFrom env config i (doc :: rest) partials w
  = mapAfterBody env config i rest partials
      (mapBody env config doc (emit (MapChunk i) w)).
Proof.
  unfold mapPhaseFrom at 1. cbn [mapLoop]. unfold mapIteration.
  destruct (mapBody env config doc (emit (MapChunk i) w)) as [[e|[p|]] w1];
    cbn [mapAfterBody]; try reflexivity.
  destruct (includes timeoutNeedle (message e)); reflexivity.
Qed.

Lemma mapPhase_mapPhaseFrom docs w :
  mapPhase env config docs w = mapPhaseFrom env config 0 docs [] w.
Proof.
  unfold mapPhase, mapPhaseFrom.
  destruct (mapLoop env config 0 docs [] w) as [[e|[|p ps]] w1]; reflexivity.
Qed.

Lemma mapFrom_rest rest : forall i partials w,
  mapRestAt env config (fst (mapFrom i rest partials w)) false
    (snd (mapFrom i rest partials w))
  = mapPhaseFrom env config i rest partials w.
Proof.
  induction rest as [|doc rest IH]; intros i partials w; cbn [mapFrom].
  - reflexivity.
  - rewrite mapPhaseFrom_cons.
    destruct (isEmpty (pageContent doc)) eqn:Hc.
    + rewrite IH. unfold mapBody. rewrite Hc. reflexivity.
    + reflexivity.
Qed.

Lemma mapCatch_rest i rest partials error w :
  mapRestAt env config (fst (mapCatch i rest partials error w)) false
    (snd (mapCatch i rest partials error w))
  = mapAfterBody env config i rest partials (inl error, w).
Proof.
  unfold mapCatch. cbn [mapAfterBody].
  destruct (includes timeoutNeedle (message error)); [reflexivity|].
  apply mapFrom_rest.
Qed.

(** The budget wait of [awaitBudget], one evaluation of the loop condition
    at a time. *)
Lemma waitForBudget_unroll estWeight startTime w :
  (startTime <= now w)%Z ->
  waitForBudget (pollBudget config) config estWeight startTime w
  = match pollOnce config estWeight startTime w with
    | (Granted, w1) => (inr tt, w1)
    | (TimedOut e, w1) => (inl e, w1)
    | (Sleeps, w1) =>
        waitForBudget (pollBudget config) config estWeight startTime
          (sleep 3000 w1)
    end.
Proof.
  intros Hstart. unfold pollBudget at 1. cbn [waitForBudget].
  unfold pollOnce, canUseTokens, getRemainingTokens. cbv zeta.
  destruct (_ <=? _)%Z; [reflexivity|].
  destruct (_ >? _)%Z; [reflexivity|].
  rewrite <- (waitForBudget_polls config estWeight startTime
                (Z.to_nat (TOKEN_BUDGET_TIMEOUT config / 3000)) 1).
  - rewrite Nat.add_1_r. reflexivity.
  - cbn [now sleep setTracker emit].
    destruct (Z.le_gt_cases 0 (TOKEN_BUDGET_TIMEOUT config)) as [Hge|Hlt].
    + rewrite Z2Nat.id by (apply Z.div_pos; lia).
      pose proof (Z.mod_pos_bound (TOKEN_BUDGET_TIMEOUT config) 3000 ltac:(lia)).
      pose proof (Z.div_mod (TOKEN_BUDGET_TIMEOUT config) 3000 ltac:(lia)).
      lia.
    + lia.
Qed.

Lemma mapPoll_rest i doc rest partials prompt estWeight startTime w :
  prompt = mapPrompt_format env (pageContent doc) ->
  estWeight = mapEstimate env config doc ->
  (startTime <= now w)%Z ->
  mapRestAt env config
    (fst (mapPoll env config i doc rest partials prompt estWeight startTime w))
    false
    (snd (mapPoll env config i doc rest partials prompt estWeight startTime w))
  = mapAfterBody env config i rest partials
      (mapAfterWait env config doc
         (waitForBudget (pollBudget config) config estWeight startTime w)).
Proof.
  intros -> -> Hstart. rewrite waitForBudget_unroll by exact Hstart.
  unfold mapPoll.
  destruct (pollOnce config (mapEstimate env config doc) startTime w)
    as [[|e|] w1]; cbn [fst snd mapRestAt mapAfterWait].
  - reflexivity.
  - apply mapCatch_rest.
  - reflexivity.
Qed.

Lemma mapBody_content doc w :
  isEmpty (pageContent doc) = false ->
  mapBody env config doc w
  = if (mapEstimate env config doc >? TOKENS_PER_MINUTE config)%Z then
      (inl (newError (mapEstimateMessage config (mapEstimate env config doc))), w)
    else mapAfterWait env config doc
           (awaitBudget config (mapEstimate env config doc) w).
Proof.
  intros Hc. unfold mapBody, mapEstimate. rewrite Hc.
  destruct (_ >? _)%Z; [reflexivity|].
  unfold mapAfterWait, mapAfterCall.
  destruct (awaitBudget config _ w) as [[e|u] w1]; [reflexivity|].
  unfold mapEstimate.
  destruct (queueAdd _ w1) as [[e|p] w2]; reflexivity.
Qed.

Lemma mapWake_rest docs k w delta :
  MapStands env config docs (Tick k) delta ->
  startedBefore (Tick k) w ->
  mapRestAt env config (fst (mapWake env config k w)) false
    (snd (mapWake env config k w))
  = mapRestWake env config k w.
Proof.
  intros Hst Hstart.
  destruct k as [i doc rest partials
                | i doc rest partials prompt estWeight startTime];
    cbn [mapWake mapRestWake].
  - destruct Hst as (_ & Hcontent & _).
    rewrite (mapBody_content doc w Hcontent). unfold mapEstimate.
    destruct (_ >? _)%Z; [apply mapCatch_rest|].
    rewrite mapPoll_rest; [reflexivity | reflexivity | reflexivity | lia].
  - destruct Hst as [_ (Hp & He & _)]. cbn [startedBefore] in Hstart.
    rewrite (mapPoll_rest _ _ _ _ _ _ _ _ Hp He Hstart), He. reflexivity.
Qed.

Lemma mapSettled_rest i doc rest partials r w :
  mapRestAt env config
    (fst (mapSettled (MapQueued i doc rest partials) r w)) false
    (snd (mapSettled (MapQueued i doc rest partials) r w))
  = mapAfterBody env config i rest partials (mapAfterCall (r, w)).
Proof.
  cbn [mapSettled mapAfterCall]. destruct r as [error|partial].
  - apply mapCatch_rest.
  - destruct (isEmpty partial); rewrite mapFrom_rest; reflexivity.
Qed.

(** The rest of the phase is the same after a turn that is not the end of
    the queue's interval. *)
Lemma mapRest_turn docs w0 t l l' :
  MapInv env config docs w0 l ->
  isInterval t = false ->
  turn (mapWake env config) mapSettled t l = Some l' ->
  mapRest env config l' = mapRest env config l.
Proof.
  intros (s & delta & Htasks & Ht & Hst & Hsb & Hc & Hcap & Hint & Hq) Hni Hturn.
  unfold mapRest at 2. rewrite Htasks.
  destruct t as [n | | k |]; cbn [turn] in Hturn; [| | |discriminate].
  - rewrite Htasks in Hturn.
    destruct n as [|n]; [|destruct n; discriminate].
    cbn [nth_error] in Hturn.
    destruct s as [r | kf | ms kf | job kf]; try discriminate;
      destruct Hq as (Hw & Hr & Hs); injection Hturn as <-;
      unfold mapRest, suspend; cbn [tasks world queue]; rewrite Htasks, Hr;
      cbn [setNth mapRestAt].
    + rewrite <- (mapWake_rest docs kf (world l) delta Hst Hsb).
      destruct (mapWake env config kf (world l)) as [s' w']. cbn [fst snd].
      destruct s'; cbn [enqueue addJob runningJobs]; rewrite ?Hr; reflexivity.
    + rewrite <- (mapWake_rest docs kf (sleep ms (world l)) delta).
      * destruct (mapWake env config kf (sleep ms (world l))) as [s' w'].
        cbn [fst snd].
        destruct s'; cbn [enqueue addJob runningJobs]; rewrite ?Hr; reflexivity.
      * exact Hst.
      * destruct kf; cbn [startedBefore now sleep] in *; [exact I | lia].
  - unfold startJob in Hturn.
    destruct (waitingJobs (queue l)) as [|j rest] eqn:Ew; [discriminate|].
    destruct (hasRoom (queue l)); [|discriminate].
    injection Hturn as <-.
    destruct s as [r | kf | ms kf | job kf];
      try (destruct Hq as (Hw & _); discriminate).
    destruct Hq as [(Hw & Hr & Hs) | (Hw & _)]; [|discriminate].
    injection Hw as -> ->.
    unfold mapRest. cbn [tasks world queue runningJobs]. rewrite Htasks, Hr.
    cbn [app]. destruct kf as [i doc rest ps]. cbn [mapRestAt].
    unfold queueAdd. reflexivity.
  - unfold settleJob in Hturn.
    destruct (takeNth k (runningJobs (queue l))) as [[[n job] rest]|] eqn:Etake;
      [|discriminate].
    destruct s as [r | kf | ms kf | job' kf];
      try (destruct Hq as (_ & Hr & _); rewrite Hr in Etake;
           destruct k; discriminate).
    destruct Hq as [(_ & Hr & _) | (Hw & Hr & Hs)];
      [rewrite Hr in Etake; destruct k; discriminate|].
    rewrite Hr in Etake.
    destruct (takeNth_one _ _ _ _ Etake) as (-> & [= -> ->] & ->).
    rewrite Htasks in Hturn. cbn [nth_error] in Hturn.
    rewrite Hr. destruct kf as [i doc rest ps]. cbn [mapRestAt].
    destruct (withRetry job' None (world l)) as [[r w1] steps].
    pose proof (mapSettled_rest i doc rest ps r (emit QueueDone w1)) as Hrest.
    destruct (mapSettled (MapQueued i doc rest ps) r (emit QueueDone w1))
      as [s' w'] eqn:Eset.
    injection Hturn as <-.
    unfold mapRest, suspend. cbn [tasks world queue fst snd setNth] in *.
    rewrite <- Hrest.
    destruct s'; reflexivity.
Qed.

(** Every schedule in which the queue never waits for the end of its
    interval, and that lets the map phase settle, ends as [mapPhase]
    does: with the same outcome, in the same world. *)
Lemma mapPhaseLoop_mapPhase docs w0 turns l r :
  existsb isInterval turns = false ->
  run (mapWake env config) mapSettled turns (mapPhaseLoop config docs w0)
  = Some l ->
  tasks l = [Done r] ->
  mapPhase env config docs (makeQueue config w0) = (r, world l).
Proof.
  intros Hni Hrun Hdone.
  assert (Hgen : forall turns l0,
             MapInv env config docs w0 l0 ->
             existsb isInterval turns = false ->
             run (mapWake env config) mapSettled turns l0 = Some l ->
             mapRest env config l = mapRest env config l0).
  { clear turns Hni Hrun. induction turns as [|t turns IH];
      intros l0 Hinv Hni; cbn [run].
    - intros [= <-]. reflexivity.
    - cbn [existsb] in Hni. apply orb_false_iff in Hni as [Ht Hts].
      destruct (turn (mapWake env config) mapSettled t l0) as [l1|] eqn:Et;
        [|discriminate].
      intros Hrun. rewrite (IH l1 (MapInv_turn _ _ _ _ _ _ _ Hinv Et) Hts Hrun).
      eapply mapRest_turn; eassumption. }
  specialize (Hgen turns _ (MapInv_start env config docs w0) Hni Hrun).
  unfold mapRest at 1 in Hgen. rewrite Hdone in Hgen. cbn [mapRestAt] in Hgen.
  rewrite mapPhase_mapPhaseFrom.
  unfold mapRest, mapPhaseLoop, spawn, idle in Hgen.
  cbn [tasks world queue List.length app] in Hgen.
  rewrite <- (mapFrom_rest docs 0 [] (makeQueue config w0)).
  destruct (mapFrom 0 docs [] (makeQueue config w0)) as [s' w'].
  cbn [fst snd] in *.
  assert (Hsome : forall x y : (JsError + list string) * World,
             Some x = Some y -> x = y) by (intros x y [=]; assumption).
  destruct s'; cbn [enqueue newPQueue addJob runningJobs] in Hgen;
    apply Hsome in Hgen; symmetry; exact Hgen.
Qed.

End MapAdequacy.

(** ** The queue keeps its caps *)

Section QueueCaps.
Local Open Scope list_scope.

Variables WakeFrame QueueFrame R : Type.
Variable wake : WakeFrame -> World -> Susp WakeFrame QueueFrame R * World.
Variable settled :
  QueueFrame -> JsError + string -> World -> Susp WakeFrame QueueFrame R * World.

Lemma takeNth_length {A : Type} (l : list A) : forall k x rest,
  takeNth k l = Some (x, rest) -> List.length l = S (List.length rest).
Proof.
  induction l as [|a l IH]; intros k x rest;
    [destruct k; discriminate|].
  destruct k as [|k]; cbn [takeNth]; [intros [= <- <-]; reflexivity|].
  destruct (takeNth k l) as [[y rest']|] eqn:E; [|discriminate].
  intros [= <- <-]. cbn [List.length]. rewrite (IH _ _ _ E). reflexivity.
Qed.

Lemma enqueue_caps n (s : Susp WakeFrame QueueFrame R) q :
  WithinCaps q ->
  WithinCaps (enqueue n s q)
  /\ concurrency (enqueue n s q) = concurrency q
  /\ intervalCap (enqueue n s q) = intervalCap q.
Proof. intros H. destruct s; repeat split; apply H. Qed.

(** Whatever the functions in flight do, the queue never runs more jobs
    at a time than its [concurrency], nor starts more jobs in an interval
    than its [intervalCap], and both stay as [makeQueue] set them. *)
Lemma turn_caps t (l l' : Loop WakeFrame QueueFrame R) :
  WithinCaps (queue l) ->
  turn wake settled t l = Some l' ->
  WithinCaps (queue l')
  /\ concurrency (queue l') = concurrency (queue l)
  /\ intervalCap (queue l') = intervalCap (queue l).
Proof.
  intros Hcaps. destruct t as [n | | k |]; cbn [turn].
  - destruct (nth_error (tasks l) n) as [[r | kf | ms kf | job kf]|];
      try discriminate; intros [= <-]; cbn [queue suspend];
      apply enqueue_caps; exact Hcaps.
  - unfold startJob.
    destruct (waitingJobs (queue l)) as [|j rest]; [discriminate|].
    destruct (hasRoom (queue l)) eqn:Hroom; [|discriminate].
    intros [= <-]. cbn [queue]. unfold WithinCaps.
    cbn [runningJobs concurrency intervalCap intervalCount].
    unfold hasRoom in Hroom. apply andb_true_iff in Hroom as [H1 H2].
    apply Z.ltb_lt in H1, H2. rewrite length_app. cbn [List.length].
    repeat split; lia.
  - unfold settleJob.
    destruct (takeNth k (runningJobs (queue l))) as [[[n job] rest]|] eqn:E;
      [|discriminate].
    destruct (nth_error (tasks l) n) as [[r | kf | ms kf | job' kf]|];
      try discriminate.
    destruct (withRetry job None (world l)) as [[r w1] steps].
    intros [= <-]. cbn [queue suspend].
    match goal with
    | |- context [enqueue n ?s ?q] =>
        destruct (enqueue_caps n s q) as (H1 & H2 & H3)
    end.
    + destruct Hcaps as [Hc Hi]. split; cbn [runningJobs concurrency
                                               intervalCap intervalCount].
      * rewrite (takeNth_length _ _ _ _ E) in Hc. lia.
      * exact Hi.
    + rewrite H2, H3. split; [exact H1|]. split; reflexivity.
  - intros [= <-]. cbn [queue]. unfold WithinCaps, onInterval.
    cbn [runningJobs concurrency intervalCap intervalCount].
    destruct Hcaps as [Hc _]. repeat split; lia.
Qed.

Lemma run_caps turns : forall (l l' : Loop WakeFrame QueueFrame R),
  WithinCaps (queue l) ->
  run wake settled turns l = Some l' ->
  WithinCaps (queue l')
  /\ concurrency (queue l') = concurrency (queue l)
  /\ intervalCap (queue l') = intervalCap (queue l).
Proof.
  induction turns as [|t turns IH]; intros l l' Hcaps; cbn [run].
  - intros [= <-]. repeat split; apply Hcaps.
  - destruct (turn wake settled t l) as [l1|] eqn:Et; [|discriminate].
    destruct (turn_caps t l l1 Hcaps Et) as (H1 & H2 & H3).
    intros Hrun. destruct (IH l1 l' H1 Hrun) as (H4 & H5 & H6).
    split; [exact H4|]. split; congruence.
Qed.

End QueueCaps.

(** In a round of the reduce phase the jobs of the groups do run side by
    side: with the queue of [demoCfg], which allows four jobs at a time,
    the two jobs of a round of two groups are running together after four
    turns.  With a queue that allows one job at a time the second job
    cannot be started while the first is running; it is started once the
    first has settled. *)
Lemma reduceRound_side_by_side :
  let round config :=
    reduceRound [["a"; "b"]; ["c"; "d"]]
      (idle config (makeQueue config emptyWorld)) in
  (exists l,
     run (reduceWake demoEnv demoCfg) reduceSettled
       [Wake 0; Wake 1; Start; Start]%nat (round demoCfg) = Some l
     /\ QUEUE_CONCURRENCY demoCfg = 4
     /\ List.length (runningJobs (queue l)) = 2%nat)
  /\ run (reduceWake demoEnv oneAtATimeCfg) reduceSettled
       [Wake 0; Wake 1; Start; Start]%nat (round oneAtATimeCfg) = None
  /\ (exists l,
        run (reduceWake demoEnv oneAtATimeCfg) reduceSettled
          [Wake 0; Wake 1; Start; Settle 0; Start]%nat (round oneAtATimeCfg)
        = Some l
        /\ List.length (runningJobs (queue l)) = 1%nat).
Proof.
  cbv zeta. split; [|split].
  - eexists. split; [vm_compute; reflexivity|]. split; reflexivity.
  - vm_compute. reflexivity.
  - eexists. split; [vm_compute; reflexivity|]. reflexivity.
Qed.

(** C10. The map phase on the event loop, with the queue [makeQueue]
    configures, whatever [QUEUE_CONCURRENCY] and the other settings are
    and in whatever order the turns are taken.  The loop is the only
    function in flight.  The queue never holds more than one job,
    waiting or running; it holds one exactly while the loop is suspended
    at [await queue.add(...)], and that job is the map call of the document
    of the iteration the loop is in: when the loop enters an iteration,
    polls the budget or pushes, the call of the iteration before has
    settled.  So in the trace a job starts only when none is running, the
    iterations are entered in the order [0, 1, 2, ...], each push belongs
    to the iteration entered last, and the iterations of the pushes
    increase strictly.  The partials list is, at every point, the list of
    the pushes so far in this order; that holds for the list the phase
    returns, which (when the queue did not have to wait for its interval)
    is the list [mapPhase] returns and [summarizeWithQueue] hands to the
    reduce phase as it is. *)
Theorem C10_map_phase_sequential :
  forall (env : Env) (config : SummarizeCfg) (docs : list Doc) (w0 : World)
         (turns : list Turn) (l : Loop MapWake MapQueue (list string)),
    run (mapWake env config) mapSettled turns (mapPhaseLoop config docs w0)
    = Some l ->
    exists s delta,
      tasks l = [s]
      /\ trace (world l) = (trace w0 ++ delta)%list
      /\ concurrency (queue l) = QUEUE_CONCURRENCY config
      /\ (List.length (waitingJobs (queue l))
          + List.length (runningJobs (queue l)) <= 1)%nat
      /\ (awaitsQueue s = false ->
          waitingJobs (queue l) = [] /\ runningJobs (queue l) = [])
      /\ (forall job k,
            s = Queued job k ->
            (waitingJobs (queue l) ++ runningJobs (queue l))%list
            = [(0%nat, job)]
            /\ exists i doc,
                 iterationAt s = Some (i, doc)
                 /\ job = mapCall env config doc
                            (mapPrompt_format env (pageContent doc))
                            (mapEstimate env config doc))
      /\ serialFrom false delta
         = Some match runningJobs (queue l) with
                | [] => false
                | _ :: _ => true
                end
      /\ (exists entered,
            (entered <= List.length docs)%nat
            /\ chunksOf delta = seq 0 entered
            /\ (forall i doc,
                  iterationAt s = Some (i, doc) ->
                  entered = S i
                  /\ nth_error docs i = Some doc
                  /\ Forall (fun k => (k < i)%nat)
                       (map fst (pushedBy 0 delta)))
            /\ (forall ps, s = Done (inr ps) -> entered = List.length docs))
      /\ StronglySorted lt (map fst (pushedBy 0 delta))
      /\ Forall (fun k => (k < List.length docs)%nat)
           (map fst (pushedBy 0 delta))
      /\ (forall partials,
            partialsAt s = Some partials ->
            partials = map snd (pushedBy 0 delta))
      /\ (existsb isInterval turns = false ->
          forall r,
            s = Done r ->
            mapPhase env config docs (makeQueue config w0) = (r, world l)
            /\ forall fuel ps,
                 r = inr ps ->
                 summarizeWithQueue env config fuel docs w0
                 = reducePhase env config fuel ps (world l)).
Proof.
  intros env config docs w0 turns l Hrun.
  destruct (MapInv_run env config docs w0 turns _ _
              (MapInv_start env config docs w0) Hrun)
    as (s & delta & Htasks & Ht & Hst & Hsb & Hc & Hcap & Hint & Hq).
  exists s, delta.
  split; [exact Htasks|]. split; [exact Ht|]. split; [exact Hc|].
  assert (Hframe : forall i doc rest partials,
             skipn i docs = doc :: rest /\ isEmpty (pageContent doc) = false
             /\ MapTrace (S i) i partials delta ->
             (exists entered,
                (entered <= List.length docs)%nat
                /\ chunksOf delta = seq 0 entered
                /\ (forall i' doc',
                      Some (i, doc) = Some (i', doc') ->
                      entered = S i'
                      /\ nth_error docs i' = Some doc'
                      /\ Forall (fun k => (k < i')%nat)
                           (map fst (pushedBy 0 delta))))
             /\ StronglySorted lt (map fst (pushedBy 0 delta))
             /\ Forall (fun k => (k < List.length docs)%nat)
                  (map fst (pushedBy 0 delta))
             /\ partials = map snd (pushedBy 0 delta)).
  { intros i doc rest partials (Hk & _ & Hch & Hps & Hsort & Hbelow).
    destruct (skipn_cons_lt _ _ _ _ Hk) as (Hlt & _ & Hnth).
    split; [|split; [exact Hsort|split; [|symmetry; exact Hps]]].
    - exists (S i). split; [lia|]. split; [exact Hch|].
      intros i' doc' [= <- <-]. repeat split; assumption.
    - eapply Forall_impl; [|exact Hbelow]. cbn. intros k Hk'. lia. }
  destruct s as [r | kf | ms kf | job kf].
  - (* settled *)
    destruct Hq as (Hw & Hr & Hs). rewrite Hw, Hr, Hs.
    destruct Hst as (entered & below & partials & He & Hb
                     & (Hch & Hps & Hsort & Hbelow) & Hres).
    split; [cbn; lia|]. split; [intros _; split; reflexivity|].
    split; [intros job k; discriminate|]. split; [reflexivity|].
    split.
    { exists entered. split; [exact He|]. split; [exact Hch|].
      split; [intros i doc; discriminate|].
      intros ps [= ->]. apply (Hres ps eq_refl). }
    split; [exact Hsort|]. split.
    { eapply Forall_impl; [|exact Hbelow]. cbn. intros k Hk. lia. }
    split.
    { destruct r as [e|ps]; cbn [partialsAt]; [discriminate|].
      intros partials' [= <-]. rewrite Hps. apply (Hres ps eq_refl). }
    intros Hni r' [= <-].
    pose proof (mapPhaseLoop_mapPhase env config docs w0 turns l r Hni Hrun
                  Htasks) as Hphase.
    split; [exact Hphase|].
    intros fuel ps ->. unfold summarizeWithQueue.
    destruct docs as [|d ds]; [discriminate Hphase|].
    rewrite Hphase. reflexivity.
  - (* suspended at line 87 or line 114 *)
    destruct Hq as (Hw & Hr & Hs). rewrite Hw, Hr, Hs.
    split; [cbn; lia|]. split; [intros _; split; reflexivity|].
    split; [intros job k; discriminate|]. split; [reflexivity|].
    destruct kf as [i doc rest partials | i doc rest partials prompt est start];
      cbn [MapStands] in Hst; [|destruct Hst as [Hst _]];
      destruct (Hframe i doc rest partials Hst)
        as ((entered & He & Hch & Hit) & Hsort & Hbelow & Hps);
      (split; [exists entered; split; [exact He|]; split; [exact Hch|];
               split; [exact Hit | intros ps; discriminate]|]);
      (split; [exact Hsort|]); (split; [exact Hbelow|]);
      (split; [intros partials' [= <-]; exact Hps | intros _ r; discriminate]).
  - destruct Hq as (Hw & Hr & Hs). rewrite Hw, Hr, Hs.
    split; [cbn; lia|]. split; [intros _; split; reflexivity|].
    split; [intros job k; discriminate|]. split; [reflexivity|].
    destruct kf as [i doc rest partials | i doc rest partials prompt est start];
      cbn [MapStands] in Hst; [|destruct Hst as [Hst _]];
      destruct (Hframe i doc rest partials Hst)
        as ((entered & He & Hch & Hit) & Hsort & Hbelow & Hps);
      (split; [exists entered; split; [exact He|]; split; [exact Hch|];
               split; [exact Hit | intros ps; discriminate]|]);
      (split; [exact Hsort|]); (split; [exact Hbelow|]);
      (split; [intros partials' [= <-]; exact Hps | intros _ r; discriminate]).
  - (* suspended at line 120 *)
    destruct kf as [i doc rest partials].
    destruct Hst as [Hst (prompt & est & (Hp & He' & _) & Hjob)].
    destruct (Hframe i doc rest partials Hst)
      as ((entered & He & Hch & Hit) & Hsort & Hbelow & Hps).
    assert (Hone : (waitingJobs (queue l) ++ runningJobs (queue l))%list
                   = [(0%nat, job)]
                   /\ serialFrom false delta
                      = Some match runningJobs (queue l) with
                             | [] => false
                             | _ :: _ => true
                             end).
    { destruct Hq as [(Hw & Hr & Hs) | (Hw & Hr & Hs)]; rewrite Hw, Hr, Hs;
        split; reflexivity. }
    destruct Hone as [Hone Hs].
    split.
    { rewrite <- length_app, Hone. cbn. lia. }
    split; [discriminate|]. split.
    { intros job' k [= <- <-]. split; [exact Hone|].
      exists i, doc. split; [reflexivity|]. rewrite Hjob, Hp, He'. reflexivity. }
    split; [exact Hs|].
    split; [exists entered; split; [exact He|]; split; [exact Hch|];
            split; [exact Hit | intros ps; discriminate]|].
    split; [exact Hsort|]. split; [exact Hbelow|].
    split; [intros partials' [= <-]; exact Hps | intros _ r; discriminate].
Qed.

Lemma C10_map_phase_sequential_witness :
  exists l delta,
    run (mapWake demoEnv demoCfg) mapSettled
      [Wake 0; Start; Settle 0; Wake 0; Start; Settle 0]%nat
      (mapPhaseLoop demoCfg [demoDoc 0 "one"; demoDoc 1 "two"] emptyWorld)
    = Some l
    /\ QUEUE_CONCURRENCY demoCfg = 4
    /\ tasks l = [Done (inr ["<map: one>"; "<map: two>"])]
    /\ trace (world l) = (trace emptyWorld ++ delta)%list
    /\ pushedBy 0 delta = [(0%nat, "<map: one>"); (1%nat, "<map: two>")]
    /\ mapPhase demoEnv demoCfg [demoDoc 0 "one"; demoDoc 1 "two"]
         (makeQueue demoCfg emptyWorld)
       = (inr ["<map: one>"; "<map: two>"], world l).
Proof.
  eexists.
  edestruct (C10_map_phase_sequential demoEnv demoCfg
               [demoDoc 0 "one"; demoDoc 1 "two"] emptyWorld
               [Wake 0; Start; Settle 0; Wake 0; Start; Settle 0]%nat)
    as (s & delta & Htasks & Ht & _ & _ & _ & _ & _ & _ & _ & _ & _ & Hphase).
  - vm_compute. reflexivity.
  - assert (Hs : s = Done (inr ["<map: one>"; "<map: two>"]))
      by (vm_compute in Htasks; congruence).
    exists delta.
    split; [vm_compute; reflexivity|]. split; [reflexivity|].
    split; [rewrite Htasks, Hs; reflexivity|]. split; [exact Ht|].
    split.
    + vm_compute in Ht. apply (f_equal (pushedBy 0)) in Ht. cbn in Ht.
      symmetry. exact Ht.
    + exact (proj1 (Hphase eq_refl _ Hs)).
Defined.

(* ===================================================================== *)
(** * Part III: further properties of the code                            *)
(* ===================================================================== *)

(** ** TokenBudgetTracker: the window *)

Lemma resetIfNeeded_idempotent now t :
  resetIfNeeded now (resetIfNeeded now t) = resetIfNeeded now t.
Proof.
  unfold resetIfNeeded.
  destruct (Z.geb_spec (now - windowStart t) (windowMs t)) as [H|H]; cbn.
  - destruct (now - now >=? windowMs t); reflexivity.
  - destruct (Z.geb_spec (now - windowStart t) (windowMs t)); [lia | reflexivity].
Qed.

(** X1. Once the window has run out ([now - windowStart >= windowMs]), any
    access starts a new window at [now] with nothing used: the remaining
    budget is the whole capacity again whatever was used before, an
    estimate is admitted exactly when it fits the capacity, and a use
    leaves exactly its own amount in the counter.  The reset is idempotent
    at one instant. *)
Theorem X1_window_reset :
  forall (t : TokenBudgetTracker) (now e a : Z),
    windowMs t <= now - windowStart t ->
    usedTokens (resetIfNeeded now t) = 0
    /\ windowStart (resetIfNeeded now t) = now
    /\ fst (getRemainingTokens now t) = Z.max 0 (tokensPerMinute t)
    /\ (0 <= tokensPerMinute t ->
        fst (getRemainingTokens now t) = tokensPerMinute t)
    /\ (fst (canUseTokens e now t) = true <-> e <= tokensPerMinute t)
    /\ usedTokens (useTokens a now t) = a
    /\ windowStart (useTokens a now t) = now
    /\ snd (getRemainingTokens now (snd (getRemainingTokens now t)))
       = snd (getRemainingTokens now t).
Proof.
  intros t now e a Hexp.
  assert (Hr : resetIfNeeded now t =
               {| usedTokens := 0; windowStart := now;
                  windowMs := windowMs t; tokensPerMinute := tokensPerMinute t |}).
  { unfold resetIfNeeded.
    destruct (Z.geb_spec (now - windowStart t) (windowMs t)); [reflexivity | lia]. }
  unfold getRemainingTokens, canUseTokens, useTokens. cbn [fst snd].
  rewrite resetIfNeeded_idempotent, Hr. cbn.
  repeat split; lia.
Qed.

Lemma X1_window_reset_witness :
  windowMs (useTokens 900 10 (newTracker demoCfg 0))
    <= 60000 - windowStart (useTokens 900 10 (newTracker demoCfg 0))
  /\ fst (getRemainingTokens 60000 (useTokens 900 10 (newTracker demoCfg 0)))
     = 1000.
Proof.
  assert (H : windowMs (useTokens 900 10 (newTracker demoCfg 0))
              <= 60000 - windowStart (useTokens 900 10 (newTracker demoCfg 0)))
    by (cbn; lia).
  split; [exact H|].
  destruct (X1_window_reset (useTokens 900 10 (newTracker demoCfg 0))
              60000 0 0 H) as (_ & _ & _ & Hcap & _).
  apply Hcap. cbn. lia.
Defined.

(** X2. No operation of the tracker changes its window length or its
    capacity.  When [canUseTokens(e)] has admitted an estimate on a counter
    that is not negative, a later [useTokens(a)] with [a <= e], at whatever
    time and with no other use in between, leaves the counter within the
    capacity: the window is overshot only by a job that uses more than the
    estimate it was admitted with. *)
Theorem X2_granted_use_fits :
  forall (t : TokenBudgetTracker) (now now' e a : Z),
    0 <= usedTokens (resetIfNeeded now t) ->
    fst (canUseTokens e now t) = true ->
    a <= e ->
    let checked := snd (canUseTokens e now t) in
    usedTokens (useTokens a now' checked) <= tokensPerMinute t
    /\ windowMs (useTokens a now' checked) = windowMs t
    /\ tokensPerMinute (useTokens a now' checked) = tokensPerMinute t
    /\ windowMs (snd (getRemainingTokens now t)) = windowMs t
    /\ tokensPerMinute (snd (getRemainingTokens now t)) = tokensPerMinute t.
Proof.
  intros t now now' e a Hused Hcan Hae checked.
  unfold canUseTokens in Hcan, checked. cbn [fst snd] in Hcan, checked.
  apply Z.leb_le in Hcan. rewrite resetIfNeeded_capacity in Hcan.
  assert (Hw : forall n u, windowMs (resetIfNeeded n u) = windowMs u).
  { intros n u. unfold resetIfNeeded. destruct (_ >=? _); reflexivity. }
  split.
  - unfold useTokens. cbn [usedTokens]. subst checked.
    unfold resetIfNeeded at 1.
    destruct (_ >=? _); cbn [usedTokens]; lia.
  - unfold useTokens, getRemainingTokens.
    cbn [snd usedTokens windowMs tokensPerMinute]. subst checked.
    rewrite !Hw, !resetIfNeeded_capacity. repeat split; reflexivity.
Qed.

Lemma X2_granted_use_fits_witness :
  0 <= usedTokens (resetIfNeeded 10 (newTracker demoCfg 0))
  /\ fst (canUseTokens 600 10 (newTracker demoCfg 0)) = true
  /\ 550 <= 600
  /\ usedTokens (useTokens 550 20 (snd (canUseTokens 600 10 (newTracker demoCfg 0))))
     <= 1000.
Proof.
  assert (H1 : 0 <= usedTokens (resetIfNeeded 10 (newTracker demoCfg 0)))
    by (cbn; lia).
  assert (H2 : fst (canUseTokens 600 10 (newTracker demoCfg 0)) = true)
    by reflexivity.
  assert (H3 : 550 <= 600) by lia.
  split; [exact H1|]. split; [exact H2|]. split; [exact H3|].
  exact (proj1 (X2_granted_use_fits (newTracker demoCfg 0) 10 20 600 550
                  H1 H2 H3)).
Defined.

(** ** withRetry: exhaustion and the delays *)

Lemma onFailedAttempt_retryable e n w :
  (errorStatus e = Some 429
   \/ exists s, errorStatus e = Some s /\ 500 <= s) ->
  exists ms, onFailedAttempt e n w = (inr ms, sleep ms w).
Proof.
  unfold onFailedAttempt. intros [->|(s & -> & Hs)].
  - cbn [Z.eqb Pos.eqb]. eauto.
  - destruct (s =? 429); [eauto|].
    destruct (Z.geb_spec s 500); [eauto | lia].
Qed.

Lemma pRetry_exhausts {T : Type} (fn : Thunk T) :
  alwaysRetryable fn ->
  forall retries n w,
    (exists e, fst (fst (pRetry fn onFailedAttempt retries n w)) = inl e)
    /\ callCount (snd (pRetry fn onFailedAttempt retries n w)) = S retries.
Proof.
  intros Hfn. unfold callCount.
  induction retries as [|r IH]; intros n w; cbn [pRetry];
    destruct (Hfn w) as (e & w1 & -> & Hst);
    destruct (onFailedAttempt_retryable e n w1 Hst) as (ms & ->).
  - cbn. eauto.
  - destruct (IH (S n) (sleep ms w1)) as [[e' He'] Hc].
    destruct (pRetry fn onFailedAttempt r (S n) (sleep ms w1)) as [[res w3] steps].
    cbn in *. split; [eauto | lia].
Qed.

(** X3. A function that fails on every call with status 429 or with a
    status of 500 or more is run exactly [maxRetries + 1] times (seven
    times when the argument is omitted), and [withRetry] then rejects. *)
Theorem X3_retry_exhaustion :
  forall (T : Type) (fn : Thunk T) (maxRetries : option nat) (w : World),
    alwaysRetryable fn ->
    let retries := match maxRetries with
                   | Some n => n
                   | None => 6%nat
                   end in
    (exists e, fst (fst (withRetry fn maxRetries w)) = inl e)
    /\ callCount (snd (withRetry fn maxRetries w)) = (retries + 1)%nat.
Proof.
  intros T fn maxRetries w Hfn retries. unfold withRetry.
  destruct (pRetry_exhausts fn Hfn
              (match maxRetries with Some n => n | None => defaultMaxRetries end)
              1%nat w) as [He Hc].
  split; [exact He|]. rewrite Hc. unfold retries, defaultMaxRetries.
  destruct maxRetries; lia.
Qed.

Lemma alwaysFails_retryable {T : Type} :
  alwaysRetryable (@alwaysFails T 503).
Proof.
  intros w. unfold alwaysFails, scripted. eexists _, _.
  split; [reflexivity|]. right. exists 503. split; [reflexivity | lia].
Qed.

Lemma X3_retry_exhaustion_witness :
  alwaysRetryable (@alwaysFails string 503)
  /\ callCount (snd (withRetry (@alwaysFails string 503) (Some 2%nat) emptyWorld))
     = 3%nat.
Proof.
  split; [exact alwaysFails_retryable|].
  exact (proj2 (X3_retry_exhaustion string (alwaysFails 503) (Some 2%nat)
                  emptyWorld alwaysFails_retryable)).
Defined.

(** X4. After a failed attempt number [n >= 1], a server error (status 500
    or more) is followed by a sleep of [min(2^n * 1000, 8000)] ms: between
    2 s and 8 s, never shorter than after the attempt before, and 8 s from
    the third attempt on.  A 429 sleeps the retry-after value times 1000
    when the header is a number, whatever the attempt, and the same
    back-off otherwise.  The clock moves on by the delay (a negative
    retry-after sleeps nothing) and nothing else of the world changes. *)
Theorem X4_backoff_schedule :
  forall (e : JsError) (n : nat) (w : World),
    (1 <= n)%nat ->
    2000 <= backoff n <= 8000
    /\ backoff n <= backoff (S n)
    /\ ((3 <= n)%nat -> backoff n = 8000)
    /\ (forall s, errorStatus e = Some s -> 500 <= s ->
          onFailedAttempt e n w = (inr (backoff n), sleep (backoff n) w))
    /\ (forall r, errorStatus e = Some 429 -> retry_after e = Some r ->
          onFailedAttempt e n w = (inr (r * 1000), sleep (r * 1000) w))
    /\ (errorStatus e = Some 429 -> retry_after e = None ->
          onFailedAttempt e n w = (inr (backoff n), sleep (backoff n) w))
    /\ (forall ms, now (sleep ms w) = now w + Z.max 0 ms
                   /\ tokenTracker (sleep ms w) = tokenTracker w
                   /\ invocations (sleep ms w) = invocations w
                   /\ trace (sleep ms w) = trace w).
Proof.
  intros e n w Hn.
  assert (Hpow : forall m, (1 <= m)%nat -> 2 <= 2 ^ Z.of_nat m).
  { intros m Hm. change 2 with (2 ^ 1) at 1.
    apply Z.pow_le_mono_r; lia. }
  assert (Hmono : 2 ^ Z.of_nat n <= 2 ^ Z.of_nat (S n))
    by (apply Z.pow_le_mono_r; lia).
  pose proof (Hpow n Hn) as H2.
  unfold backoff. repeat split; try lia.
  - intros H3.
    assert (8 <= 2 ^ Z.of_nat n).
    { change 8 with (2 ^ 3). apply Z.pow_le_mono_r; lia. }
    lia.
  - intros s Hs H500. unfold onFailedAttempt. rewrite Hs.
    destruct (Z.eqb_spec s 429); [lia|].
    destruct (Z.geb_spec s 500); [reflexivity | lia].
  - intros r Hs Hr. unfold onFailedAttempt. rewrite Hs, Hr. reflexivity.
  - intros Hs Hr. unfold onFailedAttempt. rewrite Hs, Hr. reflexivity.
Qed.

Lemma X4_backoff_schedule_witness :
  (1 <= 2)%nat
  /\ backoff 2 = 4000
  /\ onFailedAttempt (httpError 503) 2 emptyWorld
     = (inr (backoff 2), sleep (backoff 2) emptyWorld).
Proof.
  split; [lia|]. split; [reflexivity|].
  destruct (X4_backoff_schedule (httpError 503) 2 emptyWorld ltac:(lia))
    as (_ & _ & _ & H & _).
  apply (H 503); [reflexivity | lia].
Defined.

(** ** hierarchicalReduce: the number of rounds *)

Section RoundCount.
Local Open Scope nat_scope.
Local Open Scope list_scope.

Lemma ceilDiv_bounds g n :
  1 <= g -> n <= g * ceilDiv n g /\ g * ceilDiv n g < n + g.
Proof.
  intros Hg. unfold ceilDiv.
  pose proof (Nat.div_mod_eq (n + g - 1) g) as Hdm.
  pose proof (Nat.mod_upper_bound (n + g - 1) g ltac:(lia)) as Hlt.
  split; lia.
Qed.

Lemma ceilDiv_pos g n : 1 <= g -> 1 <= n -> 1 <= ceilDiv n g.
Proof.
  intros Hg Hn. rewrite (ceilDiv_step g n Hg Hn). lia.
Qed.

(** When the reduction fulfils, the rounds it took are the least [r >= 1]
    with [N <= groupSize ^ r]. *)
Lemma hierarchicalReduce_rounds groupSize job :
  2 <= groupSize ->
  forall fuel texts w v w' rounds,
    1 <= List.length texts ->
    hierarchicalReduce fuel texts job groupSize w = (Resolved v, w', rounds) ->
    1 <= List.length rounds
    /\ List.length texts <= groupSize ^ List.length rounds
    /\ (2 <= List.length rounds ->
        groupSize ^ (List.length rounds - 1) < List.length texts).
Proof.
  intros HG. induction fuel as [|fuel IH]; intros texts w v w' rounds Hne Hrun;
    [discriminate|].
  destruct (Nat.le_gt_cases (List.length texts) groupSize) as [Hle|Hgt].
  - rewrite hierarchicalReduce_base in Hrun by exact Hle.
    injection Hrun as _ _ <-. cbn [List.length].
    rewrite Nat.pow_1_r. repeat split; lia.
  - destruct (groupsOf_total texts groupSize) as [groups Hg]; [lia|].
    rewrite (hierarchicalReduce_step _ _ _ _ _ groups) in Hrun by assumption.
    destruct (promiseAllMap job groups w) as [[e|level] w1] eqn:E;
      [discriminate|].
    assert (Hl : List.length level = ceilDiv (List.length texts) groupSize).
    { apply promiseAllMap_Collected, Collected_length in E. rewrite E.
      destruct (groupsFrom_spec texts groupSize ltac:(lia) _ _ _ Hg) as (-> & _).
      f_equal. lia. }
    destruct (hierarchicalReduce fuel level job groupSize w1)
      as [[o w2] rounds'] eqn:Erec.
    injection Hrun as -> -> <-.
    pose proof (ceilDiv_pos groupSize (List.length texts) ltac:(lia) Hne) as Hpos.
    destruct (ceilDiv_bounds groupSize (List.length texts) ltac:(lia)) as [Hlo Hhi].
    destruct (IH level w1 v w' rounds' ltac:(lia) Erec) as (Hr & Hup & Hdown).
    rewrite Hl in Hup, Hdown.
    cbn [List.length].
    remember (ceilDiv (List.length texts) groupSize) as M.
    remember (List.length rounds') as r.
    replace (S r - 1) with r by lia.
    rewrite Nat.pow_succ_r'.
    split; [lia|]. split.
    { apply Nat.le_trans with (groupSize * M);
        [exact Hlo | apply Nat.mul_le_mono_l; exact Hup]. }
    intros _.
    destruct (Nat.eq_dec r 1) as [Hr1|Hr1].
    + rewrite Hr1, Nat.pow_1_r. exact Hgt.
    + specialize (Hdown ltac:(lia)).
      replace r with (S (r - 1)) by lia. rewrite Nat.pow_succ_r'.
      pose proof (Nat.mul_le_mono_l _ _ groupSize Hdown) as Hmul.
      rewrite Nat.mul_succ_r in Hmul. lia.
Qed.

Lemma hierarchicalReduce_not_rejected groupSize job :
  alwaysFulfils job ->
  forall fuel texts w e,
    fst (fst (hierarchicalReduce fuel texts job groupSize w)) <> Rejected e.
Proof.
  intros Hj. induction fuel as [|fuel IH]; intros texts w e; [discriminate|].
  cbn [hierarchicalReduce].
  destruct (List.length texts <=? groupSize).
  - destruct (Hj (join separator texts) w) as (v & w1 & ->). discriminate.
  - destruct (groupsOf texts groupSize) as [groups|]; [|discriminate].
    destruct (promiseAllMap_fulfils _ Hj groups w) as (level & w1 & ->).
    specialize (IH level w1 e).
    destruct (hierarchicalReduce fuel level job groupSize w1) as [[o w2] rounds].
    exact IH.
Qed.

(** X5. With groups of two or more, a non-empty list and a job that never
    rejects, [hierarchicalReduce] fulfils, and the number [r] of rounds it
    takes is the least one with [N <= groupSize ^ r]: one round when
    [N <= groupSize], and [groupSize ^ (r - 1) < N <= groupSize ^ r]
    otherwise, that is [ceil(log_groupSize N)] rounds.  As many units of
    fuel as there are items are enough. *)
Theorem X5_rounds_logarithmic :
  forall (texts : list string) (job : Job) (groupSize : nat) (w : World),
    2 <= groupSize ->
    texts <> [] ->
    alwaysFulfils job ->
    exists v w' rounds,
      hierarchicalReduce (List.length texts) texts job groupSize w
        = (Resolved v, w', rounds)
      /\ 1 <= List.length rounds
      /\ List.length texts <= groupSize ^ List.length rounds
      /\ (2 <= List.length rounds ->
          groupSize ^ (List.length rounds - 1) < List.length texts).
Proof.
  intros texts job groupSize w HG Hne Hj.
  assert (Hlen : 1 <= List.length texts) by (destruct texts; [congruence | cbn; lia]).
  pose proof (hierarchicalReduce_settles groupSize job HG (List.length texts)
                texts w ltac:(lia) Hlen) as Hset.
  pose proof (hierarchicalReduce_not_rejected groupSize job Hj
                (List.length texts) texts w) as Hrej.
  destruct (hierarchicalReduce (List.length texts) texts job groupSize w)
    as [[o w'] rounds] eqn:E. cbn [fst] in Hset, Hrej.
  destruct o as [v|e|]; [|exfalso; exact (Hrej e eq_refl) | congruence].
  exists v, w', rounds. split; [reflexivity|].
  exact (hierarchicalReduce_rounds groupSize job HG _ _ _ _ _ _ Hlen E).
Qed.

Lemma X5_rounds_logarithmic_witness :
  2 <= 2
  /\ ["a"; "b"; "c"; "d"; "e"] <> []
  /\ alwaysFulfils bracketJob
  /\ exists v w' rounds,
       hierarchicalReduce 5 ["a"; "b"; "c"; "d"; "e"] bracketJob 2 emptyWorld
         = (Resolved v, w', rounds)
       /\ 5 <= 2 ^ List.length rounds.
Proof.
  split; [lia|]. split; [discriminate|]. split; [exact bracketJob_fulfils|].
  destruct (X5_rounds_logarithmic ["a"; "b"; "c"; "d"; "e"] bracketJob 2
              emptyWorld ltac:(lia) ltac:(discriminate) bracketJob_fulfils)
    as (v & w' & rounds & E & _ & Hup & _).
  exists v, w', rounds. split; [exact E | exact Hup].
Defined.

End RoundCount.

(** ** The budget wait *)

Section BudgetWaitBounds.

Variable config : SummarizeCfg.

Lemma pollBudget_enough :
  TOKEN_BUDGET_TIMEOUT config < 3000 * Z.of_nat (pollBudget config).
Proof.
  unfold pollBudget. rewrite Nat2Z.inj_succ.
  destruct (Z.le_gt_cases 0 (TOKEN_BUDGET_TIMEOUT config)) as [Hge|Hlt].
  - rewrite Z2Nat.id by (apply Z.div_pos; lia).
    pose proof (Z.mod_pos_bound (TOKEN_BUDGET_TIMEOUT config) 3000 ltac:(lia)).
    pose proof (Z.div_mod (TOKEN_BUDGET_TIMEOUT config) 3000 ltac:(lia)).
    lia.
  - lia.
Qed.

Lemma waitForBudget_bounded estWeight startTime : forall polls w,
  TOKEN_BUDGET_TIMEOUT config - (now w - startTime) < 3000 * Z.of_nat polls ->
  exists k : nat,
    now (snd (waitForBudget polls config estWeight startTime w))
      = now w + 3000 * Z.of_nat k
    /\ (k = 0%nat
        \/ now (snd (waitForBudget polls config estWeight startTime w))
           - startTime - 3000 <= TOKEN_BUDGET_TIMEOUT config)
    /\ match fst (waitForBudget polls config estWeight startTime w) with
       | inr _ =>
           usedTokens (tokenTracker
                         (snd (waitForBudget polls config estWeight startTime w)))
           + estWeight
           <= tokensPerMinute
                (tokenTracker
                   (snd (waitForBudget polls config estWeight startTime w)))
       | inl _ =>
           TOKEN_BUDGET_TIMEOUT config
           < now (snd (waitForBudget polls config estWeight startTime w))
             - startTime
       end.
Proof.
  induction polls as [|polls IH]; intros w Hfuel; cbn [waitForBudget];
    unfold canUseTokens, getRemainingTokens; cbv zeta;
    (destruct (Z.leb_spec
                (usedTokens (resetIfNeeded (now w) (tokenTracker w)) + estWeight)
                (tokensPerMinute (resetIfNeeded (now w) (tokenTracker w))))
      as [Hfit|Hfull];
     [exists 0%nat; cbn; repeat split; [lia | auto | exact Hfit] |]);
    cbn [now setTracker emit];
    (destruct (Z.gtb_spec (now w - startTime) (TOKEN_BUDGET_TIMEOUT config))
      as [Hout|Hin];
     [exists 0%nat; cbn; repeat split; [lia | auto | lia] |]).
  - lia.
  - match goal with
    | |- context [waitForBudget polls config estWeight startTime ?w2] =>
        remember w2 as wnext eqn:Ewn
    end.
    assert (Hn : now wnext = now w + 3000) by (subst wnext; reflexivity).
    destruct (IH wnext) as (k & Hnow & Hinv & Hres); [lia|].
    exists (S k). split; [lia|]. split; [|exact Hres].
    right. destruct Hinv as [->|Hinv]; lia.
Qed.

(** X6. The budget wait is bounded.  [awaitBudget] sleeps a whole number
    [k] of 3-second intervals and makes no model call; it returns as soon
    as a poll finds that the estimate fits (the counter plus the estimate
    is then within the capacity), and it rejects, with the budget-timeout
    message, only once more than [TOKEN_BUDGET_TIMEOUT] has passed.  In
    both cases the poll before the last one was within the timeout, so the
    wait never lasts longer than the timeout plus one interval. *)
Theorem X6_budget_wait_bounded :
  forall (estWeight : Z) (w : World),
    exists k : nat,
      now (snd (awaitBudget config estWeight w)) = now w + 3000 * Z.of_nat k
      /\ (k = 0%nat
          \/ 3000 * Z.of_nat k <= TOKEN_BUDGET_TIMEOUT config + 3000)
      /\ invocations (snd (awaitBudget config estWeight w)) = invocations w
      /\ match fst (awaitBudget config estWeight w) with
         | inr _ =>
             usedTokens (tokenTracker (snd (awaitBudget config estWeight w)))
             + estWeight
             <= tokensPerMinute
                  (tokenTracker (snd (awaitBudget config estWeight w)))
         | inl e =>
             TOKEN_BUDGET_TIMEOUT config < 3000 * Z.of_nat k
             /\ includes timeoutNeedle (message e) = true
         end.
Proof.
  intros estWeight w. unfold awaitBudget.
  destruct (waitForBudget_bounded estWeight (now w) (pollBudget config) w)
    as (k & Hnow & Hinv & Hres).
  { pose proof pollBudget_enough. lia. }
  destruct (waitForBudget_trace config (pollBudget config) estWeight (now w) w)
    as (_ & _ & _ & Hcalls).
  exists k. split; [exact Hnow|]. split; [|split; [exact Hcalls|]].
  - destruct Hinv as [->|Hinv]; [left; reflexivity | right; lia].
  - destruct (waitForBudget (pollBudget config) config estWeight (now w) w)
      as [[e|u] w'] eqn:E; cbn [fst snd] in *; [|exact Hres].
    split; [lia|].
    destruct (waitForBudget_rejects config _ _ _ _ _ _ E) as [remaining ->].
    apply timeoutMessage_needle.
Qed.

Lemma full_means_open t now estWeight :
  estWeight <= tokensPerMinute t ->
  tokensPerMinute (resetIfNeeded now t)
  < usedTokens (resetIfNeeded now t) + estWeight ->
  resetIfNeeded now t = t /\ now - windowStart t < windowMs t.
Proof.
  unfold resetIfNeeded.
  destruct (Z.geb_spec (now - windowStart t) (windowMs t)); cbn; intros; 
    [lia | split; [reflexivity | lia]].
Qed.

(** Where the window is no longer than the timeout, an estimate within the
    capacity is admitted, at the latest by the poll that finds the window
    run out. *)
Lemma waitForBudget_grants estWeight startTime : forall polls w,
  TOKEN_BUDGET_TIMEOUT config - (now w - startTime) < 3000 * Z.of_nat polls ->
  windowMs (tokenTracker w) <= TOKEN_BUDGET_TIMEOUT config ->
  estWeight <= tokensPerMinute (tokenTracker w) ->
  windowStart (tokenTracker w) <= startTime ->
  exists w', waitForBudget polls config estWeight startTime w = (inr tt, w').
Proof.
  induction polls as [|polls IH]; intros w Hfuel Hwin Hest Hstart;
    cbn [waitForBudget]; unfold canUseTokens, getRemainingTokens; cbv zeta;
    (destruct (Z.leb_spec
                (usedTokens (resetIfNeeded (now w) (tokenTracker w)) + estWeight)
                (tokensPerMinute (resetIfNeeded (now w) (tokenTracker w))))
      as [Hfit|Hfull]; [eauto|]);
    destruct (full_means_open (tokenTracker w) (now w) estWeight Hest Hfull)
      as [Hsame Hopen];
    cbn [now setTracker emit tokenTracker];
    (destruct (Z.gtb_spec (now w - startTime) (TOKEN_BUDGET_TIMEOUT config))
      as [Hout|Hin]; [lia|]).
  - lia.
  - apply IH; cbn [now sleep setTracker emit tokenTracker];
      rewrite ?resetIfNeeded_idempotent, ?Hsame; try assumption; lia.
Qed.

End BudgetWaitBounds.

(** ** Invariants of the retried, queued call *)

Section QueuedCall.
Local Open Scope list_scope.

Context {T : Type}.
Variable fn : Thunk T.

Lemma sleep_zero w : sleep 0 w = w.
Proof. destruct w. unfold sleep. cbn. rewrite Z.add_0_r. reflexivity. Qed.

Lemma onFailedAttempt_world e n w :
  exists ms, snd (onFailedAttempt e n w) = sleep ms w.
Proof.
  unfold onFailedAttempt.
  destruct (errorStatus e) as [s|];
    [|exists 0; rewrite sleep_zero; reflexivity].
  destruct (s =? 429); [eexists; reflexivity|].
  destruct (s >=? 500); [eexists; reflexivity|].
  exists 0. rewrite sleep_zero. reflexivity.
Qed.

Lemma onFailedAttempt_rethrows e n w e' w' :
  onFailedAttempt e n w = (inl e', w') -> e' = e.
Proof.
  unfold onFailedAttempt.
  destruct (errorStatus e) as [s|]; [|congruence].
  destruct (s =? 429); [discriminate|].
  destruct (s >=? 500); [discriminate | congruence].
Qed.

(** A property of the world that [fn] and sleeping keep is kept by the
    retry loop. *)
Lemma pRetry_preserves (P : World -> Prop) :
  (forall w, P w -> P (snd (fn w))) ->
  (forall ms w, P w -> P (sleep ms w)) ->
  forall retries n w,
    P w -> P (snd (fst (pRetry fn onFailedAttempt retries n w))).
Proof.
  intros Hfn Hsleep. induction retries as [|r IH]; intros n w Hw;
    cbn [pRetry]; specialize (Hfn w Hw);
    destruct (fn w) as [[e|v] w1]; cbn [snd fst] in *; try assumption;
    destruct (onFailedAttempt_world e n w1) as [ms Hms];
    destruct (onFailedAttempt e n w1) as [[e'|d] w2]; cbn [snd fst] in *;
    subst w2; try (apply Hsleep; assumption).
  specialize (IH (S n) (sleep ms w1) (Hsleep ms w1 Hfn)).
  destruct (pRetry fn onFailedAttempt r (S n) (sleep ms w1)) as [[res w3] steps].
  exact IH.
Qed.

(** Whatever the retry loop rejects with is an error [fn] threw. *)
Lemma pRetry_error (P : JsError -> Prop) :
  (forall w e w1, fn w = (inl e, w1) -> P e) ->
  forall retries n w e,
    fst (fst (pRetry fn onFailedAttempt retries n w)) = inl e -> P e.
Proof.
  intros Hfn. induction retries as [|r IH]; intros n w e; cbn [pRetry];
    destruct (fn w) as [[e0|v] w1] eqn:Efn; cbn [fst]; try discriminate;
    destruct (onFailedAttempt e0 n w1) as [[e'|d] w2] eqn:Ecb; cbn [fst];
    try (intros [= <-]; try (apply onFailedAttempt_rethrows in Ecb; subst);
         eapply Hfn; eassumption).
  specialize (IH (S n) w2 e).
  destruct (pRetry fn onFailedAttempt r (S n) w2) as [[res w3] steps].
  exact IH.
Qed.

(** Each run of [fn] is one call to the environment. *)
Lemma pRetry_invocations :
  (forall w, invocations (snd (fn w)) = S (invocations w)) ->
  forall retries n w,
    invocations (snd (fst (pRetry fn onFailedAttempt retries n w)))
    = (invocations w + callCount (snd (pRetry fn onFailedAttempt retries n w)))%nat.
Proof.
  intros Hfn. unfold callCount.
  induction retries as [|r IH]; intros n w; cbn [pRetry];
    specialize (Hfn w);
    destruct (fn w) as [[e|v] w1]; cbn [snd fst] in *;
    try (cbn; lia);
    destruct (onFailedAttempt_world e n w1) as [ms Hms];
    destruct (onFailedAttempt e n w1) as [[e'|d] w2]; cbn [snd fst] in *;
    subst w2; try (cbn; lia).
  specialize (IH (S n) (sleep ms w1)).
  destruct (pRetry fn onFailedAttempt r (S n) (sleep ms w1)) as [[res w3] steps].
  cbn in *. lia.
Qed.

Lemma pRetry_called retries n w :
  (1 <= callCount (snd (pRetry fn onFailedAttempt retries n w)))%nat.
Proof.
  unfold callCount.
  destruct retries as [|r]; cbn [pRetry];
    destruct (fn w) as [[e|v] w1]; try (cbn; lia);
    destruct (onFailedAttempt e n w1) as [[e'|d] w2]; try (cbn; lia).
  destruct (pRetry fn onFailedAttempt r (S n) w2) as [[res w3] steps].
  cbn. lia.
Qed.

(** When failed runs of [fn] leave the tracker alone, a rejected retry
    loop has left it alone, and a fulfilled one carries the tracker of the
    one successful run. *)
Lemma pRetry_tracker :
  (forall w e w1, fn w = (inl e, w1) -> tokenTracker w1 = tokenTracker w) ->
  forall retries n w,
    match fst (pRetry fn onFailedAttempt retries n w) with
    | (inl _, w') => tokenTracker w' = tokenTracker w
    | (inr v, w') =>
        exists wb, tokenTracker wb = tokenTracker w /\ fn wb = (inr v, w')
    end.
Proof.
  intros Hfn. induction retries as [|r IH]; intros n w; cbn [pRetry];
    pose proof (Hfn w) as Hw;
    destruct (fn w) as [[e|v] w1] eqn:Efn; cbn [snd fst] in *;
    try (exists w; split; [reflexivity | assumption]);
    specialize (Hw e w1 eq_refl);
    destruct (onFailedAttempt_world e n w1) as [ms Hms];
    destruct (onFailedAttempt e n w1) as [[e'|d] w2]; cbn [snd fst] in *;
    subst w2; try (cbn; assumption).
  specialize (IH (S n) (sleep ms w1)).
  destruct (pRetry fn onFailedAttempt r (S n) (sleep ms w1)) as [[[e'|v] w3] steps];
    cbn [fst] in *.
  - rewrite IH. exact Hw.
  - destruct IH as (wb & Hb & Hrun). exists wb. split; [|exact Hrun].
    rewrite Hb. exact Hw.
Qed.

(** The retry loop settles as the last run of [fn] did: a value is that
    run's value in the world it left; an error is that run's error, in the
    world it left but for the sleep of the callback.  Runs that failed
    before have left the tracker alone when failed runs do. *)
Lemma pRetry_last :
  (forall w e w1, fn w = (inl e, w1) -> tokenTracker w1 = tokenTracker w) ->
  (forall w, invocations (snd (fn w)) = S (invocations w)) ->
  forall retries n w,
    exists wb,
      tokenTracker wb = tokenTracker w
      /\ (invocations w <= invocations wb)%nat
      /\ match fst (pRetry fn onFailedAttempt retries n w) with
         | (inr v, w') => fn wb = (inr v, w')
         | (inl e, w') =>
             fst (fn wb) = inl e /\ exists ms, w' = sleep ms (snd (fn wb))
         end.
Proof.
  intros Htr Hinv. induction retries as [|r IH]; intros n w; cbn [pRetry];
    pose proof (Htr w) as Hw; pose proof (Hinv w) as Hi;
    destruct (fn w) as [[e|v] w1] eqn:Efn; cbn [snd fst] in *;
    try (exists w; rewrite Efn; repeat split; reflexivity || lia);
    specialize (Hw e w1 eq_refl);
    destruct (onFailedAttempt_world e n w1) as [ms Hms];
    destruct (onFailedAttempt e n w1) as [[e'|d] w2] eqn:Ecb; cbn [snd fst] in *;
    subst w2;
    try (exists w; rewrite Efn; cbn [fst snd];
         try (apply onFailedAttempt_rethrows in Ecb; subst e');
         repeat split; try reflexivity; try lia; eexists; reflexivity).
  destruct (IH (S n) (sleep ms w1)) as (wb & Hb & Hle & Hlast).
  destruct (pRetry fn onFailedAttempt r (S n) (sleep ms w1)) as [[res w3] steps].
  cbn [fst] in *. exists wb.
  split; [rewrite Hb; exact Hw|].
  split; [cbn [invocations sleep] in Hle; lia | exact Hlast].
Qed.

End QueuedCall.

(** ** The run: tracker, calls and partials *)

Section RunInvariants.
Local Open Scope list_scope.

Variable env : Env.
Variable config : SummarizeCfg.

Lemma trackerOf_sleep ms w : trackerOf config w -> trackerOf config (sleep ms w).
Proof. unfold trackerOf. cbn. intros (? & ? & ?). repeat split; try assumption; lia. Qed.

Lemma trackerOf_emit ev w : trackerOf config w -> trackerOf config (emit ev w).
Proof. unfold trackerOf. cbn. tauto. Qed.

Lemma trackerOf_reset w :
  trackerOf config w ->
  trackerOf config (setTracker (resetIfNeeded (now w) (tokenTracker w)) w).
Proof.
  unfold trackerOf, resetIfNeeded. intros (? & ? & ?).
  destruct (_ >=? _); cbn; repeat split; try assumption; lia.
Qed.

Lemma trackerOf_use a w :
  trackerOf config w ->
  trackerOf config (setTracker (useTokens a (now w) (tokenTracker w)) w).
Proof.
  unfold trackerOf, useTokens, resetIfNeeded. intros (? & ? & ?).
  destruct (_ >=? _); cbn; repeat split; try assumption; lia.
Qed.

Lemma trackerOf_makeQueue w : trackerOf config (makeQueue config w).
Proof. unfold trackerOf, makeQueue. cbn. repeat split; lia. Qed.

Lemma waitForBudget_trackerOf estWeight startTime : forall polls w,
  trackerOf config w ->
  trackerOf config (snd (waitForBudget polls config estWeight startTime w)).
Proof.
  induction polls as [|polls IH]; intros w Hw; cbn [waitForBudget];
    unfold canUseTokens, getRemainingTokens; cbv zeta;
    pose proof (trackerOf_emit (BudgetPoll estWeight true) _ (trackerOf_reset w Hw)) as Ht;
    pose proof (trackerOf_reset _
                  (trackerOf_emit (BudgetPoll estWeight false) _
                     (trackerOf_reset w Hw))) as Hf;
    destruct (_ <=? _); try exact Ht;
    destruct (_ >? _); try exact Hf.
  apply IH, trackerOf_sleep. exact Hf.
Qed.

Lemma invokeModel_world prompt maxTokens w :
  exists ms,
    snd (invokeModel env prompt maxTokens w)
    = {| now := now w + Z.max 0 ms;
         tokenTracker := tokenTracker w;
         invocations := S (invocations w);
         trace := trace w ++ [Invoke prompt maxTokens] |}.
Proof. unfold invokeModel. eexists. reflexivity. Qed.

Lemma mapCall_trackerOf doc prompt estWeight w :
  trackerOf config w ->
  trackerOf config (snd (mapCall env config doc prompt estWeight w)).
Proof.
  intros Hw. unfold mapCall.
  assert (Hi : trackerOf config (snd (invokeModel env prompt (MAP_OUT_MAX config) w))).
  { unfold invokeModel, trackerOf in *. cbn. destruct Hw as (? & ? & ?).
    repeat split; try assumption. lia. }
  destruct (invokeModel env prompt (MAP_OUT_MAX config) w) as [[e|res] w1];
    cbn [snd] in *; [exact Hi|].
  destruct (isEmpty (content res)); cbn [snd]; [exact Hi|].
  apply trackerOf_use. exact Hi.
Qed.

Lemma mapCall_invocations doc prompt estWeight w :
  invocations (snd (mapCall env config doc prompt estWeight w))
  = S (invocations w).
Proof.
  unfold mapCall, invokeModel.
  destruct (reply_result _) as [e|res]; [reflexivity|].
  destruct (isEmpty (content res)); reflexivity.
Qed.

Lemma mapCall_rejected doc prompt estWeight w e w1 :
  mapCall env config doc prompt estWeight w = (inl e, w1) ->
  tokenTracker w1 = tokenTracker w
  /\ (reply_result (model_invoke env (invocations w) prompt (MAP_OUT_MAX config))
        = inl e
      \/ e = newError ("Empty response from model for document "
                       ++ showZ (chunk doc + 1))).
Proof.
  unfold mapCall, invokeModel.
  destruct (reply_result _) as [e0|res] eqn:Er.
  - intros [= <- <-]. split; [reflexivity | left; reflexivity].
  - destruct (isEmpty (content res)); [|discriminate].
    intros [= <- <-]. split; [reflexivity | right; reflexivity].
Qed.

Lemma mapCall_fulfilled doc prompt estWeight w v w1 :
  mapCall env config doc prompt estWeight w = (inr v, w1) ->
  exists res,
    reply_result (model_invoke env (invocations w) prompt (MAP_OUT_MAX config))
      = inr res
    /\ isEmpty (content res) = false
    /\ v = trim (content res)
    /\ tokenTracker w1
       = useTokens (orElse (usedTokensFromMessage res) estWeight) (now w1)
           (tokenTracker w).
Proof.
  unfold mapCall, invokeModel.
  destruct (reply_result _) as [e0|res] eqn:Er; [discriminate|].
  destruct (isEmpty (content res)) eqn:Ec; [discriminate|].
  intros [= <- <-]. exists res. repeat split; assumption.
Qed.

Lemma queueAdd_mapCall_trackerOf doc prompt estWeight w :
  trackerOf config w ->
  trackerOf config (snd (queueAdd (mapCall env config doc prompt estWeight) w)).
Proof.
  intros Hw. unfold queueAdd, withRetry.
  pose proof (pRetry_preserves (mapCall env config doc prompt estWeight)
                (trackerOf config)
                (fun v => mapCall_trackerOf doc prompt estWeight v)
                trackerOf_sleep defaultMaxRetries 1%nat (emit QueueStart w)
                (trackerOf_emit _ _ Hw)) as Hinv.
  destruct (pRetry _ onFailedAttempt defaultMaxRetries 1%nat (emit QueueStart w))
    as [[res w1] steps].
  apply trackerOf_emit. exact Hinv.
Qed.

(** What the queued, retried map call does to the call counter and to the
    tracker. *)
Lemma queueAdd_mapCall doc prompt estWeight w :
  let r := queueAdd (mapCall env config doc prompt estWeight) w in
  (invocations w < invocations (snd r) <= invocations w + 7)%nat
  /\ match fst r with
     | inl e =>
         tokenTracker (snd r) = tokenTracker w
         /\ ((exists n, reply_result
                          (model_invoke env n prompt (MAP_OUT_MAX config)) = inl e)
             \/ e = newError ("Empty response from model for document "
                              ++ showZ (chunk doc + 1)))
     | inr v =>
         exists res nowCall,
           isEmpty (content res) = false
           /\ v = trim (content res)
           /\ tokenTracker (snd r)
              = useTokens (orElse (usedTokensFromMessage res) estWeight) nowCall
                  (tokenTracker w)
     end.
Proof.
  intros r. subst r. unfold queueAdd, withRetry.
  set (fn := mapCall env config doc prompt estWeight).
  set (w0 := emit QueueStart w).
  pose proof (pRetry_invocations fn
                (fun v => mapCall_invocations doc prompt estWeight v)
                defaultMaxRetries 1%nat w0) as Hcalls.
  pose proof (pRetry_callCount fn onFailedAttempt defaultMaxRetries 1%nat w0)
    as Hle.
  pose proof (pRetry_tracker fn
                (fun v e v1 H => proj1 (mapCall_rejected doc prompt estWeight v e v1 H))
                defaultMaxRetries 1%nat w0) as Htr.
  pose proof (pRetry_error fn
                (fun e =>
                   (exists n, reply_result
                                (model_invoke env n prompt (MAP_OUT_MAX config))
                              = inl e)
                   \/ e = newError ("Empty response from model for document "
                                    ++ showZ (chunk doc + 1)))) as Herr.
  specialize (Herr
    (fun v e v1 H =>
       match proj2 (mapCall_rejected doc prompt estWeight v e v1 H) with
       | or_introl A => or_introl (ex_intro _ (invocations v) A)
       | or_intror B => or_intror B
       end) defaultMaxRetries 1%nat w0).
  pose proof (pRetry_called fn defaultMaxRetries 1%nat w0) as Hpos.
  destruct (pRetry fn onFailedAttempt defaultMaxRetries 1%nat w0)
    as [[res w1] steps] eqn:E.
  cbn [fst snd] in *. unfold defaultMaxRetries in Hle.
  split; [cbn [invocations emit] in *; subst w0; cbn [invocations emit] in *; lia|].
  destruct res as [e|v]; cbn [tokenTracker emit].
  - split; [rewrite Htr; reflexivity | apply Herr; reflexivity].
  - destruct Htr as (wb & Hb & Hrun).
    destruct (mapCall_fulfilled doc prompt estWeight wb v w1 Hrun)
      as (res & _ & Hc & Hv & Hu).
    exists res, (now w1). repeat split; try assumption.
    rewrite Hu, Hb. reflexivity.
Qed.

(** How one run of the map closure settles, by the reply of the model to
    the call it makes. *)
Lemma mapCall_settles doc prompt estWeight w :
  let reply :=
    reply_result (model_invoke env (invocations w) prompt (MAP_OUT_MAX config)) in
  match mapCall env config doc prompt estWeight w with
  | (inl e, w1) =>
      tokenTracker w1 = tokenTracker w
      /\ (reply = inl e
          \/ exists res,
               reply = inr res /\ content res = ""
               /\ e = newError ("Empty response from model for document "
                                ++ showZ (chunk doc + 1)))
  | (inr v, w1) =>
      exists res,
        reply = inr res /\ content res <> "" /\ v = trim (content res)
        /\ tokenTracker w1
           = useTokens (orElse (usedTokensFromMessage res) estWeight) (now w1)
               (tokenTracker w)
  end.
Proof.
  unfold mapCall, invokeModel.
  destruct (reply_result _) as [e0|res] eqn:Er.
  - split; [reflexivity | left; reflexivity].
  - destruct (content res) as [|c rest] eqn:Ec; cbn [isEmpty].
    + split; [reflexivity|]. right. exists res. repeat split. exact Ec.
    + exists res. rewrite Ec. repeat split. discriminate.
Qed.

(** The queued, retried map call settles by the last reply the model
    gave. *)
Lemma queueAdd_mapCall_last doc prompt estWeight w :
  match queueAdd (mapCall env config doc prompt estWeight) w with
  | (r, w') =>
      let reply :=
        reply_result (model_invoke env (pred (invocations w')) prompt
                        (MAP_OUT_MAX config)) in
      (invocations w < invocations w')%nat
      /\ match r with
         | inl e =>
             tokenTracker w' = tokenTracker w
             /\ (reply = inl e
                 \/ exists res,
                      reply = inr res /\ content res = ""
                      /\ e = newError ("Empty response from model for document "
                                       ++ showZ (chunk doc + 1)))
         | inr partial =>
             exists res,
               reply = inr res /\ content res <> ""
               /\ partial = trim (content res)
               /\ tokenTracker w'
                  = useTokens (orElse (usedTokensFromMessage res) estWeight)
                      (now w') (tokenTracker w)
         end
  end.
Proof.
  unfold queueAdd, withRetry.
  set (fn := mapCall env config doc prompt estWeight).
  destruct (pRetry_last fn
              (fun v e v1 H => proj1 (mapCall_rejected doc prompt estWeight v e v1 H))
              (fun v => mapCall_invocations doc prompt estWeight v)
              defaultMaxRetries 1%nat (emit QueueStart w))
    as (wb & Hb & Hle & Hlast).
  destruct (pRetry fn onFailedAttempt defaultMaxRetries 1%nat (emit QueueStart w))
    as [[r w1] steps].
  cbn [fst] in Hlast. cbn [invocations emit tokenTracker now] in *.
  pose proof (mapCall_settles doc prompt estWeight wb) as Hs.
  pose proof (mapCall_invocations doc prompt estWeight wb) as Hi.
  fold fn in Hs, Hi.
  destruct r as [e|v].
  - destruct Hlast as [He [ms ->]].
    destruct (fn wb) as [[e'|v'] wl]; cbn [fst snd] in *; [|discriminate].
    injection He as ->. cbn [invocations sleep tokenTracker].
    rewrite Hi. cbn [pred]. split; [lia|].
    destruct Hs as [Ht Hr]. split; [congruence | exact Hr].
  - rewrite Hlast in Hs, Hi. cbn [snd] in Hi.
    rewrite Hi. cbn [pred]. split; [lia|].
    destruct Hs as (res & Hr & Hc & Hv & Ht).
    exists res. repeat split; try assumption. congruence.
Qed.

Lemma awaitBudget_invocations estWeight w :
  invocations (snd (awaitBudget config estWeight w)) = invocations w.
Proof.
  unfold awaitBudget.
  destruct (waitForBudget_trace config (pollBudget config) estWeight (now w) w)
    as (_ & _ & _ & H). exact H.
Qed.

(** An estimate that passed the check of the map body is admitted when the
    window is no longer than the timeout. *)
Lemma awaitBudget_grants estWeight w :
  trackerOf config w ->
  TOKEN_BUDGET_WINDOWS config <= TOKEN_BUDGET_TIMEOUT config ->
  estWeight <= TOKENS_PER_MINUTE config ->
  exists w', awaitBudget config estWeight w = (inr tt, w').
Proof.
  intros (Hwin & Hcap & Hstart) Hpatient Hest. unfold awaitBudget.
  apply waitForBudget_grants.
  - pose proof (pollBudget_enough config). lia.
  - lia.
  - lia.
  - exact Hstart.
Qed.

(** One pass through the body of the map loop. *)
Lemma mapBody_run doc w :
  let r := mapBody env config doc w in
  (invocations w <= invocations (snd r) <= invocations w + 7)%nat
  /\ (forall p, fst r = inr (Some p) ->
        (invocations w < invocations (snd r))%nat
        /\ exists res,
             reply_result
               (model_invoke env (pred (invocations (snd r)))
                  (mapPrompt_format env (pageContent doc)) (MAP_OUT_MAX config))
             = inr res
             /\ p = trim (content res) /\ p <> "")
  /\ (trackerOf config w ->
      trackerOf config (snd r)
      /\ (TOKEN_BUDGET_WINDOWS config <= TOKEN_BUDGET_TIMEOUT config ->
          modelErrorsPlain env ->
          forall e, fst r = inl e -> includes timeoutNeedle (message e) = false)).
Proof.
  intros r. subst r. unfold mapBody.
  destruct (isEmpty (pageContent doc)).
  { cbn [fst snd]. split; [lia|]. split; [intros p; discriminate|].
    intros Hw. split; [exact Hw|]. intros _ _ e; discriminate. }
  set (prompt := mapPrompt_format env (pageContent doc)).
  set (estWeight := countTokens env prompt + MAP_OUT_MAX config).
  destruct (Z.gtb_spec estWeight (TOKENS_PER_MINUTE config)) as [Hbig|Hfits].
  { cbn [fst snd]. split; [lia|]. split; [intros p; discriminate|].
    intros Hw. split; [exact Hw|].
    intros _ _ e [= <-]. apply mapEstimateMessage_no_needle. }
  pose proof (awaitBudget_invocations estWeight w) as Hwi.
  pose proof (waitForBudget_trackerOf estWeight (now w) (pollBudget config) w) as Hwt.
  pose proof (awaitBudget_grants estWeight w) as Hadm.
  fold (awaitBudget config estWeight w) in Hwt.
  destruct (awaitBudget config estWeight w) as [[e|u] w1] eqn:Ew; cbn [fst snd] in *.
  { split; [lia|]. split; [intros p; discriminate|].
    intros Hw. split; [exact (Hwt Hw)|].
    intros Hp _ e' _.
    destruct (Hadm Hw Hp Hfits) as [w' Hc]. discriminate. }
  pose proof (queueAdd_mapCall doc prompt estWeight w1) as [Hqi Hqr].
  pose proof (queueAdd_mapCall_last doc prompt estWeight w1) as Hql.
  pose proof (queueAdd_mapCall_trackerOf doc prompt estWeight w1) as Hqt.
  destruct (queueAdd (mapCall env config doc prompt estWeight) w1)
    as [[e|partial] w2]; cbn [fst snd] in *.
  - split; [lia|]. split; [intros p; discriminate|].
    intros Hw. split; [exact (Hqt (Hwt Hw))|].
    intros _ Hplain e' [= <-].
    destruct Hqr as [_ [[n Hn] | ->]].
    + exact (Hplain _ _ _ _ Hn).
    + apply emptyResponseMessage_no_needle.
  - destruct (isEmpty partial) eqn:Ep; cbn [fst snd];
      (split; [lia|]); (split; [intros p; try discriminate|]);
      try (intros Hw; split; [exact (Hqt (Hwt Hw))|]; intros _ _ e'; discriminate).
    intros [= <-]. split; [lia|].
    destruct Hql as (_ & res & Hr & _ & Hv & _). exists res.
    split; [exact Hr|]. split; [exact Hv|].
    intros E. rewrite E in Ep. discriminate.
Qed.

Lemma PartialsOf_weaken lo hi docs new :
  PartialsOf env config lo hi docs new ->
  forall lo' hi', (lo' <= lo)%nat -> (hi <= hi')%nat ->
  PartialsOf env config lo' hi' docs new.
Proof.
  induction 1 as [lo hi Hle | lo mid hi doc docs new Hle Hp IH
                 | lo n hi doc docs new res Hle Hr Hne Hp IH];
    intros lo' hi' Hlo Hhi.
  - constructor. lia.
  - apply (PartialsOf_skip env config lo' mid); [lia|].
    apply IH; [lia | exact Hhi].
  - apply (PartialsOf_keep env config lo' n); [lia | exact Hr | exact Hne|].
    apply IH; [lia | exact Hhi].
Qed.

Lemma PartialsOf_Forall lo hi docs new :
  PartialsOf env config lo hi docs new ->
  Forall (fun p => p <> "" /\ exists c, p = trim c) new.
Proof.
  induction 1; [constructor | assumption |].
  constructor; [|assumption]. split; [assumption | eauto].
Qed.

Lemma PartialsOf_length lo hi docs new :
  PartialsOf env config lo hi docs new ->
  (List.length new <= List.length docs)%nat.
Proof. induction 1; cbn [List.length]; lia. Qed.

Lemma mapLoop_run docs : forall i partials w,
  let r := mapLoop env config i docs partials w in
  (invocations w <= invocations (snd r)
   <= invocations w + 7 * List.length docs)%nat
  /\ (forall ps, fst r = inr ps ->
        exists new, ps = partials ++ new
                    /\ (List.length new <= List.length docs)%nat
                    /\ PartialsOf env config (invocations w)
                         (invocations (snd r)) docs new)
  /\ (trackerOf config w ->
      trackerOf config (snd r)
      /\ (TOKEN_BUDGET_WINDOWS config <= TOKEN_BUDGET_TIMEOUT config ->
          modelErrorsPlain env ->
          exists ps, fst r = inr ps)).
Proof.
  induction docs as [|doc rest IH]; intros i partials w; cbn [mapLoop].
  - cbn [fst snd List.length]. split; [lia|]. split.
    + intros ps [= <-]. exists []. rewrite app_nil_r.
      repeat split; [cbn; lia | constructor; lia].
    + intros Hw. split; [exact Hw | eauto].
  - unfold mapIteration.
    destruct (mapBody_run doc (emit (MapChunk i) w)) as (Hbi & Hbp & Hbt).
    destruct (mapBody env config doc (emit (MapChunk i) w))
      as [[e|[p|]] w1] eqn:Eb; cbn [fst snd invocations emit] in *.
    + destruct (includes timeoutNeedle (message e)) eqn:En.
      * cbn [fst snd List.length]. split; [lia|]. split; [discriminate|].
        intros Hw. destruct (Hbt (trackerOf_emit _ _ Hw)) as [Ht Hlive].
        split; [exact Ht|]. intros Hp Hplain.
        rewrite (Hlive Hp Hplain e eq_refl) in En. discriminate.
      * destruct (IH (S i) partials w1) as (Hi & Hps & Ht).
        cbn [List.length]. split; [lia|]. split.
        -- intros ps Hr. destruct (Hps ps Hr) as (new & -> & Hl & Hf).
           exists new. repeat split; [lia|].
           apply (PartialsOf_skip env config _ (invocations w1)); [lia | exact Hf].
        -- intros Hw. apply Ht. apply Hbt. apply trackerOf_emit. exact Hw.
    + destruct (IH (S i) (partials ++ [p]) (emit (Push p) w1)) as (Hi & Hps & Ht).
      cbn [List.length invocations emit] in *. split; [lia|]. split.
      * intros ps Hr. destruct (Hps ps Hr) as (new & -> & Hl & Hf).
        exists (p :: new). rewrite <- app_assoc. repeat split; [cbn; lia|].
        destruct (Hbp p eq_refl) as (Hlt & res & Hres & -> & Hne).
        apply (PartialsOf_keep env config _ (pred (invocations w1)));
          [lia | exact Hres | exact Hne|].
        replace (S (pred (invocations w1))) with (invocations w1) by lia.
        exact Hf.
      * intros Hw. apply Ht. apply trackerOf_emit. apply Hbt.
        apply trackerOf_emit. exact Hw.
    + destruct (IH (S i) partials w1) as (Hi & Hps & Ht).
      cbn [List.length]. split; [lia|]. split.
      * intros ps Hr. destruct (Hps ps Hr) as (new & -> & Hl & Hf).
        exists new. repeat split; [lia|].
        apply (PartialsOf_skip env config _ (invocations w1)); [lia | exact Hf].
      * intros Hw. apply Ht. apply Hbt. apply trackerOf_emit. exact Hw.
Qed.

End RunInvariants.

Lemma demoEnv_errors_plain : modelErrorsPlain demoEnv.
Proof.
  intros n prompt maxTokens e. cbn [demoEnv model_invoke].
  destruct (includes "FAIL" prompt); cbn [reply_result]; [|discriminate].
  intros [= <-]. reflexivity.
Qed.

(** X7. Token usage is recorded once per successful call and never for a
    failed one, and the queued, retried map call settles by the last reply
    the model gave (call number [invocations w' - 1] of the run, to this
    prompt and with [MAP_OUT_MAX]).  When the call is rejected for good,
    the tracker is exactly as it was before the call, however many
    attempts were made, and the error is that last reply's, or the
    empty-response error when that reply had no content.  When it fulfils,
    the partial is the trimmed content of that last reply, which is not
    empty, and the tracker has taken exactly one [useTokens], at the time
    the call ended, of the usage [usedTokensFromMessage] reads from the
    reply or, when that is missing or zero, of the estimate. *)
Theorem X7_usage_accounting :
  forall (env : Env) (config : SummarizeCfg) (doc : Doc) (prompt : string)
         (estWeight : Z) (w : World),
    match queueAdd (mapCall env config doc prompt estWeight) w with
    | (r, w') =>
        let reply :=
          reply_result (model_invoke env (pred (invocations w')) prompt
                          (MAP_OUT_MAX config)) in
        (invocations w < invocations w')%nat
        /\ match r with
           | inl e =>
               tokenTracker w' = tokenTracker w
               /\ (reply = inl e
                   \/ exists res,
                        reply = inr res /\ content res = ""
                        /\ e = newError ("Empty response from model for document "
                                         ++ showZ (chunk doc + 1)))
           | inr partial =>
               exists res,
                 reply = inr res /\ content res <> ""
                 /\ partial = trim (content res)
                 /\ tokenTracker w'
                    = useTokens (orElse (usedTokensFromMessage res) estWeight)
                        (now w') (tokenTracker w)
           end
    end.
Proof.
  intros env config doc prompt estWeight w.
  exact (queueAdd_mapCall_last env config doc prompt estWeight w).
Qed.

(** X8. The map phase makes at most seven model calls per document (one
    call and the six default retries), and never un-counts a call. *)
Theorem X8_map_call_bound :
  forall (env : Env) (config : SummarizeCfg) (docs : list Doc) (i : nat)
         (partials : list string) (w : World),
    (invocations w
     <= invocations (snd (mapLoop env config i docs partials w))
     <= invocations w + 7 * List.length docs)%nat.
Proof.
  intros env config docs i partials w.
  exact (proj1 (mapLoop_run env config docs i partials w)).
Qed.

(** X9. When the map loop runs to its end it has added, behind the
    partials it started with, at most one partial per document, in the
    order of the documents.  Each is the trimmed content of the reply the
    model gave to the map prompt of its document (with [MAP_OUT_MAX]) in a
    call made during the loop, later documents getting later calls, and
    none is the empty string: the reduce phase never gets an empty partial,
    nor more partials than there are documents. *)
Theorem X9_partials_nonempty :
  forall (env : Env) (config : SummarizeCfg) (docs : list Doc) (i : nat)
         (partials : list string) (w : World),
    match mapLoop env config i docs partials w with
    | (inl _, _) => True
    | (inr ps, w') =>
        exists new,
          ps = (partials ++ new)%list
          /\ (List.length new <= List.length docs)%nat
          /\ PartialsOf env config (invocations w) (invocations w') docs new
          /\ Forall (fun p => p <> "") new
    end.
Proof.
  intros env config docs i partials w.
  destruct (mapLoop_run env config docs i partials w) as (_ & H & _).
  destruct (mapLoop env config i docs partials w) as [[e|ps] w']; [exact I|].
  destruct (H ps eq_refl) as (new & Hps & Hl & Hf). cbn [snd] in Hf.
  exists new. repeat split; try assumption.
  eapply Forall_impl; [|exact (PartialsOf_Forall env config _ _ _ _ Hf)].
  intros p [Hp _]. exact Hp.
Qed.

(** X10. When the budget window is no longer than the budget timeout and
    no error of the model carries the budget-timeout wording, the map
    phase is never left by a budget timeout: every wait ends admitted, the
    loop visits every document, and the run either rejects because no
    document gave a partial or goes on as the reduce phase. *)
Theorem X10_no_timeout_when_patient :
  forall (env : Env) (config : SummarizeCfg) (fuel : nat) (docs : list Doc)
         (w0 : World),
    TOKEN_BUDGET_WINDOWS config <= TOKEN_BUDGET_TIMEOUT config ->
    modelErrorsPlain env ->
    docs <> [] ->
    (forall estWeight w,
       trackerOf config w -> estWeight <= TOKENS_PER_MINUTE config ->
       exists w', awaitBudget config estWeight w = (inr tt, w'))
    /\ exists ps w',
         mapLoop env config 0 docs [] (makeQueue config w0) = (inr ps, w')
         /\ chunksOf (skipn (List.length (trace w0)) (trace w'))
            = seq 0 (List.length docs)
         /\ (ps = [] ->
             summarizeWithQueue env config fuel docs w0
             = (Rejected (newError ("MAP phase failed: " ++ noneProcessed)), w'))
         /\ (ps <> [] ->
             summarizeWithQueue env config fuel docs w0
             = reducePhase env config fuel ps w').
Proof.
  intros env config fuel docs w0 Hpatient Hplain Hdocs. split.
  - intros estWeight w Hw Hest.
    exact (awaitBudget_grants config estWeight w Hw Hpatient Hest).
  - destruct (mapLoop_run env config docs 0 [] (makeQueue config w0))
      as (_ & _ & Hlive).
    destruct (Hlive (trackerOf_makeQueue config w0)) as [_ Hok].
    destruct (Hok Hpatient Hplain) as [ps Hps].
    destruct (mapLoop_trace env config docs 0 [] (makeQueue config w0))
      as (delta & Ht & _ & (m & _ & Hch & Hm) & _).
    destruct (mapLoop env config 0 docs [] (makeQueue config w0))
      as [r w'] eqn:E. cbn [fst snd] in *. subst r.
    exists ps, w'. split; [reflexivity|]. split.
    + rewrite Ht. cbn [trace makeQueue setTracker].
      rewrite skipn_app, skipn_all, Nat.sub_diag. cbn [skipn app].
      rewrite Hch, (Hm ps eq_refl). reflexivity.
    + unfold summarizeWithQueue, mapPhase. rewrite E.
      destruct docs; [congruence|].
      destruct ps; split; intros; try congruence; reflexivity.
Qed.

Lemma X10_no_timeout_when_patient_witness :
  TOKEN_BUDGET_WINDOWS patientCfg <= TOKEN_BUDGET_TIMEOUT patientCfg
  /\ modelErrorsPlain demoEnv
  /\ exists ps w',
       mapLoop demoEnv patientCfg 0
         [demoDoc 0 "COSTLY one"; demoDoc 1 "two"] []
         (makeQueue patientCfg emptyWorld) = (inr ps, w').
Proof.
  assert (H1 : TOKEN_BUDGET_WINDOWS patientCfg <= TOKEN_BUDGET_TIMEOUT patientCfg)
    by (cbn; lia).
  split; [exact H1|]. split; [exact demoEnv_errors_plain|].
  destruct (X10_no_timeout_when_patient demoEnv patientCfg 5
              [demoDoc 0 "COSTLY one"; demoDoc 1 "two"] emptyWorld
              H1 demoEnv_errors_plain ltac:(discriminate))
    as [_ (ps & w' & E & _)].
  exists ps, w'. exact E.
Defined.

(** ** The reduce phase and the whole run *)

Lemma startsWith_app p s : startsWith p (p ++ s) = true.
Proof.
  induction p as [|a p IH]; [destruct s; reflexivity|].
  cbn. rewrite Ascii.eqb_refl. exact IH.
Qed.

(** X11. In the reduce phase nothing is skipped.  For partials that fit
    one group, an estimate above [TOKENS_PER_MINUTE] rejects the run with
    the estimate error under the reduce-phase prefix, before any budget
    poll or model call; a budget timeout of the one reduce call, and a
    rejection of its queued call, reject the run with the error's message
    under the prefixes of the reduce job and of the reduce phase. *)
Theorem X11_reduce_errors_fatal :
  forall (env : Env) (config : SummarizeCfg) (fuel : nat)
         (partials : list string) (w : World),
    let joined := join separator partials in
    let estWeight :=
      countTokens env (combinePrompt_format env joined) + REDUCE_OUT_MAX config in
    let entered := emit (Reduce joined) w in
    (List.length partials <= HIERARCHY_GROUP_SIZE config)%nat ->
    isEmpty (trim joined) = false ->
    (estWeight > TOKENS_PER_MINUTE config ->
     reducePhase env config (S fuel) partials w
     = (Rejected (newError ("REDUCE phase failed: "
                            ++ reduceEstimateMessage config estWeight)),
        entered))
    /\ (estWeight <= TOKENS_PER_MINUTE config ->
        forall e w1,
          awaitBudget config estWeight entered = (inl e, w1) ->
          reducePhase env config (S fuel) partials w
          = (Rejected (newError ("REDUCE phase failed: "
                                 ++ "Reduce operation failed: " ++ message e)),
             w1))
    /\ (estWeight <= TOKENS_PER_MINUTE config ->
        forall w1 e w2,
          awaitBudget config estWeight entered = (inr tt, w1) ->
          queueAdd (reduceCall env config (combinePrompt_format env joined)
                      estWeight) w1 = (inl e, w2) ->
          reducePhase env config (S fuel) partials w
          = (Rejected (newError ("REDUCE phase failed: "
                                 ++ "Reduce operation failed: " ++ message e)),
             w2)).
Proof.
  intros env config fuel partials w joined estWeight entered Hfit Hjoined.
  assert (Hbase : hierarchicalReduce (S fuel) partials (reduceJob env config)
                    (HIERARCHY_GROUP_SIZE config) w
                  = (of_result (fst (reduceJob env config joined w)),
                     snd (reduceJob env config joined w), [[partials]]))
    by (apply hierarchicalReduce_base; exact Hfit).
  unfold reducePhase. rewrite Hbase. unfold reduceJob.
  fold joined. rewrite Hjoined. fold estWeight. fold entered.
  split; [|split].
  - intros Hbig.
    destruct (Z.gtb_spec estWeight (TOKENS_PER_MINUTE config)); [|lia].
    reflexivity.
  - intros Hok e w1 Hwait.
    destruct (Z.gtb_spec estWeight (TOKENS_PER_MINUTE config)); [lia|].
    rewrite Hwait. reflexivity.
  - intros Hok w1 e w2 Hwait Hcall.
    destruct (Z.gtb_spec estWeight (TOKENS_PER_MINUTE config)); [lia|].
    rewrite Hwait, Hcall. reflexivity.
Qed.

Lemma X11_reduce_errors_fatal_witness :
  (List.length ["HUGE a"; "b"] <= HIERARCHY_GROUP_SIZE demoCfg)%nat
  /\ isEmpty (trim (join separator ["HUGE a"; "b"])) = false
  /\ fst (reducePhase demoEnv demoCfg 1 ["HUGE a"; "b"] emptyWorld)
     = Rejected (newError ("REDUCE phase failed: "
                           ++ reduceEstimateMessage demoCfg 1500)).
Proof.
  assert (H1 : (List.length ["HUGE a"; "b"] <= HIERARCHY_GROUP_SIZE demoCfg)%nat)
    by (cbn; lia).
  assert (H2 : isEmpty (trim (join separator ["HUGE a"; "b"])) = false)
    by reflexivity.
  split; [exact H1|]. split; [exact H2|].
  destruct (X11_reduce_errors_fatal demoEnv demoCfg 0 ["HUGE a"; "b"] emptyWorld
              H1 H2) as [Hbig _].
  rewrite Hbig; [reflexivity | reflexivity].
Defined.

(** X12. How a call of [summarizeWithQueue] can end.  A value it returns
    is never the empty string.  An error it rejects with is the
    no-documents error (only for an empty list of documents), or the error
    [getNodeProperties] threw, or the one the construction of the queue
    threw, each as it is (only for a non-empty list; in these three cases
    nothing has happened), or carries the prefix of the map phase, or that
    of the reduce phase. *)
Theorem X12_run_outcomes :
  forall (env : Env) (properties : JsError + SummarizeCfg)
         (queueThrows : SummarizeCfg -> option JsError) (fuel : nat)
         (docs : list Doc) (w0 : World),
    let started :=
      docs <> []
      /\ exists config, properties = inr config /\ queueThrows config = None in
    match summarizeWithQueue_call env properties queueThrows fuel docs w0 with
    | (Resolved v, _) => v <> "" /\ started
    | (Rejected e, w') =>
        (docs = [] /\ w' = w0
         /\ e = newError "No documents provided for summarization")
        \/ (docs <> [] /\ w' = w0 /\ properties = inl e)
        \/ (docs <> [] /\ w' = w0
            /\ exists config,
                 properties = inr config /\ queueThrows config = Some e)
        \/ (started
            /\ (startsWith "MAP phase failed: " (message e) = true
                \/ startsWith "REDUCE phase failed: " (message e) = true))
    | (Diverged, _) => started
    end.
Proof.
  intros env properties queueThrows fuel docs w0. cbv zeta.
  unfold summarizeWithQueue_call.
  destruct docs as [|d ds]; [left; repeat split|].
  destruct properties as [err|config].
  { right. left. repeat split. discriminate. }
  destruct (queueThrows config) as [err|] eqn:Eq.
  { right. right. left. repeat split; [discriminate | eauto]. }
  assert (Hs : d :: ds <> []
               /\ exists config0,
                    @inr JsError SummarizeCfg config = inr config0
                    /\ queueThrows config0 = None)
    by (split; [discriminate | eauto]).
  unfold summarizeWithQueue, mapPhase.
  destruct (mapLoop env config 0 (d :: ds) [] (makeQueue config w0))
    as [[e|[|p ps]] w1].
  - right. right. right. split; [exact Hs|]. left. apply startsWith_app.
  - right. right. right. split; [exact Hs|]. left. apply startsWith_app.
  - unfold reducePhase.
    destruct (hierarchicalReduce fuel (p :: ps) (reduceJob env config)
                (HIERARCHY_GROUP_SIZE config) w1) as [[[final|e|] w2] rounds].
    + destruct (isEmpty (trim final)) eqn:Ef.
      * right. right. right. split; [exact Hs|]. right. apply startsWith_app.
      * split; [|exact Hs]. intros Hv. rewrite Hv in Ef. discriminate.
    + right. right. right. split; [exact Hs|]. right. apply startsWith_app.
    + exact Hs.
Qed.

(** X13. With a group size of two or more the run always settles: as many
    rounds of the reduce phase as there are documents are enough, whatever
    the model answers. *)
Theorem X13_run_settles :
  forall (env : Env) (config : SummarizeCfg) (fuel : nat) (docs : list Doc)
         (w0 : World),
    (2 <= HIERARCHY_GROUP_SIZE config)%nat ->
    (List.length docs <= fuel)%nat ->
    fst (summarizeWithQueue env config fuel docs w0) <> Diverged.
Proof.
  intros env config fuel docs w0 HG Hfuel. unfold summarizeWithQueue.
  destruct docs as [|d ds]; [discriminate|].
  unfold mapPhase.
  destruct (mapLoop_run env config (d :: ds) 0 [] (makeQueue config w0))
    as (_ & Hps & _).
  destruct (mapLoop env config 0 (d :: ds) [] (makeQueue config w0))
    as [[e|[|p ps]] w1]; cbn [fst snd] in *; try discriminate.
  destruct (Hps (p :: ps) eq_refl) as (new & Hnew & Hl & _).
  cbn [app] in Hnew. subst new.
  pose proof (hierarchicalReduce_settles (HIERARCHY_GROUP_SIZE config)
                (reduceJob env config) HG fuel (p :: ps) w1
                ltac:(cbn [List.length] in *; lia)
                ltac:(cbn [List.length] in *; lia)) as Hset.
  unfold reducePhase.
  destruct (hierarchicalReduce fuel (p :: ps) (reduceJob env config)
              (HIERARCHY_GROUP_SIZE config) w1) as [[[final|e|] w2] rounds];
    cbn [fst] in *; try discriminate; [|congruence].
  destruct (isEmpty (trim final)); discriminate.
Qed.

Lemma X13_run_settles_witness :
  (2 <= HIERARCHY_GROUP_SIZE demoCfg)%nat
  /\ (List.length [demoDoc 0 "one"; demoDoc 1 "two"; demoDoc 2 "three"] <= 3)%nat
  /\ fst (summarizeWithQueue demoEnv demoCfg 3
            [demoDoc 0 "one"; demoDoc 1 "two"; demoDoc 2 "three"] emptyWorld)
     <> Diverged.
Proof.
  assert (H1 : (2 <= HIERARCHY_GROUP_SIZE demoCfg)%nat) by (cbn; lia).
  assert (H2 : (List.length [demoDoc 0 "one"; demoDoc 1 "two"; demoDoc 2 "three"]
                <= 3)%nat) by (cbn; lia).
  split; [exact H1|]. split; [exact H2|].
  exact (X13_run_settles demoEnv demoCfg 3
           [demoDoc 0 "one"; demoDoc 1 "two"; demoDoc 2 "three"] emptyWorld
           H1 H2).
Defined.

(** ** getNodeProperties *)

Section NodeProperties.

Import Node.

Lemma isEmpty_false (s : string) : isEmpty s = false <-> s <> "".
Proof.
  destruct s; cbn; split; intro H; congruence.
Qed.

Lemma missingOrNotPositive_false (x : Number) :
  missingOrNotPositive x = false <-> positive x.
Proof.
  unfold missingOrNotPositive, positive.
  destruct x as [q|]; cbn.
  - rewrite orb_false_iff. split.
    + intros [_ Hle]. exists q. split; [reflexivity|].
      apply Qnot_le_lt. intro H. apply Qle_bool_iff in H. congruence.
    + intros [q' [Heq Hlt]]. injection Heq as <-. split.
      * destruct (Qeq_bool q 0) eqn:E; [|reflexivity].
        apply Qeq_bool_iff in E. rewrite E in Hlt.
        exfalso. exact (Qlt_irrefl 0 Hlt).
      * destruct (Qle_bool q 0) eqn:E; [|reflexivity].
        apply Qle_bool_iff in E.
        exfalso. exact (Qlt_not_le _ _ Hlt E).
  - split; [discriminate|]. intros [q [H _]]. discriminate.
Qed.

Lemma ltZero_false (x : Number) :
  ltZero x = false <-> forall q, x = Some q -> (0 <= q)%Q.
Proof.
  destruct x as [q|]; cbn.
  - rewrite negb_false_iff, Qle_bool_iff. split.
    + intros H q' Heq. injection Heq as <-. exact H.
    + intro H. apply H. reflexivity.
  - split; [discriminate | reflexivity].
Qed.

Lemma gtTwo_false (x : Number) :
  gtTwo x = false <-> forall q, x = Some q -> (q <= 2)%Q.
Proof.
  destruct x as [q|]; cbn.
  - rewrite negb_false_iff, Qle_bool_iff. split.
    + intros H q' Heq. injection Heq as <-. exact H.
    + intro H. apply H. reflexivity.
  - split; [discriminate | reflexivity].
Qed.

Lemma notBlank_false (trimsToEmpty : string -> bool) (s : string) :
  isEmpty s || trimsToEmpty s = false <-> notBlank trimsToEmpty s.
Proof.
  unfold notBlank. rewrite orb_false_iff, isEmpty_false. reflexivity.
Qed.

Lemma positive_whole (n : Z) : positive (whole n) <-> 0 < n.
Proof.
  unfold positive, whole. split.
  - intros [q [Heq Hlt]]. injection Heq as <-.
    unfold Qlt in Hlt. cbn in Hlt. lia.
  - intro H. exists (inject_Z n). split; [reflexivity|].
    unfold Qlt. cbn. lia.
Qed.

Lemma toZ_whole (n : Z) : toZ (whole n) = Some n.
Proof.
  unfold toZ, whole. cbn [inject_Z Qnum Qden].
  rewrite Z.mod_1_r, Z.div_1_r. reflexivity.
Qed.

Lemma toZ_times1000_whole (n : Z) :
  toZ (times1000 (whole n)) = Some (n * 1000).
Proof.
  unfold toZ, times1000, whole. cbn [inject_Z Qnum Qden Qmult Pos.mul].
  rewrite Z.mod_1_r, Z.div_1_r. reflexivity.
Qed.

(** The checks, one after the other, and the value returned when all of
    them pass. *)
Lemma getNodeProperties_inr (trimsToEmpty : string -> bool) (p : Parameters)
    (props : Properties) :
  getNodeProperties trimsToEmpty p = inr props ->
  validParameters trimsToEmpty p
  /\ props =
     {| encodingModel := p_encodingModel p;
        mapPromptProperties := p_mapPrompt p;
        combinePromptProperties := p_combinePrompt p;
        summarizeCfg :=
          {| TOKENS_PER_MINUTE := p_TOKENS_PER_MINUTE p;
             TOKEN_BUDGET_TIMEOUT := times1000 (p_TOKEN_BUDGET_TIMEOUT p);
             REQUESTS_PER_MINUTE := p_REQUESTS_PER_MINUTE p;
             QUEUE_INTERVAL := times1000 (p_QUEUE_INTERVAL p);
             QUEUE_CONCURRENCY := p_QUEUE_CONCURRENCY p;
             TOKEN_BUDGET_WINDOWS := times1000 (p_TOKEN_BUDGET_WINDOWS p);
             MAP_OUT_MAX := p_MAP_OUT_MAX p;
             REDUCE_OUT_MAX := p_REDUCE_OUT_MAX p;
             CHUNK_TOKENS := p_CHUNK_TOKENS p;
             CHUNK_OVERLAP := p_CHUNK_OVERLAP p;
             HIERARCHY_GROUP_SIZE := p_HIERARCHY_GROUP_SIZE p;
             TEMPERATURE := p_TEMPERATURE p |} |}.
Proof.
  unfold getNodeProperties, nodeOperationError.
  destruct (isEmpty (p_encodingModel p)) eqn:E1; [discriminate|].
  destruct (isEmpty (p_mapPrompt p) || trimsToEmpty (p_mapPrompt p)) eqn:E2;
    [discriminate|].
  destruct (isEmpty (p_combinePrompt p) || trimsToEmpty (p_combinePrompt p))
    eqn:E3; [discriminate|].
  destruct (missingOrNotPositive (p_TOKENS_PER_MINUTE p)) eqn:E4;
    [discriminate|].
  destruct (missingOrNotPositive (p_TOKEN_BUDGET_TIMEOUT p)) eqn:E5;
    [discriminate|].
  destruct (missingOrNotPositive (p_REQUESTS_PER_MINUTE p)) eqn:E6;
    [discriminate|].
  destruct (missingOrNotPositive (p_QUEUE_INTERVAL p)) eqn:E7;
    [discriminate|].
  destruct (missingOrNotPositive (p_QUEUE_CONCURRENCY p)) eqn:E8;
    [discriminate|].
  destruct (missingOrNotPositive (p_TOKEN_BUDGET_WINDOWS p)) eqn:E9;
    [discriminate|].
  destruct (missingOrNotPositive (p_MAP_OUT_MAX p)) eqn:E10; [discriminate|].
  destruct (missingOrNotPositive (p_REDUCE_OUT_MAX p)) eqn:E11;
    [discriminate|].
  destruct (missingOrNotPositive (p_CHUNK_TOKENS p)) eqn:E12;
    [discriminate|].
  destruct (ltZero (p_CHUNK_OVERLAP p)) eqn:E13; [discriminate|].
  destruct (missingOrNotPositive (p_HIERARCHY_GROUP_SIZE p)) eqn:E14;
    [discriminate|].
  destruct (ltZero (p_TEMPERATURE p) || gtTwo (p_TEMPERATURE p)) eqn:E15;
    [discriminate|].
  intro H. injection H as <-. split; [|reflexivity].
  apply isEmpty_false in E1.
  apply notBlank_false in E2. apply notBlank_false in E3.
  apply missingOrNotPositive_false in E4, E5, E6, E7, E8, E9, E10, E11, E12,
    E14.
  apply orb_false_iff in E15. destruct E15 as [E15 E16].
  unfold validParameters.
  repeat (split; [assumption|]).
  split; [exact (proj1 (ltZero_false _) E13)|].
  split; [assumption|].
  intros q Hq. split.
  - exact (proj1 (ltZero_false _) E15 q Hq).
  - exact (proj1 (gtTwo_false _) E16 q Hq).
Qed.

Lemma getNodeProperties_valid (trimsToEmpty : string -> bool) (p : Parameters) :
  validParameters trimsToEmpty p ->
  exists props, getNodeProperties trimsToEmpty p = inr props.
Proof.
  unfold validParameters.
  intros (H1 & H2 & H3 & H4 & H5 & H6 & H7 & H8 & H9 & H10 & H11 & H12 & H13
          & H14 & H15).
  apply isEmpty_false in H1.
  apply notBlank_false in H2. apply notBlank_false in H3.
  apply missingOrNotPositive_false in H4, H5, H6, H7, H8, H9, H10, H11, H12,
    H14.
  apply ltZero_false in H13.
  assert (H16 : ltZero (p_TEMPERATURE p) || gtTwo (p_TEMPERATURE p) = false).
  { apply orb_false_iff. split.
    - apply ltZero_false. intros q Hq. exact (proj1 (H15 q Hq)).
    - apply gtTwo_false. intros q Hq. exact (proj2 (H15 q Hq)). }
  unfold getNodeProperties.
  rewrite H1, H2, H3, H4, H5, H6, H7, H8, H9, H10, H11, H12, H13, H14, H16.
  eexists. reflexivity.
Qed.

End NodeProperties.

(** X14. [getNodeProperties] returns a value exactly when every parameter
    passes its check: the encoding model is not empty, neither prompt is
    empty or blank, the ten required numbers are present and greater than
    0, the overlap is not below 0 and the temperature is not outside 0..2
    (either of the two may have no value: a missing overlap or temperature
    passes).  The value returned hands the strings and the numbers on as
    they were read, the three durations multiplied by 1000, so each number
    the orchestrator reads is present and greater than 0.  Nothing asks for
    a whole number: half a second of timeout gives 500 milliseconds.  When
    the nine numbers the orchestrator reads are whole, its configuration is
    the one of whole numbers with the durations a multiple of 1000 and a
    group size of at least 1. *)
Theorem X14_configuration_validated :
  forall (trimsToEmpty : string -> bool) (p : Node.Parameters),
    ((exists props, Node.getNodeProperties trimsToEmpty p = inr props)
     <-> Node.validParameters trimsToEmpty p)
    /\ (forall props,
          Node.getNodeProperties trimsToEmpty p = inr props ->
          let cfg := Node.summarizeCfg props in
          Node.encodingModel props = Node.p_encodingModel p
          /\ Node.mapPromptProperties props = Node.p_mapPrompt p
          /\ Node.combinePromptProperties props = Node.p_combinePrompt p
          /\ Node.TOKENS_PER_MINUTE cfg = Node.p_TOKENS_PER_MINUTE p
          /\ Node.TOKEN_BUDGET_TIMEOUT cfg
             = Node.times1000 (Node.p_TOKEN_BUDGET_TIMEOUT p)
          /\ Node.REQUESTS_PER_MINUTE cfg = Node.p_REQUESTS_PER_MINUTE p
          /\ Node.QUEUE_INTERVAL cfg
             = Node.times1000 (Node.p_QUEUE_INTERVAL p)
          /\ Node.QUEUE_CONCURRENCY cfg = Node.p_QUEUE_CONCURRENCY p
          /\ Node.TOKEN_BUDGET_WINDOWS cfg
             = Node.times1000 (Node.p_TOKEN_BUDGET_WINDOWS p)
          /\ Node.MAP_OUT_MAX cfg = Node.p_MAP_OUT_MAX p
          /\ Node.REDUCE_OUT_MAX cfg = Node.p_REDUCE_OUT_MAX p
          /\ Node.CHUNK_TOKENS cfg = Node.p_CHUNK_TOKENS p
          /\ Node.CHUNK_OVERLAP cfg = Node.p_CHUNK_OVERLAP p
          /\ Node.HIERARCHY_GROUP_SIZE cfg = Node.p_HIERARCHY_GROUP_SIZE p
          /\ Node.TEMPERATURE cfg = Node.p_TEMPERATURE p
          /\ Node.positive (Node.TOKENS_PER_MINUTE cfg)
          /\ Node.positive (Node.TOKEN_BUDGET_TIMEOUT cfg)
          /\ Node.positive (Node.REQUESTS_PER_MINUTE cfg)
          /\ Node.positive (Node.QUEUE_INTERVAL cfg)
          /\ Node.positive (Node.QUEUE_CONCURRENCY cfg)
          /\ Node.positive (Node.TOKEN_BUDGET_WINDOWS cfg)
          /\ Node.positive (Node.MAP_OUT_MAX cfg)
          /\ Node.positive (Node.REDUCE_OUT_MAX cfg)
          /\ Node.positive (Node.CHUNK_TOKENS cfg)
          /\ Node.positive (Node.HIERARCHY_GROUP_SIZE cfg)
          /\ (forall tpm timeout rpm interval concurrency window mapOut
                     reduceOut groupSize,
                Node.p_TOKENS_PER_MINUTE p = Node.whole tpm ->
                Node.p_TOKEN_BUDGET_TIMEOUT p = Node.whole timeout ->
                Node.p_REQUESTS_PER_MINUTE p = Node.whole rpm ->
                Node.p_QUEUE_INTERVAL p = Node.whole interval ->
                Node.p_QUEUE_CONCURRENCY p = Node.whole concurrency ->
                Node.p_TOKEN_BUDGET_WINDOWS p = Node.whole window ->
                Node.p_MAP_OUT_MAX p = Node.whole mapOut ->
                Node.p_REDUCE_OUT_MAX p = Node.whole reduceOut ->
                Node.p_HIERARCHY_GROUP_SIZE p = Node.whole groupSize ->
                wholeCfg cfg
                = Some {| TOKENS_PER_MINUTE := tpm;
                          TOKEN_BUDGET_TIMEOUT := timeout * 1000;
                          REQUESTS_PER_MINUTE := rpm;
                          QUEUE_INTERVAL := interval * 1000;
                          QUEUE_CONCURRENCY := concurrency;
                          TOKEN_BUDGET_WINDOWS := window * 1000;
                          MAP_OUT_MAX := mapOut;
                          REDUCE_OUT_MAX := reduceOut;
                          HIERARCHY_GROUP_SIZE := Z.to_nat groupSize |}
                /\ 0 < tpm /\ 1000 <= timeout * 1000 /\ 0 < rpm
                /\ 1000 <= interval * 1000 /\ 0 < concurrency
                /\ 1000 <= window * 1000 /\ 0 < mapOut /\ 0 < reduceOut
                /\ (1 <= Z.to_nat groupSize)%nat))
    /\ (forall prompt,
          trimsToEmpty prompt = false -> prompt <> "" ->
          let half := Some (1 # 2)%Q in
          (exists props,
             Node.getNodeProperties trimsToEmpty
               (Node.mkParameters "o200k" prompt prompt half half half half
                  half half half half half None half None) = inr props
             /\ (exists ms,
                   Node.TOKEN_BUDGET_TIMEOUT (Node.summarizeCfg props)
                   = Some ms /\ (ms == 500)%Q)
             /\ Node.CHUNK_OVERLAP (Node.summarizeCfg props) = None
             /\ Node.TEMPERATURE (Node.summarizeCfg props) = None
             /\ wholeCfg (Node.summarizeCfg props) = None)
          /\ Node.getNodeProperties trimsToEmpty
               (Node.mkParameters "o200k" prompt prompt half half half half
                  half half half half half None None None)
             = inl (newError
                 "HIERARCHY_GROUP_SIZE is required and must be greater than 0")).
Proof.
  intros trimsToEmpty p. split; [|split].
  - split.
    + intros [props H]. exact (proj1 (getNodeProperties_inr _ _ _ H)).
    + apply getNodeProperties_valid.
  - intros props H.
    destruct (getNodeProperties_inr _ _ _ H) as [Hvalid ->].
    destruct Hvalid as
      (H1 & H2 & H3 & H4 & H5 & H6 & H7 & H8 & H9 & H10 & H11 & H12 & H13
       & H14 & H15).
    assert (Htimes : forall x, Node.positive x ->
                       Node.positive (Node.times1000 x)).
    { intros x [q [-> Hq]]. exists (q * 1000)%Q. split; [reflexivity|].
      apply Qmult_lt_0_compat; [exact Hq | reflexivity]. }
    cbn zeta.
    cbn [Node.summarizeCfg Node.encodingModel Node.mapPromptProperties
         Node.combinePromptProperties Node.TOKENS_PER_MINUTE
         Node.TOKEN_BUDGET_TIMEOUT Node.REQUESTS_PER_MINUTE
         Node.QUEUE_INTERVAL Node.QUEUE_CONCURRENCY
         Node.TOKEN_BUDGET_WINDOWS Node.MAP_OUT_MAX Node.REDUCE_OUT_MAX
         Node.CHUNK_TOKENS Node.CHUNK_OVERLAP Node.HIERARCHY_GROUP_SIZE
         Node.TEMPERATURE].
    do 15 (split; [reflexivity|]).
    split; [assumption|]. split; [auto|]. split; [assumption|].
    split; [auto|]. split; [assumption|]. split; [auto|].
    do 4 (split; [assumption|]).
    intros tpm timeout rpm interval concurrency window mapOut reduceOut
           groupSize E1 E2 E3 E4 E5 E6 E7 E8 E9.
    rewrite E1 in H4. rewrite E2 in H5. rewrite E3 in H6. rewrite E4 in H7.
    rewrite E5 in H8. rewrite E6 in H9. rewrite E7 in H10.
    rewrite E8 in H11. rewrite E9 in H14.
    apply positive_whole in H4, H5, H6, H7, H8, H9, H10, H11, H14.
    split; [|repeat split; lia].
    unfold wholeCfg.
    cbn [Node.TOKENS_PER_MINUTE Node.TOKEN_BUDGET_TIMEOUT
         Node.REQUESTS_PER_MINUTE Node.QUEUE_INTERVAL Node.QUEUE_CONCURRENCY
         Node.TOKEN_BUDGET_WINDOWS Node.MAP_OUT_MAX Node.REDUCE_OUT_MAX
         Node.HIERARCHY_GROUP_SIZE].
    rewrite E1, E2, E3, E4, E5, E6, E7, E8, E9.
    rewrite !toZ_whole, !toZ_times1000_whole. reflexivity.
  - intros prompt Ht Hne half.
    assert (He : isEmpty prompt = false) by (apply isEmpty_false; exact Hne).
    split.
    + eexists. split.
      * unfold Node.getNodeProperties.
        cbn [Node.p_encodingModel Node.p_mapPrompt Node.p_combinePrompt
             isEmpty].
        rewrite He, Ht. cbn. reflexivity.
      * cbn. split; [|repeat split; reflexivity].
        eexists. split; reflexivity.
    + unfold Node.getNodeProperties.
      cbn [Node.p_encodingModel Node.p_mapPrompt Node.p_combinePrompt
           isEmpty].
      rewrite He, Ht. cbn. reflexivity.
Qed.

(** The parameters of a new node pass, and give the orchestrator a
    configuration of whole numbers. *)
Lemma getNodeProperties_defaults (trimsToEmpty : string -> bool) :
  trimsToEmpty "summarise: {text}" = false ->
  exists props,
    Node.getNodeProperties trimsToEmpty (defaultParameters "summarise: {text}")
    = inr props
    /\ wholeCfg (Node.summarizeCfg props)
       = Some {| TOKENS_PER_MINUTE := 50000;
                 TOKEN_BUDGET_TIMEOUT := 180000;
                 REQUESTS_PER_MINUTE := 50;
                 QUEUE_INTERVAL := 60000;
                 QUEUE_CONCURRENCY := 5;
                 TOKEN_BUDGET_WINDOWS := 60000;
                 MAP_OUT_MAX := 25000;
                 REDUCE_OUT_MAX := 35000;
                 HIERARCHY_GROUP_SIZE := 2 |}.
Proof.
  intro Ht. eexists. split.
  - unfold Node.getNodeProperties, defaultParameters.
    cbn [Node.p_encodingModel Node.p_mapPrompt Node.p_combinePrompt isEmpty].
    rewrite Ht. cbn. reflexivity.
  - vm_compute. reflexivity.
Qed.

(** ** getChatModel, docsFromPlainText *)

(** X15. From an array of connected models [getChatModel] picks by index
    from the end: index [i] gives the element at position
    [length - 1 - i], so the default index 0 gives the last connected
    model, and an index that is out of range gives [undefined].  A value
    that is not an array is handed on as it is. *)
Theorem X15_chat_model_from_the_end :
  forall (M : Type) (models : list M) (single : option M) (index : nat),
    ((index < List.length models)%nat ->
     getChatModel (inl models) index
     = nth_error models (List.length models - 1 - index))
    /\ ((List.length models <= index)%nat ->
        getChatModel (inl models) index = None)
    /\ (forall m, getChatModel (inl (models ++ [m])%list) 0 = Some m)
    /\ getChatModel (inr single) index = single.
Proof.
  intros M models single index. unfold getChatModel.
  split; [|split; [|split]].
  - intros Hlt. destruct (Nat.leb_spec (List.length models) index); [lia|].
    rewrite nth_error_rev. destruct (Nat.ltb_spec index (List.length models)); [|lia].
    f_equal. lia.
  - intros Hge. destruct (Nat.leb_spec (List.length models) index); [reflexivity | lia].
  - intros m. rewrite length_app. cbn [List.length].
    destruct (Nat.leb_spec (List.length models + 1) 0); [lia|].
    rewrite rev_app_distr. reflexivity.
  - reflexivity.
Qed.

Lemma mapWithIndex_spec {A B : Type} (f : A -> nat -> B) (l : list A) :
  forall i,
    List.length (mapWithIndex f i l) = List.length l
    /\ forall k x, nth_error l k = Some x ->
                   nth_error (mapWithIndex f i l) k = Some (f x (i + k)%nat).
Proof.
  induction l as [|a l IH]; intros i; cbn [mapWithIndex List.length].
  - split; [reflexivity|]. intros [|k] x; discriminate.
  - destruct (IH (S i)) as [Hl Hn]. split; [rewrite Hl; reflexivity|].
    intros [|k] x; cbn [nth_error].
    + intros [= <-]. rewrite Nat.add_0_r. reflexivity.
    + intros Hk. rewrite (Hn k x Hk). do 2 f_equal. lia.
Qed.

(** X16. [docsFromPlainText] catches nothing: it throws exactly when
    [getNodeProperties] throws, or the construction of the splitter (from
    the configured chunk size and overlap and the token count under the
    configured encoding) throws, or its [splitText] rejects, and then with
    that error.  Otherwise it returns one document per chunk of the
    splitter, in the splitter's order: the document at position [k] holds
    the k-th chunk as page content, [k] as its chunk number and the token
    count of that chunk. *)
Theorem X16_documents_numbered :
  forall (Number : Type) (properties : JsError + ChunkProperties Number)
         (newSplitter : Number -> Number -> (string -> Z)
                        -> JsError + (string -> JsError + list string))
         (count : string -> string -> Z) (longText : string),
    let made props :=
      newSplitter (CHUNK_TOKENS props) (CHUNK_OVERLAP props)
        (fun s => count s (encodingModel props)) in
    match docsFromPlainText properties newSplitter count longText with
    | inl e =>
        properties = inl e
        \/ (exists props, properties = inr props /\ made props = inl e)
        \/ (exists props splitText,
              properties = inr props /\ made props = inr splitText
              /\ splitText longText = inl e)
    | inr docs =>
        exists props splitText chunks,
          properties = inr props /\ made props = inr splitText
          /\ splitText longText = inr chunks
          /\ List.length docs = List.length chunks
          /\ forall k text,
               nth_error chunks k = Some text ->
               nth_error docs k
               = Some {| pageContent := text;
                         chunk := Z.of_nat k;
                         tokenCount := count text (encodingModel props) |}
    end.
Proof.
  intros Number properties newSplitter count longText made.
  unfold docsFromPlainText.
  destruct properties as [e|props]; [left; reflexivity|].
  fold (made props).
  destruct (made props) as [e|splitText] eqn:Em.
  { right. left. exists props. split; [reflexivity | exact Em]. }
  destruct (splitText longText) as [e|chunks] eqn:Es.
  { right. right. exists props, splitText. repeat split; assumption. }
  exists props, splitText, chunks.
  split; [reflexivity|]. split; [exact Em|]. split; [exact Es|].
  destruct (mapWithIndex_spec
              (fun chunk index =>
                 {| pageContent := chunk; chunk := Z.of_nat index;
                    tokenCount := count chunk (encodingModel props) |})
              chunks 0%nat) as [Hl Hn].
  split; [exact Hl|]. intros k text Hk. exact (Hn k text Hk).
Qed.

(** ** The cost of the reduce phase *)

Section ReduceCost.
Local Open Scope nat_scope.
Local Open Scope list_scope.

Variable env : Env.
Variable config : SummarizeCfg.

Lemma queueAdd_invocations {T : Type} (fn : Thunk T) :
  (forall w, invocations (snd (fn w)) = S (invocations w)) ->
  forall w,
    invocations w < invocations (snd (queueAdd fn w)) <= invocations w + 7.
Proof.
  intros Hfn w. unfold queueAdd, withRetry.
  pose proof (pRetry_invocations fn Hfn defaultMaxRetries 1 (emit QueueStart w))
    as Hcalls.
  pose proof (pRetry_callCount fn onFailedAttempt defaultMaxRetries 1
                (emit QueueStart w)) as Hle.
  pose proof (pRetry_called fn defaultMaxRetries 1 (emit QueueStart w)) as Hpos.
  destruct (pRetry fn onFailedAttempt defaultMaxRetries 1 (emit QueueStart w))
    as [[res w1] steps].
  cbn [fst snd invocations emit] in *. unfold defaultMaxRetries in Hle. lia.
Qed.

Lemma reduceCall_invocations prompt estWeight w :
  invocations (snd (reduceCall env config prompt estWeight w))
  = S (invocations w).
Proof.
  unfold reduceCall, invokeModel.
  destruct (reply_result _) as [e|res]; [reflexivity|].
  destruct (isEmpty (content res)); reflexivity.
Qed.

Lemma reduceJob_invocations joined w :
  invocations w <= invocations (snd (reduceJob env config joined w))
  <= invocations w + 7.
Proof.
  unfold reduceJob.
  destruct (isEmpty (trim joined)); [cbn; lia|].
  destruct (_ >? _)%Z; [cbn; lia|].
  match goal with
  | |- context [awaitBudget config ?est ?w0] =>
      pose proof (awaitBudget_invocations config est w0) as Hw;
      destruct (awaitBudget config est w0) as [[e|u] w1]
  end; cbn [fst snd invocations emit] in *; [lia|].
  match goal with
  | |- context [queueAdd ?fn w1] =>
      pose proof (queueAdd_invocations fn
                    (fun v => reduceCall_invocations _ _ v) w1) as Hq;
      destruct (queueAdd fn w1) as [[e|v] w2]
  end; cbn [fst snd] in *; lia.
Qed.

Lemma promiseAllMap_invocations groups : forall w,
  invocations w
  <= invocations (snd (promiseAllMap (reduceJob env config) groups w))
  <= invocations w + 7 * List.length groups.
Proof.
  induction groups as [|g groups IH]; intros w; cbn [promiseAllMap List.length];
    [cbn; lia|].
  pose proof (reduceJob_invocations (join separator g) w) as Hg.
  destruct (reduceJob env config (join separator g) w) as [r w1].
  specialize (IH w1).
  destruct (promiseAllMap (reduceJob env config) groups w1) as [rs w2].
  cbn [snd] in *. lia.
Qed.

Lemma hierarchicalReduce_invocations groupSize : forall fuel texts w,
  invocations w
  <= invocations
       (snd (fst (hierarchicalReduce fuel texts (reduceJob env config) groupSize w)))
  <= invocations w
     + 7 * combineCalls
             (snd (hierarchicalReduce fuel texts (reduceJob env config) groupSize w)).
Proof.
  induction fuel as [|fuel IH]; intros texts w; cbn [hierarchicalReduce];
    [cbn; lia|].
  destruct (List.length texts <=? groupSize).
  - pose proof (reduceJob_invocations (join separator texts) w) as Hj.
    destruct (reduceJob env config (join separator texts) w) as [r w1].
    cbn in *. lia.
  - destruct (groupsOf texts groupSize) as [groups|]; [|cbn; lia].
    pose proof (promiseAllMap_invocations groups w) as Hp.
    destruct (promiseAllMap (reduceJob env config) groups w) as [[e|level] w1];
      cbn [fst snd] in *; [cbn; lia|].
    specialize (IH level w1).
    destruct (hierarchicalReduce fuel level (reduceJob env config) groupSize w1)
      as [[o w2] rounds].
    cbn [fst snd] in *.
    change (combineCalls (groups :: rounds))
      with (List.length groups + combineCalls rounds). lia.
Qed.

End ReduceCost.

(** X17. Over all its rounds the reduce phase makes at most seven model
    calls for each group it hands to [reduceJob] (one call and the six
    default retries), whatever the model answers and however the reduction
    ends, and it never un-counts a call. *)
Theorem X17_reduce_call_bound :
  forall (env : Env) (config : SummarizeCfg) (fuel : nat)
         (partials : list string) (groupSize : nat) (w : World),
    let run := hierarchicalReduce fuel partials (reduceJob env config)
                 groupSize w in
    (invocations w <= invocations (snd (fst run))
     <= invocations w + 7 * combineCalls (snd run))%nat.
Proof.
  intros env config fuel partials groupSize w run.
  apply hierarchicalReduce_invocations.
Qed.

(** ** What the per-segment handler re-throws *)

(** X18. The per-segment handler recognises a budget timeout by the wording
    of the message alone.  A queued map call that is rejected for good
    with an error whose message contains "Token budget timeout" (for
    instance an error of the provider that quotes these words) is
    re-thrown like a timeout of the budget wait: the run rejects with that
    message under the map-phase prefix and the remaining segments are not
    processed. *)
Theorem X18_timeout_wording_aborts :
  forall (env : Env) (config : SummarizeCfg) (fuel : nat)
         (pre : list Doc) (doc : Doc) (rest : list Doc)
         (w0 w w1 w2 : World) (partials : list string) (e : JsError),
    let i := List.length pre in
    let prompt := mapPrompt_format env (pageContent doc) in
    let estWeight := mapEstimate env config doc in
    mapLoop env config 0 pre [] (makeQueue config w0) = (inr partials, w) ->
    isEmpty (pageContent doc) = false ->
    estWeight <= TOKENS_PER_MINUTE config ->
    awaitBudget config estWeight (emit (MapChunk i) w) = (inr tt, w1) ->
    queueAdd (mapCall env config doc prompt estWeight) w1 = (inl e, w2) ->
    includes timeoutNeedle (message e) = true ->
    mapIteration env config i doc partials w = (inl e, w2)
    /\ summarizeWithQueue env config fuel (pre ++ doc :: rest)%list w0
       = (Rejected (newError ("MAP phase failed: " ++ message e)), w2).
Proof.
  intros env config fuel pre doc rest w0 w w1 w2 partials e i prompt estWeight
         Hpre Hcontent Hest Hwait Hcall Hneedle.
  assert (Hit : mapIteration env config i doc partials w = (inl e, w2)).
  { unfold mapIteration, mapBody. rewrite Hcontent.
    unfold estWeight, mapEstimate in Hest, Hwait, Hcall.
    destruct (Z.gtb_spec
                (countTokens env (mapPrompt_format env (pageContent doc))
                 + MAP_OUT_MAX config) (TOKENS_PER_MINUTE config)); [lia|].
    rewrite Hwait. unfold prompt in Hcall. rewrite Hcall, Hneedle.
    reflexivity. }
  split; [exact Hit|].
  unfold summarizeWithQueue.
  destruct (pre ++ doc :: rest)%list as [|d ds] eqn:Ed.
  { destruct pre; discriminate. }
  rewrite <- Ed. unfold mapPhase.
  rewrite mapLoop_app, Hpre. cbn [mapLoop Nat.add]. fold i.
  rewrite Hit. reflexivity.
Qed.

Lemma X18_timeout_wording_aborts_witness :
  exists w w1 w2 e,
    mapLoop wordyEnv demoCfg 0 [demoDoc 0 "one"] []
      (makeQueue demoCfg emptyWorld) = (inr ["<map: one>"], w)
    /\ awaitBudget demoCfg (mapEstimate wordyEnv demoCfg (demoDoc 1 "FAIL two"))
         (emit (MapChunk 1) w) = (inr tt, w1)
    /\ queueAdd (mapCall wordyEnv demoCfg (demoDoc 1 "FAIL two")
                   (mapPrompt_format wordyEnv "FAIL two")
                   (mapEstimate wordyEnv demoCfg (demoDoc 1 "FAIL two"))) w1
       = (inl e, w2)
    /\ includes timeoutNeedle (message e) = true
    /\ summarizeWithQueue wordyEnv demoCfg 5
         [demoDoc 0 "one"; demoDoc 1 "FAIL two"; demoDoc 2 "three"] emptyWorld
       = (Rejected (newError ("MAP phase failed: " ++ message e)), w2).
Proof.
  edestruct (X18_timeout_wording_aborts wordyEnv demoCfg 5
               [demoDoc 0 "one"] (demoDoc 1 "FAIL two") [demoDoc 2 "three"]
               emptyWorld) as [_ Hrun].
  - vm_compute; reflexivity.
  - reflexivity.
  - vm_compute; discriminate.
  - vm_compute; reflexivity.
  - vm_compute; reflexivity.
  - vm_compute; reflexivity.
  - eexists _, _, _, _.
    split; [vm_compute; reflexivity|].
    split; [vm_compute; reflexivity|].
    split; [vm_compute; reflexivity|].
    split; [vm_compute; reflexivity|].
    exact Hrun.
Defined.

(** ** The first round of the reduce phase is never blank *)

Section Ink.
Local Open Scope string_scope.

Lemma hasInk_app a b : hasInk (a ++ b) = hasInk a || hasInk b.
Proof.
  induction a as [|c a IH]; cbn; [reflexivity|].
  rewrite IH. apply orb_assoc.
Qed.

Lemma trimStart_head s :
  trimStart s = "" \/ exists a r, trimStart s = String a r /\ isSpace a = false.
Proof.
  induction s as [|c s IH]; cbn [trimStart]; [left; reflexivity|].
  destruct (isSpace c) eqn:E; [exact IH|]. right. eauto.
Qed.

Lemma trimStart_ink s : hasInk s = true -> trimStart s <> "".
Proof.
  induction s as [|c s IH]; cbn [hasInk trimStart]; [discriminate|].
  destruct (isSpace c); cbn [negb orb]; [exact IH | discriminate].
Qed.

Lemma trimEnd_head a r :
  isSpace a = false -> exists r', trimEnd (String a r) = String a r'.
Proof.
  intros Ha. cbn [trimEnd]. rewrite Ha.
  destruct (trimEnd r); eauto.
Qed.

Lemma trim_ink s : hasInk s = true -> isEmpty (trim s) = false.
Proof.
  intros H. unfold trim.
  destruct (trimStart_head s) as [E|(a & r & E & Ha)].
  - exfalso. exact (trimStart_ink s H E).
  - rewrite E. destruct (trimEnd_head a r Ha) as [r' ->]. reflexivity.
Qed.

Lemma trimmed_ink c : trim c <> "" -> hasInk (trim c) = true.
Proof.
  unfold trim.
  destruct (trimStart_head c) as [->|(a & r & -> & Ha)]; [cbn; congruence|].
  destruct (trimEnd_head a r Ha) as [r' ->]. intros _. cbn. rewrite Ha.
  reflexivity.
Qed.

Lemma join_ink sep p g : hasInk p = true -> hasInk (join sep (p :: g)) = true.
Proof.
  intros H. destruct g as [|q g]; cbn [join]; [exact H|].
  rewrite hasInk_app, H. reflexivity.
Qed.

End Ink.

(** X19. The partials of the map phase never make a blank text.  A group
    that starts with one of them, joined with the separator, still has
    text after trimming, so the empty-text rejection of [reduceJob] cannot
    happen in the first round of the reduce phase. *)
Theorem X19_first_round_not_blank :
  forall (env : Env) (config : SummarizeCfg) (docs : list Doc) (i : nat)
         (w : World),
    match fst (mapLoop env config i docs [] w) with
    | inl _ => True
    | inr ps =>
        forall p g,
          In p ps ->
          isEmpty (trim (join separator (p :: g))) = false
          /\ forall v,
               fst (reduceJob env config (join separator (p :: g)) v)
               <> inl (newError "Empty text provided for reduce operation")
    end.
Proof.
  intros env config docs i w.
  destruct (mapLoop_run env config docs i [] w) as (_ & H & _).
  destruct (fst (mapLoop env config i docs [] w)) as [e|ps]; [exact I|].
  destruct (H ps eq_refl) as (new & Hps & _ & Hf). cbn [app] in Hps. subst new.
  intros p g Hp.
  assert (Hink : isEmpty (trim (join separator (p :: g))) = false).
  { apply trim_ink, join_ink.
    apply PartialsOf_Forall in Hf.
    rewrite Forall_forall in Hf. destruct (Hf p Hp) as [Hne [c ->]].
    apply trimmed_ink. exact Hne. }
  split; [exact Hink|].
  intros v. unfold reduceJob. rewrite Hink.
  destruct (_ >? _); cbn [fst].
  - intros H0; inversion H0.
  - destruct (awaitBudget config _ _) as [[e0|u] w1]; cbn [fst].
    + intros H0; inversion H0.
    + destruct (queueAdd _ w1) as [[e0|x] w2]; cbn [fst]; [|discriminate].
      intros H0; inversion H0.
Qed.
